(** * Conditional SAGE cones: cover selection, primal and dual compilers

    A shallow embedding of
    [sageopt/coniclifts/constraints/set_membership/conditional_sage_cone.py]:
    the sign classification and cover selection of [ExpCoverHelper], the
    block structure emitted by [PrimalCondSageCone.conic_form], and the
    violation oracles of [PrimalCondSageCone] and [DualCondSageCone].

    Conventions of the embedding.
    - numpy floats are idealised as rationals [Q]; values a solver or a
      special function can return ([inf], [-inf], [nan]) live in [xreal].
    - a Python exception is a [Raise] in the [result] monad.
    - a numpy array that the caller owns and that the code mutates in place
      lives in a store indexed by locations, so that two dictionary values
      may be the same array.
    - matrices are lists of rows of one length, and the shapes of [alpha],
      [A] and [b] agree as the constructors require; products of
      mismatched shapes are outside the embedding.
    - the collaborators that are not part of this module (the conic solver,
      the product-cone projections, [scipy.special.rel_entr]) are the fields
      of the class [Collaborators]. *)

From Stdlib Require Import QArith Qabs Qminmax Lia.
From stdpp Require Import base option list gmap.

Open Scope Q_scope.

(** ** Exceptions and the result monad *)

Inductive exn : Type :=
  | RuntimeError
  | NotImplementedError
  | IndexError
  | KeyError
  | ValueError
  | TypeError.

Inductive result (A : Type) : Type :=
  | Ok (a : A)
  | Raise (e : exn).
Arguments Ok {A} a.
Arguments Raise {A} e.

#[global] Instance result_ret : MRet result := @Ok.
#[global] Instance result_bind : MBind result :=
  λ A B f r, match r with Ok a => f a | Raise e => Raise e end.
#[global] Instance result_fmap : FMap result :=
  λ A B f r, match r with Ok a => Ok (f a) | Raise e => Raise e end.

(** [for x in xs: acc = step acc x], stopping at the first exception. *)
Fixpoint for_each {A S : Type} (step : S → A → result S) (xs : list A) (acc : S)
  : result S :=
  match xs with
  | [] => Ok acc
  | x :: xs' => acc' ← step acc x; for_each step xs' acc'
  end.

(** [[f x for x in xs]], stopping at the first exception. *)
Fixpoint collect {A B : Type} (f : A → result B) (xs : list A) : result (list B) :=
  match xs with
  | [] => Ok []
  | x :: xs' => y ← f x; ys ← collect f xs'; Ok (y :: ys)
  end.

(** ** Extended reals: what a float can hold *)

Inductive xreal : Type :=
  | Fin (q : Q)
  | PInf
  | NInf
  | NaN.

Definition Qlt_bool (x y : Q) : bool := negb (Qle_bool y x).

Definition xadd (a b : xreal) : xreal :=
  match a, b with
  | NaN, _ | _, NaN => NaN
  | PInf, NInf | NInf, PInf => NaN
  | PInf, _ | _, PInf => PInf
  | NInf, _ | _, NInf => NInf
  | Fin x, Fin y => Fin (x + y)
  end.

Definition xneg (a : xreal) : xreal :=
  match a with
  | Fin x => Fin (- x)
  | PInf => NInf
  | NInf => PInf
  | NaN => NaN
  end.

Definition xabs (a : xreal) : xreal :=
  match a with
  | Fin x => Fin (Qabs x)
  | PInf | NInf => PInf
  | NaN => NaN
  end.

(** IEEE comparison [a < b]: false as soon as one side is [nan]. *)
Definition xltb (a b : xreal) : bool :=
  match a, b with
  | NaN, _ | _, NaN => false
  | Fin x, Fin y => Qlt_bool x y
  | NInf, (Fin _ | PInf) => true
  | Fin _, PInf => true
  | _, _ => false
  end.

(** IEEE comparison [a == b]. *)
Definition xeqb (a b : xreal) : bool :=
  match a, b with
  | Fin x, Fin y => Qeq_bool x y
  | PInf, PInf | NInf, NInf => true
  | _, _ => false
  end.

Definition is_nan (a : xreal) : bool :=
  match a with NaN => true | _ => false end.

(** Python's builtin [max(a, b)]: [b] replaces [a] only when [b > a]. *)
Definition py_max2 (a b : xreal) : xreal := if xltb a b then b else a.

(** Python's builtin [min(a, b)]: [b] replaces [a] only when [b < a]. *)
Definition py_min2 (a b : xreal) : xreal := if xltb b a then b else a.

(** Python's builtin [max(xs)] on a list; [ValueError] on the empty list. *)
Definition py_max (xs : list xreal) : result xreal :=
  match xs with
  | [] => Raise ValueError
  | x :: xs' => Ok (foldl py_max2 x xs')
  end.

(** [np.max(xs)]: [ValueError] on an empty array, [nan] as soon as one entry
    is [nan], the largest entry otherwise. *)
Definition np_max (xs : list xreal) : result xreal :=
  match xs with
  | [] => Raise ValueError
  | x :: xs' => Ok (if existsb is_nan xs then NaN else foldl py_max2 x xs')
  end.

(** [np.sum(xs)] on floats. *)
Definition np_sum (xs : list xreal) : xreal := foldl xadd (Fin 0) xs.

(** ** Rational vectors and matrices *)

Definition Qsum (v : list Q) : Q := foldr Qplus 0 v.

(** [u @ v] for two vectors. *)
Definition dot (u v : list Q) : Q := Qsum (zip_with Qmult u v).

(** [M @ v]. *)
Definition mat_vec (M : list (list Q)) (v : list Q) : list Q :=
  (λ row, dot row v) <$> M.

(** [M.T @ v]: the combination of the rows of [M] with weights [v]; [width]
    is the number of columns of [M]. *)
Definition matT_vec (width : nat) (M : list (list Q)) (v : list Q) : list Q :=
  foldr (zip_with Qplus) (replicate width 0)
        (zip_with (λ row x, Qmult x <$> row) M v).

Definition vec_sub (u v : list Q) : list Q := zip_with Qminus u v.
Definition vec_add (u v : list Q) : list Q := zip_with Qplus u v.

(** The order of a vector norm, as far as it stays rational. *)
Inductive norm_ord : Type := ord_inf | ord_1.

(** ** Boolean masks *)

Definition np_ones (m : nat) : list bool := replicate m true.
Definition np_any (mask : list bool) : bool := existsb id mask.
Definition count_nonzero (mask : list bool) : nat := length (List.filter id mask).

(** [a[i] = x], with numpy's bounds check. *)
Definition setitem {A} (a : list A) (i : nat) (x : A) : result (list A) :=
  if decide (i < length a)%nat then Ok (<[i:=x]> a) else Raise IndexError.

(** [a[i]], with numpy's bounds check. *)
Definition getitem {A} (a : list A) (i : nat) : result A :=
  match a !! i with Some x => Ok x | None => Raise IndexError end.

(** [a[idxs] = x] for a list of integer indices. *)
Definition setitems {A} (a : list A) (idxs : list nat) (x : A) : result (list A) :=
  for_each (λ acc j, setitem acc j x) idxs a.

(** The entries selected by a mask of the same length. *)
Fixpoint select {A} (a : list A) (mask : list bool) : list A :=
  match a, mask with
  | x :: a', b :: mask' => if b then x :: select a' mask' else select a' mask'
  | _, _ => []
  end.

(** [a[mask]]: numpy refuses a mask whose length is not that of [a]. *)
Definition getmask {A} (a : list A) (mask : list bool) : result (list A) :=
  if decide (length mask = length a) then Ok (select a mask) else Raise IndexError.

(** The entries of [a] at the true positions of [mask] replaced, in order,
    by the entries of [src]. *)
Fixpoint scatter {A} (a : list A) (mask : list bool) (src : list A) : list A :=
  match a, mask with
  | x :: a', true :: mask' =>
      match src with
      | y :: src' => y :: scatter a' mask' src'
      | [] => x :: scatter a' mask' []
      end
  | x :: a', false :: mask' => x :: scatter a' mask' src
  | _, _ => a
  end.

(** [a[mask] = src]: the mask has the length of [a]; [src] has one entry
    per true position, or a single entry that is broadcast. *)
Definition setmask {A} (a : list A) (mask : list bool) (src : list A)
  : result (list A) :=
  if decide (length mask = length a) then
    if decide (length src = count_nonzero mask) then Ok (scatter a mask src)
    else match src with
         | [y] => Ok (scatter a mask (replicate (count_nonzero mask) y))
         | _ => Raise ValueError
         end
  else Raise IndexError.

(** ** Symbolic affine expressions *)

(** The scalar unknowns: a component of a caller's variable, or of one of
    the variables the compilers declare for term [i]. *)
Inductive Atom : Type :=
  | user_var (id k : nat)
  | nu_var (i k : nat)
  | c_var (i k : nat)
  | relent_epi_var (i k : nat)
  | lambda_var (i k : nat)
  | mu_var (i k : nat).

#[global] Instance Atom_eq_dec : EqDecision Atom.
Proof. solve_decision. Defined.

(** Modelled from the spec: [ScalarExpression] belongs to the expression
    layer, which is not part of this module; an entry is an affine
    combination of unknowns plus a constant offset, and it is constant when
    it mentions no unknown. *)
Record ScalarExpression : Type := {
  atoms_to_coeffs : list (Atom * Q);
  offset : Q
}.

Definition is_constant (e : ScalarExpression) : bool :=
  match atoms_to_coeffs e with [] => true | _ => false end.

Abbreviation Expression := (list ScalarExpression).

Definition const_expr (q : Q) : ScalarExpression :=
  {| atoms_to_coeffs := []; offset := q |}.
Definition atom_expr (a : Atom) : ScalarExpression :=
  {| atoms_to_coeffs := [(a, 1)]; offset := 0 |}.
Definition expr_add (e1 e2 : ScalarExpression) : ScalarExpression :=
  {| atoms_to_coeffs := atoms_to_coeffs e1 ++ atoms_to_coeffs e2;
     offset := offset e1 + offset e2 |}.
Definition expr_scale (q : Q) (e : ScalarExpression) : ScalarExpression :=
  {| atoms_to_coeffs := (λ p, (p.1, q * p.2)) <$> atoms_to_coeffs e;
     offset := q * offset e |}.
Definition expr_neg (e : ScalarExpression) : ScalarExpression := expr_scale (-1) e.
Definition expr_sub (e1 e2 : ScalarExpression) : ScalarExpression :=
  expr_add e1 (expr_neg e2).
Definition expr_sum (es : list ScalarExpression) : ScalarExpression :=
  foldr expr_add (const_expr 0) es.

(** The inner product of a vector variable and a numeric vector as long. *)
Definition expr_dot (es : Expression) (b : list Q) : ScalarExpression :=
  expr_sum (zip_with expr_scale b es).

(** [var @ b]: the operands must be as long as each other. *)
Definition expr_matmul (es : Expression) (b : list Q) : result ScalarExpression :=
  if decide (length es = length b) then Ok (expr_dot es b) else Raise ValueError.

(** A [Variable(shape=(len,))] seen as an expression. *)
Definition mk_Variable (mk : nat → Atom) (len : nat) : Expression :=
  (λ k, atom_expr (mk k)) <$> seq 0 len.

(** [Expression(np.zeros(m,))]. *)
Definition zeros_expr (m : nat) : Expression := replicate m (const_expr 0).

(** The value of an expression once every unknown has one. *)
Definition value_of (env : Atom → Q) (e : ScalarExpression) : Q :=
  foldr (λ p acc, p.2 * env p.1 + acc) (offset e) (atoms_to_coeffs e).

Definition values_of (env : Atom → Q) (es : Expression) : list Q :=
  value_of env <$> es.

(** ** Cones *)

(** The type tags ['+'], ['S'], ['e'], ['0'] and any other tag. *)
Inductive cone_type : Type :=
  | cone_pos
  | cone_S
  | cone_e
  | cone_0
  | cone_other (tag : nat).

Record Cone : Type := { type : cone_type; len : nat }.

Definition _ALLOWED_CONES_ (t : cone_type) : bool :=
  match t with
  | cone_pos | cone_S | cone_e | cone_0 => true
  | cone_other _ => false
  end.

Definition check_cones (K : list Cone) : result (list Cone) :=
  if existsb (λ co, negb (_ALLOWED_CONES_ (type co))) K
  then Raise NotImplementedError
  else Ok ((λ co, {| type := type co; len := len co |}) <$> K).

(** ** Sign classification *)

Definition enumerate {A} (l : list A) : list (nat * A) := zip (seq 0 (length l)) l.

(** [[i for i, c_i in enumerate(c) if p(c_i)]]. *)
Definition indices_where {A} (p : A → bool) (l : list A) : list nat :=
  fst <$> List.filter (λ ic, p ic.2) (enumerate l).

Definition must_certify (c_i : ScalarExpression) : bool :=
  negb (is_constant c_i) || Qlt_bool (offset c_i) 0.
Definition definite_negative (c_i : ScalarExpression) : bool :=
  is_constant c_i && Qlt_bool (offset c_i) 0.
Definition definite_positive (c_i : ScalarExpression) : bool :=
  is_constant c_i && Qlt_bool 0 (offset c_i).

Record sign_classes : Type := {
  cls_U_I : list nat;
  cls_N_I : list nat;
  cls_P_I : list nat
}.

(** The first half of [ExpCoverHelper.__init__]. *)
Definition classify (m : nat) (c : option Expression) : sign_classes :=
  match c with
  | Some c =>
      {| cls_U_I := indices_where must_certify c;
         cls_N_I := indices_where definite_negative c;
         cls_P_I := indices_where definite_positive c |}
  | None =>
      {| cls_U_I := seq 0 m; cls_N_I := []; cls_P_I := [] |}
  end.

(** ** Collaborators outside this module *)

(** [Problem.status] after a solve. *)
Inductive status : Type := solved | inaccurate | failed.

Definition status_eqb (s1 s2 : status) : bool :=
  match s1, s2 with
  | solved, solved | inaccurate, inaccurate | failed, failed => true
  | _, _ => false
  end.

Abbreviation matrix := (list (list Q)).

Class Collaborators : Type := {
  (** [Problem(CL_MIN, t, [mat @ x <= t, PrimalProductCone(A @ x + b, K)])]
      solved with [_REDUCTION_SOLVER_]: its status and value. *)
  solve_reduction : matrix → matrix → list Q → list Cone → status * xreal;
  (** The value of the projection problem of [PrimalCondSageCone.project]:
      minimise [t] subject to [vector2norm(item - c) <= t] and
      [c] in the primal cone of [(alpha, A, b, K)]. *)
  solve_projection : list Q → matrix → matrix → list Q → list Cone → xreal;
  (** The feasibility problem of the exact dual violation, from [mat], the
      lower bounds, [A], [v[i] * b] and [K]: its status and value. *)
  solve_feasibility :
    matrix → list xreal → matrix → list Q → list Cone → status * xreal;
  (** [DualProductCone.project(item, K)]. *)
  DualProductCone_project : list Q → list Cone → xreal;
  (** [PrimalProductCone.project(item, K)]. *)
  PrimalProductCone_project : list Q → list Cone → xreal;
  (** [scipy.special.rel_entr(x, y)]. *)
  rel_entr : Q → Q → xreal;
  (** [scipy.special.rel_entr(x, np.exp(1) * y)]. *)
  rel_entr_e : Q → Q → xreal;
  (** [DualProductCone(lam, K).conic_form()]: the exception it raises, if
      it raises one (it does, for one, when [K] holds zero cones only). *)
  DualProductCone_conic_form_raises : Expression → list Cone → option exn
}.

(** ** The cover helper *)

Definition _AGGRESSIVE_REDUCTION_ : bool := true.
Definition _ELIMINATE_TRIVIAL_AGE_CONES_ : bool := true.

(** The messages of the [RuntimeError]s of the helper are told apart by the
    place that raises them; the embedding keeps one exception. *)

(** [d[i]] for a dictionary. *)
Definition dict_get {V} (d : gmap nat V) (i : nat) : result V :=
  match d !! i with Some v => Ok v | None => Raise KeyError end.

(** The loop body of the first loop of [_default_exp_covers]. *)
Definition initial_cover (m : nat) (N_I : list nat) (i : nat) : result (list bool) :=
  cov ← setitems (np_ones m) N_I false;
  setitem cov i false.

Definition initial_covers (m : nat) (U_I N_I : list nat)
  : result (gmap nat (list bool)) :=
  for_each (λ expcovers i, cov ← initial_cover m N_I i; Ok (<[i:=cov]> expcovers))
           U_I ∅.

Definition row_sums (alpha : matrix) : list Q := Qsum <$> alpha.

Definition all_nonneg (alpha : matrix) : bool :=
  forallb (forallb (Qle_bool 0)) alpha.

(** [np.min(v)]. *)
Definition np_min (v : list Q) : result Q :=
  match v with
  | [] => Raise ValueError
  | x :: v' => Ok (foldl Qmin x v')
  end.

(** The first position whose entry satisfies [p]. *)
Fixpoint find_index {A} (p : A → bool) (l : list A) : option nat :=
  match l with
  | [] => None
  | x :: l' => if p x then Some 0%nat else S <$> find_index p l'
  end.

(** [np.nonzero(row_sums == 0)[0][0]]. *)
Definition first_zero (rs : list Q) : result nat :=
  match find_index (λ s, Qeq_bool s 0) rs with
  | Some k => Ok k
  | None => Raise IndexError
  end.

(** The test that guards the aggressive reduction; [and] does not evaluate
    [np.min] when some entry is negative. *)
Definition reduction_applies (alpha : matrix) : result bool :=
  if all_nonneg alpha then mn ← np_min (row_sums alpha); Ok (Qeq_bool mn 0)
  else Ok false.

(** The loop over [j] of the aggressive reduction, for one [i]. *)
Definition reduce_cover (alpha : matrix) (m zero_loc : nat) (curr_row : list Q)
    (curr_cover : list bool) : result (list bool) :=
  for_each (λ cov j,
      cj ← getitem cov j;
      if cj && negb (j =? zero_loc)%nat then
        row_j ← getitem alpha j;
        if Qeq_bool (dot curr_row row_j) 0 then setitem cov j false else Ok cov
      else Ok cov)
    (seq 0 m) curr_cover.

Definition aggressive_step (alpha : matrix) (m zero_loc : nat)
    (expcovers : gmap nat (list bool)) (i : nat) : result (gmap nat (list bool)) :=
  if decide (i = zero_loc) then Ok expcovers
  else
    curr_cover ← dict_get expcovers i;
    curr_row ← getitem alpha i;
    cov ← reduce_cover alpha m zero_loc curr_row curr_cover;
    Ok (<[i:=cov]> expcovers).

Definition aggressive_reduction (alpha : matrix) (m : nat) (U_I : list nat)
    (expcovers : gmap nat (list bool)) : result (gmap nat (list bool)) :=
  applies ← reduction_applies alpha;
  if (applies : bool) then
    zero_loc ← first_zero (row_sums alpha);
    for_each (aggressive_step alpha m zero_loc) U_I expcovers
  else Ok expcovers.

(** [self.alpha[expcovers[i], :] - self.alpha[i, :]]. *)
Definition cover_matrix (alpha : matrix) (cov : list bool) (i : nat) : result matrix :=
  rows ← getmask alpha cov;
  row_i ← getitem alpha i;
  Ok (map (λ r, vec_sub r row_i) rows).

(** The verdict of the auxiliary problem: solved, with a value below -100. *)
Definition is_trivial (sv : status * xreal) : bool :=
  status_eqb sv.1 solved && xltb sv.2 (Fin (-100)).

Definition trivial_step `{Collaborators} (alpha A : matrix) (b : list Q)
    (K : list Cone) (expcovers : gmap nat (list bool)) (i : nat)
  : result (gmap nat (list bool)) :=
  cov ← dict_get expcovers i;
  if np_any cov then
    mat ← cover_matrix alpha cov i;
    if is_trivial (solve_reduction mat A b K)
    then Ok (<[i:=replicate (length cov) false]> expcovers)
    else Ok expcovers
  else Ok expcovers.

Definition eliminate_trivial `{Collaborators} (alpha A : matrix) (b : list Q)
    (K : list Cone) (U_I : list nat) (expcovers : gmap nat (list bool))
  : result (gmap nat (list bool)) :=
  for_each (trivial_step alpha A b K) U_I expcovers.

Definition _default_exp_covers `{Collaborators} (alpha A : matrix) (b : list Q)
    (K : list Cone) (m : nat) (U_I N_I : list nat)
  : result (gmap nat (list bool)) :=
  expcovers ← initial_covers m U_I N_I;
  expcovers ← (if _AGGRESSIVE_REDUCTION_
               then aggressive_reduction alpha m U_I expcovers
               else Ok expcovers);
  if _ELIMINATE_TRIVIAL_AGE_CONES_
  then eliminate_trivial alpha A b K U_I expcovers
  else Ok expcovers.

(** *** The aggressive reduction on an array of dtype int64

    The definitions above compute over exact rationals; numpy computes in
    the dtype of [alpha]. The two agree as long as no product or sum leaves
    the range in which that dtype is exact. The reduction is given once
    more for [alpha] of dtype [int64], where a product or a sum that leaves
    the 64 bits wraps around. *)







(** *** A cover map supplied by the caller *)

(** What a dictionary value can be: a one-dimensional boolean numpy array
    (held in the store, at a location), a numpy array of another dtype,
    something that is no numpy array, or a two-dimensional boolean array of
    shape [(rows, extra_cols + 2)], of which only the shape matters since
    the verification rejects it. Boolean arrays of other shapes (no
    dimension, three or more dimensions, rows of at most one entry) are not
    represented: their truth value depends on the numpy at hand. *)
Inductive pyvalue : Type :=
  | ndarray_bool (l : nat)
  | ndarray_other
  | not_ndarray
  | ndarray_bool_2d (rows extra_cols : nat).

#[global] Instance pyvalue_eq_dec : EqDecision pyvalue.
Proof. solve_decision. Defined.

(** The caller's boolean arrays, by location. A location the store does not
    hold reads as the empty array. *)
Definition deref (st : gmap nat (list bool)) (l : nat) : list bool :=
  default [] (st !! l).

(** The argument [expcovers]. *)
Inductive expcovers_arg : Type :=
  | expcovers_None
  | expcovers_dict (d : gmap nat pyvalue)
  | expcovers_other.

(** The argument [c]: absent, an [Expression], or something else. *)
Inductive c_arg : Type :=
  | c_None
  | c_Expression (c : Expression)
  | c_other.

Definition c_opt (c : c_arg) : option Expression :=
  match c with c_Expression e => Some e | _ => None end.

(** The argument [c] when it is [None] or an [Expression]. *)
Definition c_arg_of (c : option Expression) : c_arg :=
  match c with Some e => c_Expression e | None => c_None end.

(** State of the verification loop: the store and the warnings issued so
    far (the index each one is about). *)
Definition verify_step (d : gmap nat pyvalue)
    (acc : gmap nat (list bool) * list nat) (i : nat)
  : result (gmap nat (list bool) * list nat) :=
  match d !! i with
  | None => Raise RuntimeError
  | Some (ndarray_bool l) =>
      self_cover ← getitem (deref acc.1 l) i;
      if (self_cover : bool)
      then Ok (<[l:=<[i:=false]> (deref acc.1 l)]> acc.1, acc.2 ++ [i])
      else Ok acc
  | Some (ndarray_bool_2d rows _) =>
      (* [expcovers[i][i]] is row [i], which has no truth value *)
      if decide (i < rows)%nat then Raise ValueError else Raise IndexError
  | Some _ => Raise RuntimeError
  end.

Definition _verify_exp_covers (U_I : list nat) (d : gmap nat pyvalue)
    (st : gmap nat (list bool)) : result (gmap nat (list bool) * list nat) :=
  for_each (verify_step d) U_I (st, []).

(** The masks the dictionary holds, read through the store. *)
Definition masks_of (d : gmap nat pyvalue) (st : gmap nat (list bool))
  : gmap nat (list bool) :=
  omap (λ v, match v with ndarray_bool l => Some (deref st l) | _ => None end) d.

Record ExpCoverHelper : Type := {
  ech_alpha : matrix;
  ech_A : matrix;
  ech_b : list Q;
  ech_K : list Cone;
  ech_m : nat;
  ech_c : option Expression;
  U_I : list nat;
  N_I : list nat;
  P_I : list nat;
  expcovers : gmap nat (list bool)
}.

(** What a construction leaves behind: the helper, the caller's store and
    the warnings. *)
Record constructed : Type := {
  helper : ExpCoverHelper;
  store_after : gmap nat (list bool);
  warnings : list nat
}.

(** [ExpCoverHelper.__init__]. *)
Definition ExpCoverHelper_init `{Collaborators} (alpha : matrix) (c : c_arg)
    (A : matrix) (b : list Q) (K : list Cone) (expcovers : expcovers_arg)
    (st : gmap nat (list bool)) : result constructed :=
  match c with
  | c_other => Raise RuntimeError
  | _ =>
      let m := length alpha in
      let cls := classify m (c_opt c) in
      let mk ec :=
        {| ech_alpha := alpha; ech_A := A; ech_b := b; ech_K := K; ech_m := m;
           ech_c := c_opt c; U_I := cls_U_I cls; N_I := cls_N_I cls;
           P_I := cls_P_I cls; expcovers := ec |} in
      match expcovers with
      | expcovers_dict d =>
          r ← _verify_exp_covers (cls_U_I cls) d st;
          Ok {| helper := mk (masks_of d r.1); store_after := r.1; warnings := r.2 |}
      | expcovers_None =>
          ec ← _default_exp_covers alpha A b K m (cls_U_I cls) (cls_N_I cls);
          Ok {| helper := mk ec; store_after := st; warnings := [] |}
      | expcovers_other => Raise RuntimeError
      end
  end.

(** ** Shapes and numpy arithmetic used by the compilers *)

(** [M.shape[1]]. A two-dimensional array is held as the list of its rows,
    all of one length; the empty list is the array of shape [(0, 0)], and
    an array of shape [(0, k)] with [k > 0] has no representation: the
    statements that depend on a width are about arrays that have a row. *)
Definition width (M : matrix) : nat :=
  match M with row :: _ => length row | [] => 0%nat end.

(** [np.hstack((alpha, np.zeros((m, extra))))]. *)
Definition pad_columns (alpha : matrix) (extra : nat) : matrix :=
  map (λ row, row ++ replicate extra 0) alpha.

(** IEEE comparison [a <= b]. *)
Definition xleb (a b : xreal) : bool := xltb a b || xeqb a b.

(** [np.linalg.norm(v, ord)] on floats. *)
Definition xnorm (v : list xreal) (ord : norm_ord) : result xreal :=
  match ord with
  | ord_1 => Ok (np_sum (xabs <$> v))
  | ord_inf => np_max (xabs <$> v)
  end.

(** [v[v < 0] = 0] and [v[v >= 0] = 0]. *)
Definition clip_negative (v : list Q) : list Q :=
  (λ x, if Qlt_bool x 0 then 0 else x) <$> v.
Definition clip_nonnegative (v : list xreal) : list xreal :=
  (λ x, if xleb (Fin 0) x then Fin 0 else x) <$> v.

(** Python's [sum(vs)] on arrays starts from the integer [0]: with no array
    at all it is the scalar [0], which [c - 0] broadcasts. *)
Definition c_minus_sum (c : list Q) (vs : list (list Q)) : list Q :=
  match vs with
  | [] => c
  | v :: vs' => vec_sub c (foldl vec_add v vs')
  end.

(** A Python dictionary whose order of insertion is read back later. *)
Fixpoint odict_set {V} (d : list (nat * V)) (k : nat) (v : V) : list (nat * V) :=
  match d with
  | [] => [(k, v)]
  | (k', v') :: d' =>
      if decide (k' = k) then (k, v) :: d' else (k', v') :: odict_set d' k v
  end.

Fixpoint odict_get {V} (d : list (nat * V)) (k : nat) : result V :=
  match d with
  | [] => Raise KeyError
  | (k', v') :: d' => if decide (k' = k) then Ok v' else odict_get d' k
  end.

Definition odict_values {V} (d : list (nat * V)) : list V := snd <$> d.

(** ** The primal compiler *)

Record PrimalCondSageCone : Type := {
  m : nat;
  n : nat;
  lifted_n : nat;
  lifted_alpha : matrix;
  A : matrix;
  b : list Q;
  c : Expression;
  K : list Cone;
  ech : ExpCoverHelper;
  nu_vars : gmap nat Expression;
  c_vars : gmap nat Expression;
  relent_epi_vars : gmap nat Expression;
  age_vectors : list (nat * Expression);
  lambda_vars : gmap nat Expression
}.

Definition set_age_vectors (self : PrimalCondSageCone)
    (av : list (nat * Expression)) : PrimalCondSageCone :=
  {| m := m self; n := n self; lifted_n := lifted_n self;
     lifted_alpha := lifted_alpha self; A := A self; b := b self; c := c self;
     K := K self; ech := ech self; nu_vars := nu_vars self;
     c_vars := c_vars self; relent_epi_vars := relent_epi_vars self;
     age_vectors := av; lambda_vars := lambda_vars self |}.

(** The variables of one term, as [_initialize_variables] declares them. *)
Record term_vars : Type := {
  tv_nu : gmap nat Expression;
  tv_c : gmap nat Expression;
  tv_epi : gmap nat Expression;
  tv_lambda : gmap nat Expression
}.

Definition declare_term (h : ExpCoverHelper) (d : nat) (tv : term_vars) (i : nat)
  : result term_vars :=
  cov ← dict_get (expcovers h) i;
  let nu_len := count_nonzero cov in
  let c_len := if decide (i ∈ N_I h) then nu_len else (nu_len + 1)%nat in
  Ok {| tv_nu := if decide (0 < nu_len)%nat
                 then <[i:=mk_Variable (nu_var i) nu_len]> (tv_nu tv)
                 else tv_nu tv;
        tv_epi := if decide (0 < nu_len)%nat
                  then <[i:=mk_Variable (relent_epi_var i) nu_len]> (tv_epi tv)
                  else tv_epi tv;
        tv_c := <[i:=mk_Variable (c_var i) c_len]> (tv_c tv);
        tv_lambda := <[i:=mk_Variable (lambda_var i) d]> (tv_lambda tv) |}.

(** [PrimalCondSageCone._initialize_variables]; [d] is [A.shape[0]]. *)
Definition _initialize_variables (m : nat) (h : ExpCoverHelper) (d : nat)
  : result term_vars :=
  let tv0 := {| tv_nu := ∅; tv_c := ∅; tv_epi := ∅; tv_lambda := ∅ |} in
  if decide (1 < m)%nat then for_each (declare_term h d) (U_I h) tv0 else Ok tv0.

(** What [PrimalCondSageCone.__init__] leaves behind. *)
Record primal_constructed : Type := {
  primal : PrimalCondSageCone;
  primal_store : gmap nat (list bool);
  primal_warnings : list nat
}.

(** [PrimalCondSageCone.__init__]; [c] is already the array of scalar
    expressions that [Expression(c)] makes of it. *)
Definition PrimalCondSageCone_init `{Collaborators} (c : Expression)
    (alpha A : matrix) (b : list Q) (K : list Cone) (expcovers : expcovers_arg)
    (st : gmap nat (list bool)) : result primal_constructed :=
  let m := length alpha in
  let n := width alpha in
  let lifted_n := width A in
  let alpha := if decide (n < lifted_n)%nat
               then pad_columns alpha (lifted_n - n) else alpha in
  K ← check_cones K;
  built ← ExpCoverHelper_init alpha (c_Expression c) A b K expcovers st;
  tv ← _initialize_variables m (helper built) (length A);
  Ok {| primal :=
          {| m := m; n := n; lifted_n := lifted_n; lifted_alpha := alpha;
             A := A; b := b; c := c; K := K; ech := helper built;
             nu_vars := tv_nu tv; c_vars := tv_c tv;
             relent_epi_vars := tv_epi tv; age_vectors := [];
             lambda_vars := tv_lambda tv |};
        primal_store := store_after built;
        primal_warnings := warnings built |}.

(** [a[:-1]] and [a[-1]]. *)
Definition all_but_last {X} (a : list X) : list X := take (length a - 1) a.
Definition last_item {X} (a : list X) : result X :=
  match last a with Some x => Ok x | None => Raise IndexError end.

(** The loop body of [_build_aligned_age_vectors]. *)
Definition aligned_age_vector (self : PrimalCondSageCone) (i : nat)
  : result Expression :=
  let ci_expr := zeros_expr (m self) in
  cov ← dict_get (expcovers (ech self)) i;
  c_var_i ← dict_get (c_vars self) i;
  if decide (i ∈ N_I (ech self)) then
    ci_expr ← setmask ci_expr cov c_var_i;
    c_i ← getitem (c self) i;
    setitem ci_expr i c_i
  else
    ci_expr ← setmask ci_expr cov (all_but_last c_var_i);
    last_c ← last_item c_var_i;
    setitem ci_expr i last_c.

Definition _build_aligned_age_vectors (self : PrimalCondSageCone)
  : result PrimalCondSageCone :=
  av ← for_each (λ av i, ci_expr ← aligned_age_vector self i;
                          Ok (odict_set av i ci_expr))
                (U_I (ech self)) (age_vectors self);
  Ok (set_age_vectors self av).

(** The call that produced the sparse triple of a block. The compiled
    operators and [conic_form] of the constraint classes are collaborators;
    a block records which one was called and on what. *)
Inductive compiled : Type :=
  | sum_relent (x y_over_e : Expression) (z : ScalarExpression) (epi : Expression)
  | constraint_le (lhs rhs : ScalarExpression)
  | constraint_ge_0 (e : Expression)
  | mat_times_vecvar_plus_mat_times_vecvar
      (mat1_T : matrix) (var1 : Expression) (mat2_T : matrix) (var2 : Expression)
  | mat_times_vecvar (mat1_T : matrix) (var1 : Expression)
  | DualProductCone_conic_form (lam : Expression) (K : list Cone)
  | columns_sum_to_vec (mat : list Expression) (vec : Expression).

(** A block: the call, and the offset vector and cone list where this
    module builds them itself ([None] where the callee returns them). *)
Record cone_data : Type := {
  call : compiled;
  offsets : option (list Q);
  cones : option (list Cone)
}.

Definition neg_matrix (M : matrix) : matrix := map (map Qopp) M.

(** [_age_rel_ent_cone_data]. *)
Definition _age_rel_ent_cone_data (self : PrimalCondSageCone) (i : nat)
  : result cone_data :=
  idx_set ← dict_get (expcovers (ech self)) i;
  if np_any idx_set then
    x ← dict_get (nu_vars self) i;
    age_i ← odict_get (age_vectors self) i;
    y ← getmask age_i idx_set;
    age_ii ← getitem age_i i;
    lambda_i ← dict_get (lambda_vars self) i;
    lambda_b ← expr_matmul lambda_i (b self);
    let z := expr_add (expr_neg age_ii) lambda_b in
    epi ← dict_get (relent_epi_vars self) i;
    Ok {| call := sum_relent x y z epi; offsets := None; cones := None |}
  else
    lambda_i ← dict_get (lambda_vars self) i;
    lambda_b ← expr_matmul lambda_i (b self);
    age_i ← odict_get (age_vectors self) i;
    age_ii ← getitem age_i i;
    Ok {| call := constraint_le lambda_b age_ii;
          offsets := None; cones := None |}.

(** [_age_lin_eq_cone_data]; the matrices are kept before transposition. *)
Definition _age_lin_eq_cone_data (self : PrimalCondSageCone) (i : nat)
  : result cone_data :=
  idx_set ← dict_get (expcovers (ech self)) i;
  if np_any idx_set then
    mat1 ← cover_matrix (lifted_alpha self) idx_set i;
    let mat2 := neg_matrix (A self) in
    var1 ← dict_get (nu_vars self) i;
    lambda_i ← dict_get (lambda_vars self) i;
    let num_rows := (width (lifted_alpha self) + width (A self))%nat in
    Ok {| call := mat_times_vecvar_plus_mat_times_vecvar mat1 var1 mat2 lambda_i;
          offsets := Some (replicate num_rows 0);
          cones := Some [{| type := cone_0; len := num_rows |}] |}
  else
    let mat1 := neg_matrix (A self) in
    lambda_i ← dict_get (lambda_vars self) i;
    let num_rows := width (A self) in
    Ok {| call := mat_times_vecvar mat1 lambda_i;
          offsets := Some (replicate num_rows 0);
          cones := Some [{| type := cone_0; len := num_rows |}] |}.

(** [_age_lambda_var_domain_constraints]. *)
Definition _age_lambda_var_domain_constraints `{Collaborators}
    (self : PrimalCondSageCone) (i : nat) : result cone_data :=
  lambda_i ← dict_get (lambda_vars self) i;
  match DualProductCone_conic_form_raises lambda_i (K self) with
  | Some e => Raise e
  | None => Ok {| call := DualProductCone_conic_form lambda_i (K self);
                  offsets := None; cones := None |}
  end.

(** [aff.vstack(cols).T]: row [j] holds entry [j] of every column; numpy
    refuses to stack an empty sequence. *)
Definition vstack_T (cols : list Expression) : result (list Expression) :=
  match cols with
  | [] => Raise ValueError
  | col :: _ => Ok ((λ j, omap (λ col, col !! j) cols) <$> seq 0 (length col))
  end.

(** [_age_vectors_sum_to_c]. *)
Definition _age_vectors_sum_to_c (self : PrimalCondSageCone) : result cone_data :=
  nonconst_locs ← setitems (np_ones (m self)) (N_I (ech self)) false;
  aux_c_vars ← vstack_T (odict_values (age_vectors self));
  aux_c_vars ← getmask aux_c_vars nonconst_locs;
  main_c_var ← getmask (c self) nonconst_locs;
  Ok {| call := columns_sum_to_vec aux_c_vars main_c_var;
        offsets := None;
        cones := Some [{| type := cone_0; len := length main_c_var |}] |}.

(** [PrimalCondSageCone.conic_form]: the blocks, and the object with its
    age vectors rebuilt. *)
Definition conic_form `{Collaborators} (self : PrimalCondSageCone)
  : result (PrimalCondSageCone * list cone_data) :=
  if decide (1 < m self)%nat then
    self ← _build_aligned_age_vectors self;
    cone_data ← for_each (λ cone_data i,
        d1 ← _age_rel_ent_cone_data self i;
        d2 ← _age_lin_eq_cone_data self i;
        d3 ← _age_lambda_var_domain_constraints self i;
        Ok (cone_data ++ [d1; d2; d3]))
      (U_I (ech self)) [];
    d ← _age_vectors_sum_to_c self;
    Ok (self, cone_data ++ [d])
  else
    Ok (self, [{| call := constraint_ge_0 (c self);
                  offsets := None; cones := None |}]).

(** [PrimalCondSageCone.project]. *)
Definition PrimalCondSageCone_project `{Collaborators} (item : list Q)
    (alpha A : matrix) (b : list Q) (K : list Cone) : xreal :=
  if forallb (Qle_bool 0) item then Fin 0
  else solve_projection item alpha A b K.

(** [float(a)] for an array: only an array of size one converts. *)
Definition float_of {X} (a : list X) : result X :=
  match a with [x] => Ok x | _ => Raise TypeError end.

(** [PrimalCondSageCone._age_violation]; [env] holds the values of the
    variables. *)
Definition _age_violation `{Collaborators} (self : PrimalCondSageCone)
    (env : Atom → Q) (i : nat) (norm_ord : norm_ord) (c_i lambda_i : list Q)
  : result xreal :=
  let lambda_viol := DualProductCone_project lambda_i (K self) in
  idx_set ← dict_get (expcovers (ech self)) i;
  if np_any idx_set then
    nu_i ← dict_get (nu_vars self) i;
    let x_i := clip_negative (values_of env nu_i) in
    y_over_e ← getmask c_i idx_set;
    c_ii ← getitem c_i i;
    let relent_res :=
      xadd (xadd (np_sum (zip_with rel_entr_e x_i y_over_e)) (Fin (- c_ii)))
           (Fin (dot (b self) lambda_i)) in
    let relent_viol := xabs (py_max2 relent_res (Fin 0)) in
    mat ← cover_matrix (lifted_alpha self) idx_set i;
    let eq_res :=
      vec_sub (matT_vec (width (lifted_alpha self)) mat x_i)
              (matT_vec (width (A self)) (A self) lambda_i) in
    eq_viol ← xnorm (Fin <$> eq_res) norm_ord;
    Ok (xadd (xadd relent_viol eq_viol) lambda_viol)
  else
    c_var_i ← dict_get (c_vars self) i;
    c_i ← float_of (values_of env c_var_i);
    let residual := c_i - dot (b self) lambda_i in
    let relent_viol := xabs (py_min2 (Fin 0) (Fin residual)) in
    Ok (xadd relent_viol lambda_viol).

(** The arrays a call of [violation] allocates, by location; [reshape] of a
    contiguous array is a view on the same location. *)
Definition c_loc : nat := 0%nat.
Definition reshape_view (l : nat) : nat := l.

(** [PrimalCondSageCone.violation]. *)
Definition violation `{Collaborators} (self : PrimalCondSageCone)
    (env : Atom → Q) (norm_ord : norm_ord) (rough : bool) : result xreal :=
  let c := values_of env (c self) in
  if decide (1 < m self)%nat then
    if negb rough then
      Ok (PrimalCondSageCone_project c (lifted_alpha self) (A self) (b self) (K self))
    else
      let age_vectors := (λ kv, (kv.1, values_of env kv.2)) <$> age_vectors self in
      let lambda_vectors := values_of env <$> lambda_vars self in
      let residual := clip_negative (c_minus_sum c (odict_values age_vectors)) in
      sum_to_c_viol ← xnorm (Fin <$> residual) norm_ord;
      age_viols ← collect (λ i,
          c_i ← odict_get age_vectors i;
          lambda_i ← dict_get lambda_vectors i;
          _age_violation self env i norm_ord c_i lambda_i) (U_I (ech self));
      if existsb (λ a, xeqb a PInf) age_viols then
        let total_viol :=
          xadd sum_to_c_viol
               (np_sum (List.filter (λ a, xltb a PInf) age_viols)) in
        Ok (xadd total_viol
              (PrimalCondSageCone_project c (lifted_alpha self) (A self)
                 (b self) (K self)))
      else
        max_viol ← np_max age_viols;
        Ok (xadd sum_to_c_viol max_viol)
  else
    let heap : gmap nat (list xreal) := {[ c_loc := Fin <$> c ]} in
    let residual := reshape_view c_loc in
    let heap := <[residual := clip_nonnegative (heap !!! residual)]> heap in
    xnorm (heap !!! c_loc) norm_ord.

(** ** The dual compiler *)

Record DualCondSageCone : Type := {
  dual_A : matrix;
  dual_b : list Q;
  dual_K : list Cone;
  dual_n : nat;
  dual_m : nat;
  dual_lifted_n : nat;
  dual_lifted_alpha : matrix;
  v : Expression;
  dual_c : option Expression;
  dual_ech : ExpCoverHelper;
  lifted_mu_vars : gmap nat Expression;
  mu_vars : gmap nat Expression;
  dual_relent_epi_vars : gmap nat Expression
}.

Record dual_vars : Type := {
  dv_lifted_mu : gmap nat Expression;
  dv_mu : gmap nat Expression;
  dv_epi : gmap nat Expression
}.

Definition dual_declare_term (h : ExpCoverHelper) (n lifted_n : nat)
    (dv : dual_vars) (i : nat) : result dual_vars :=
  let lifted_mu := mk_Variable (mu_var i) lifted_n in
  cov ← dict_get (expcovers h) i;
  let num_cover := count_nonzero cov in
  Ok {| dv_lifted_mu := <[i:=lifted_mu]> (dv_lifted_mu dv);
        dv_mu := <[i:=take n lifted_mu]> (dv_mu dv);
        dv_epi := if decide (0 < num_cover)%nat
                  then <[i:=mk_Variable (relent_epi_var i) num_cover]> (dv_epi dv)
                  else dv_epi dv |}.

(** [DualCondSageCone._initialize_variables]. *)
Definition dual_initialize_variables (m : nat) (h : ExpCoverHelper)
    (n lifted_n : nat) : result dual_vars :=
  let dv0 := {| dv_lifted_mu := ∅; dv_mu := ∅; dv_epi := ∅ |} in
  if decide (1 < m)%nat then for_each (dual_declare_term h n lifted_n) (U_I h) dv0
  else Ok dv0.

Record dual_constructed : Type := {
  dual : DualCondSageCone;
  dual_store : gmap nat (list bool);
  dual_warnings : list nat
}.

(** [DualCondSageCone.__init__]; [c] is [None] or what [Expression(c)]
    makes of it. *)
Definition DualCondSageCone_init `{Collaborators} (v : Expression)
    (alpha A : matrix) (b : list Q) (K : list Cone) (c : option Expression)
    (expcovers : expcovers_arg) (st : gmap nat (list bool))
  : result dual_constructed :=
  K ← check_cones K;
  let n := width alpha in
  let m := length alpha in
  let lifted_n := width A in
  let alpha := if decide (n < lifted_n)%nat
               then pad_columns alpha (lifted_n - n) else alpha in
  built ← ExpCoverHelper_init alpha (c_arg_of c) A b K expcovers st;
  dv ← dual_initialize_variables m (helper built) n lifted_n;
  Ok {| dual :=
          {| dual_A := A; dual_b := b; dual_K := K; dual_n := n; dual_m := m;
             dual_lifted_n := lifted_n; dual_lifted_alpha := alpha; v := v;
             dual_c := c; dual_ech := helper built;
             lifted_mu_vars := dv_lifted_mu dv; mu_vars := dv_mu dv;
             dual_relent_epi_vars := dv_epi dv |};
        dual_store := store_after built;
        dual_warnings := warnings built |}.

(** The clipped lower-bound residual of term [i]:
    [residual = mat @ mu_i - lowerbounds; residual[residual >= 0] = 0]. *)
Definition relent_residual `{Collaborators} (mat : matrix) (mu_i : list Q)
    (v_i : Q) (v_sel : list Q) : list xreal :=
  let lowerbounds := rel_entr v_i <$> v_sel in
  clip_nonnegative
    (zip_with (λ x lb, xadd (Fin x) (xneg lb)) (mat_vec mat mu_i) lowerbounds).

(** [A @ mu_i + v[i] * b]. *)
Definition AbK_val (A : matrix) (b : list Q) (mu_i : list Q) (v_i : Q) : list Q :=
  vec_add (mat_vec A mu_i) (Qmult v_i <$> b).

(** [DualCondSageCone._dual_age_cone_violation]; [v] holds the value of
    [self.v]. *)
Definition _dual_age_cone_violation `{Collaborators} (self : DualCondSageCone)
    (env : Atom → Q) (i : nat) (norm_ord : norm_ord) (rough : bool) (v : list Q)
  : result xreal :=
  selector ← dict_get (expcovers (dual_ech self)) i;
  let len_sel := count_nonzero selector in
  if decide (0 < len_sel)%nat then
    v_i ← getitem v i;
    v_sel ← getmask v selector;
    let lowerbounds := rel_entr v_i <$> v_sel in
    diff ← cover_matrix (dual_lifted_alpha self) selector i;
    let mat := neg_matrix diff in
    lifted_mu_i ← dict_get (lifted_mu_vars self) i;
    let mu_i := values_of env lifted_mu_i in
    relent_viol ← xnorm (relent_residual mat mu_i v_i v_sel) norm_ord;
    let AbK_viol :=
      PrimalProductCone_project (AbK_val (dual_A self) (dual_b self) mu_i v_i)
                                (dual_K self) in
    let curr_viol := xadd relent_viol AbK_viol in
    if xltb (Fin 0) curr_viol && negb rough then
      let sv := solve_feasibility mat lowerbounds (dual_A self)
                                  (Qmult v_i <$> dual_b self) (dual_K self) in
      if status_eqb sv.1 solved && xltb (xabs sv.2) (Fin (1 # 10000000))
      then Ok (Fin 0) else Ok curr_viol
    else Ok curr_viol
  else Ok (Fin 0).

(** [DualCondSageCone.violation]. *)
Definition dual_violation `{Collaborators} (self : DualCondSageCone)
    (env : Atom → Q) (norm_ord : norm_ord) (rough : bool) : result xreal :=
  let v := values_of env (v self) in
  viols ← collect (λ i, _dual_age_cone_violation self env i norm_ord rough v)
                  (U_I (dual_ech self));
  py_max viols.

(** ** What the specification says of the sign classes, in its own words *)

(** Three pairwise-disjoint groups whose union is all [m] indices. *)
Definition three_disjoint_groups (m : nat) (U N P : list nat) : Prop :=
  (∀ i, (i < m)%nat → i ∈ U ∨ i ∈ N ∨ i ∈ P) ∧
  (∀ i, ¬ (i ∈ U ∧ i ∈ N)) ∧
  (∀ i, ¬ (i ∈ U ∧ i ∈ P)) ∧
  (∀ i, ¬ (i ∈ N ∧ i ∈ P)).

(** ** Vocabulary of the statements about the exponent matrix *)






(** Row [j] of the matrix exists and is orthogonal to [row]. *)
Definition orthogonal_to (alpha : matrix) (row : list Q) (j : nat) : Prop :=
  ∃ row_j, alpha !! j = Some row_j ∧ dot row row_j == 0.

(** Every must-certify index has a cover, a mask as long as the matrix. *)
Definition covers_fit (alpha : matrix) (U_I : list nat)
    (expcovers : gmap nat (list bool)) : Prop :=
  ∀ i, i ∈ U_I →
       (i < length alpha)%nat ∧
       ∃ cov, expcovers !! i = Some cov ∧ length cov = length alpha.

(** The matrix [alpha_cover - alpha_i] of the auxiliary problem, entry by
    entry: its [k]-th row belongs to the [k]-th index [j] of the cover, in
    increasing order, and holds [alpha[j][t] - alpha[i][t]] in column [t]. *)
Definition is_cover_difference (alpha : matrix) (cov : list bool) (i : nat)
    (mat : matrix) : Prop :=
  length mat = count_nonzero cov ∧
  ∀ k j, indices_where id cov !! k = Some j →
    ∃ r, mat !! k = Some r ∧
      ∀ t, r !! t = match alpha !! j ≫= (.!! t), alpha !! i ≫= (.!! t) with
                    | Some x, Some y => Some (x - y)
                    | _, _ => None
                    end.

(** ** Vocabulary of the statements about a supplied cover map *)

(** The entry [expcovers[i][i]] as the caller supplied it. *)
Definition self_covering (d : gmap nat pyvalue) (st : gmap nat (list bool))
    (i : nat) : bool :=
  match d !! i with
  | Some (ndarray_bool l) => default false (deref st l !! i)
  | _ => false
  end.






(** ** Vocabulary of the statements about the emitted blocks *)




(** ** Vocabulary of the statements about violations *)

(** The negative part of a vector: its entries that are not [>= 0], and
    [0] elsewhere. *)
Definition negative_part (v : list Q) : list Q :=
  (λ x, if Qle_bool 0 x then 0 else x) <$> v.

(** The per-term dual violation in the words of the specification: the
    clipped lower-bound residual, in norm, plus the membership violation of
    [A mu_i + v_i b], for every must-certify term. *)
Definition claimed_dual_term_violation `{Collaborators} (self : DualCondSageCone)
    (env : Atom → Q) (i : nat) (norm_ord : norm_ord) (v : list Q)
  : result xreal :=
  selector ← dict_get (expcovers (dual_ech self)) i;
  v_i ← getitem v i;
  v_sel ← getmask v selector;
  diff ← cover_matrix (dual_lifted_alpha self) selector i;
  lifted_mu_i ← dict_get (lifted_mu_vars self) i;
  let mu_i := values_of env lifted_mu_i in
  relent_viol ← xnorm (relent_residual (neg_matrix diff) mu_i v_i v_sel) norm_ord;
  Ok (xadd relent_viol
        (PrimalProductCone_project (AbK_val (dual_A self) (dual_b self) mu_i v_i)
                                   (dual_K self))).






(** The lower-bound residual clipped to the violating side, entry by
    entry: entry [k] belongs to the [k]-th index [j] of the cover; its gap
    is [-(alpha[j] - alpha[i]) . mu - rel_entr(v[i], v[j])], kept when it
    is not at least zero and replaced by zero otherwise. *)
Definition is_clipped_residual `{Collaborators} (alpha : matrix)
    (cov : list bool) (i : nat) (mu v : list Q) (res : list xreal) : Prop :=
  length res = count_nonzero cov ∧
  ∀ k j, indices_where id cov !! k = Some j →
    ∃ row_i row_j v_i v_j,
      alpha !! i = Some row_i ∧ alpha !! j = Some row_j ∧
      v !! i = Some v_i ∧ v !! j = Some v_j ∧
      let gap := xadd (Fin (dot (Qopp <$> vec_sub row_j row_i) mu))
                      (xneg (rel_entr v_i v_j)) in
      res !! k = Some (if xleb (Fin 0) gap then Fin 0 else gap).

(** The point [A mu + v_i b], entry by entry. *)
Definition is_AbK_point (A : matrix) (b mu : list Q) (v_i : Q) (pt : list Q)
  : Prop :=
  length pt = length A ∧
  ∀ r row b_r, A !! r = Some row → b !! r = Some b_r →
    pt !! r = Some (dot row mu + v_i * b_r).

(** The arrays of a dual cone have the shapes its constructor gives them:
    the cover of [i], the value of [v] and the exponent matrix agree on the
    number of terms, [b] has one entry per row of [A], and the rows of the
    exponent matrix and of [A] are as long as [mu]. *)
Definition dual_shapes_fit (self : DualCondSageCone) (i : nat)
    (selector : list bool) (mu v : list Q) : Prop :=
  length selector = length v ∧
  length selector = length (dual_lifted_alpha self) ∧
  (i < length selector)%nat ∧
  length (dual_b self) = length (dual_A self) ∧
  (∀ row, row ∈ dual_lifted_alpha self → length row = length mu) ∧
  (∀ row, row ∈ dual_A self → length row = length mu).

(** ** Concrete instances on which the statements are exercised *)

(** The distance of a point to the nonnegative orthant, in the 1-norm:
    what the two product-cone projections return here, the cone of the
    examples being an orthant. *)
Definition orthant_distance (item : list Q) (K : list Cone) : xreal :=
  Fin (Qsum ((λ x, if Qlt_bool x 0 then - x else 0) <$> item)).

(** [rel_entr] where it is rational: [0] at [x = 0] and at [x = y], [inf]
    when [y <= 0 < x]; the examples stay on these points. *)
Definition rel_entr_on_grid (x y : Q) : xreal :=
  if Qeq_bool x 0 then Fin 0
  else if Qle_bool y 0 then PInf
  else Fin 0.

(** Collaborators whose solver fails on every problem. *)
Definition failing_solver : Collaborators :=
  {| solve_reduction := λ _ _ _ _, (failed, NaN);
     solve_projection := λ _ _ _ _ _, NaN;
     solve_feasibility := λ _ _ _ _ _, (failed, NaN);
     DualProductCone_project := orthant_distance;
     PrimalProductCone_project := orthant_distance;
     rel_entr := rel_entr_on_grid;
     rel_entr_e := rel_entr_on_grid;
     DualProductCone_conic_form_raises := λ _ _, None |}.

(** Collaborators for which every reduction problem is unbounded below. *)
Definition unbounded_solver : Collaborators :=
  {| solve_reduction := λ _ _ _ _, (solved, NInf);
     solve_projection := λ _ _ _ _ _, NaN;
     solve_feasibility := λ _ _ _ _ _, (failed, NaN);
     DualProductCone_project := orthant_distance;
     PrimalProductCone_project := orthant_distance;
     rel_entr := rel_entr_on_grid;
     rel_entr_e := rel_entr_on_grid;
     DualProductCone_conic_form_raises := λ _ _, None |}.

(** Three terms in two variables: the constant term and the two monomials
    [exp(x1)] and [exp(x2)], whose exponent rows are orthogonal. *)
Definition alpha3 : matrix := [[0; 0]; [1; 0]; [0; 1]].

(** Four terms: as [alpha3], with the constant term repeated. *)
Definition alpha4 : matrix := [[0; 0]; [1; 0]; [0; 0]; [0; 1]].

(** A coefficient vector of [len] unknowns. *)
Definition free_c (len : nat) : Expression := mk_Variable (user_var 0) len.

(** The background set [x >= 0] in two variables. *)
Definition A2 : matrix := [[1; 0]; [0; 1]].
Definition b2 : list Q := [0; 0].
Definition K2 : list Cone := [{| type := cone_pos; len := 2 |}].

(** The objects before any constructor has run, to read a construction
    back from its result. *)
Definition blank_helper : ExpCoverHelper :=
  {| ech_alpha := []; ech_A := []; ech_b := []; ech_K := []; ech_m := 0;
     ech_c := None; U_I := []; N_I := []; P_I := []; expcovers := ∅ |}.

Definition blank_primal : PrimalCondSageCone :=
  {| m := 0; n := 0; lifted_n := 0; lifted_alpha := []; A := []; b := [];
     c := []; K := []; ech := blank_helper; nu_vars := ∅; c_vars := ∅;
     relent_epi_vars := ∅; age_vectors := []; lambda_vars := ∅ |}.

Definition blank_dual : DualCondSageCone :=
  {| dual_A := []; dual_b := []; dual_K := []; dual_n := 0; dual_m := 0;
     dual_lifted_n := 0; dual_lifted_alpha := []; v := []; dual_c := None;
     dual_ech := blank_helper; lifted_mu_vars := ∅; mu_vars := ∅;
     dual_relent_epi_vars := ∅ |}.

Definition constructed_primal (r : result primal_constructed)
  : PrimalCondSageCone :=
  match r with Ok built => primal built | Raise _ => blank_primal end.

Definition constructed_dual (r : result dual_constructed) : DualCondSageCone :=
  match r with Ok built => dual built | Raise _ => blank_dual end.

(** The object after a call of [conic_form]. *)
Definition after_conic_form `{Collaborators} (self : PrimalCondSageCone)
  : PrimalCondSageCone :=
  match conic_form self with Ok r => r.1 | Raise _ => self end.

(** A primal cone with the single constant coefficient [-1]. *)
Definition single_term_primal : PrimalCondSageCone :=
  constructed_primal
    (@PrimalCondSageCone_init failing_solver [const_expr (-1)] [[0; 0]] A2 b2 K2
       expcovers_None ∅).

(** The primal cone of three unknown coefficients over [alpha3], once
    [conic_form] has been called. *)
Definition three_term_primal : PrimalCondSageCone :=
  @after_conic_form failing_solver
    (constructed_primal
       (@PrimalCondSageCone_init failing_solver (free_c 3) alpha3 A2 b2 K2
          expcovers_None ∅)).

(** A dual cone over the terms [1] and [exp(x1)] whose companion
    coefficients are the constant [-1] and an unknown: the cover of term [1]
    is empty, term [0] being definite-negative. *)
Definition two_term_dual : DualCondSageCone :=
  constructed_dual
    (@DualCondSageCone_init failing_solver (free_c 2) [[0; 0]; [1; 0]] A2 b2 K2
       (Some [const_expr (-1); atom_expr (user_var 1 0)]) expcovers_None ∅).

(** Values: every [mu] is [-1], the caller's variable [0] is [1], the rest
    is [0]. *)
Definition env_example (a : Atom) : Q :=
  match a with
  | mu_var _ _ => -1
  | user_var 0 _ => 1
  | _ => 0
  end.

Definition constructed_helper (r : result constructed) : constructed :=
  match r with
  | Ok built => built
  | Raise _ => {| helper := blank_helper; store_after := ∅; warnings := [] |}
  end.

(** The construction of the primal cone of three unknown coefficients. *)
Definition three_term_built : primal_constructed :=
  match @PrimalCondSageCone_init failing_solver (free_c 3) alpha3 A2 b2 K2
          expcovers_None ∅ with
  | Ok built => built
  | Raise _ => {| primal := blank_primal; primal_store := ∅; primal_warnings := [] |}
  end.


(** A cover map whose two values are one and the same array, at location
    [7], with both self-covering entries true. *)
Definition aliased_dict : gmap nat pyvalue :=
  {[ 0%nat := ndarray_bool 7; 1%nat := ndarray_bool 7 ]}.
Definition aliased_store : gmap nat (list bool) := {[ 7%nat := [true; true] ]}.

Definition aliased_built : constructed :=
  constructed_helper
    (@ExpCoverHelper_init failing_solver [[0; 0]; [1; 0]] (c_Expression (free_c 2))
       A2 b2 K2 (expcovers_dict aliased_dict) aliased_store).

(** The default covers of [alpha3] and of [alpha4] before any reduction,
    every term being must-certify. *)
Definition covers3 : gmap nat (list bool) :=
  {[ 0%nat := [false; true; true];
     1%nat := [true; false; true];
     2%nat := [true; true; false] ]}.


(** ** Vocabulary of the further statements *)

(** A list of indices in strictly increasing order. *)
Definition increasing (l : list nat) : Prop :=
  ∀ k1 k2 i j, (k1 < k2)%nat → l !! k1 = Some i → l !! k2 = Some j → (i < j)%nat.

(** Every cone of the list is of type ['+'], ['S'], ['e'] or ['0']. *)
Definition all_supported (K : list Cone) : Prop :=
  ∀ co, co ∈ K →
    type co = cone_pos ∨ type co = cone_S ∨ type co = cone_e ∨ type co = cone_0.

(** The covers of [alpha3] after the aggressive reduction. *)
Definition reduced3 : gmap nat (list bool) :=
  {[ 0%nat := [false; true; true];
     1%nat := [true; false; false];
     2%nat := [true; false; false] ]}.

(** The covers of [alpha3] once every nonempty cover has been judged
    trivial. *)
Definition emptied3 : gmap nat (list bool) :=
  {[ 0%nat := [false; false; false];
     1%nat := [false; false; false];
     2%nat := [false; false; false] ]}.

(** The cover helper of three unknown coefficients over [alpha3], built
    with default covers. *)
Definition default3_built : constructed :=
  constructed_helper
    (@ExpCoverHelper_init failing_solver alpha3 (c_Expression (free_c 3))
       A2 b2 K2 expcovers_None ∅).


(** The blocks [conic_form] emits for the primal cone of three unknown
    coefficients. *)
Definition three_term_blocks : list cone_data :=
  match @conic_form failing_solver (primal three_term_built) with
  | Ok r => r.2
  | Raise _ => []
  end.

(** A dual cone whose companion coefficients are the positive constants
    [1] and [2]: no term is must-certify. *)
Definition positive_dual_built : dual_constructed :=
  match @DualCondSageCone_init failing_solver (free_c 2) [[0; 0]; [1; 0]] A2 b2 K2
          (Some [const_expr 1; const_expr 2]) expcovers_None ∅ with
  | Ok built => built
  | Raise _ => {| dual := blank_dual; dual_store := ∅; dual_warnings := [] |}
  end.

(** The construction of [two_term_dual]. *)
Definition two_term_dual_built : dual_constructed :=
  match @DualCondSageCone_init failing_solver (free_c 2) [[0; 0]; [1; 0]] A2 b2 K2
          (Some [const_expr (-1); atom_expr (user_var 1 0)]) expcovers_None ∅ with
  | Ok built => built
  | Raise _ => {| dual := blank_dual; dual_store := ∅; dual_warnings := [] |}
  end.



(** * Proofs *)

(** ** The result monad *)

Lemma bind_Ok {A B} (f : A → result B) (r : result A) (y : B) :
  r ≫= f = Ok y ↔ ∃ x, r = Ok x ∧ f x = Ok y.
Proof.
  destruct r as [x|e]; simpl; split.
  - intros Hf. exists x. split; [reflexivity|exact Hf].
  - intros (x' & Hx & Hf). injection Hx as ->. exact Hf.
  - intros Hf. discriminate Hf.
  - intros (x' & Hx & _). discriminate Hx.
Qed.

Lemma ret_bind {A B} (x : A) (f : A → result B) : Ok x ≫= f = f x.
Proof. reflexivity. Qed.

(** A loop whose body keeps an invariant and cannot raise under it runs to
    its end and keeps the invariant. *)
Lemma for_each_invariant {A S} (Inv : S → Prop) (step : S → A → result S)
    (xs : list A) (acc : S) :
  Inv acc →
  (∀ s x, x ∈ xs → Inv s → ∃ s', step s x = Ok s' ∧ Inv s') →
  ∃ s', for_each step xs acc = Ok s' ∧ Inv s'.
Proof.
  revert acc. induction xs as [|x xs IH]; intros acc Hacc Hstep; simpl.
  - exists acc. split; [reflexivity|exact Hacc].
  - destruct (Hstep acc x) as (s1 & Hs1 & Hinv1); [left|exact Hacc|].
    rewrite Hs1. simpl. apply IH; [exact Hinv1|].
    intros s y Hy. apply Hstep. right. exact Hy.
Qed.

(** A loop over distinct keys whose body touches the entry of its own key
    only: every visited key is related to its initial entry by the body's
    relation, every other key is untouched. *)
Lemma for_each_pointwise {V} (R : nat → option V → option V → Prop)
    (step : gmap nat V → nat → result (gmap nat V))
    (keys : list nat) (d d' : gmap nat V) :
  (∀ d0 i d1, step d0 i = Ok d1 →
     R i (d0 !! i) (d1 !! i) ∧ ∀ j, j ≠ i → d1 !! j = d0 !! j) →
  NoDup keys →
  for_each step keys d = Ok d' →
  (∀ i, i ∈ keys → R i (d !! i) (d' !! i)) ∧ (∀ j, j ∉ keys → d' !! j = d !! j).
Proof.
  intros Hstep. revert d. induction keys as [|k keys IH]; intros d Hnd Hrun.
  - simpl in Hrun. injection Hrun as <-. split; [|reflexivity].
    intros i Hi. inversion Hi.
  - simpl in Hrun. apply bind_Ok in Hrun as (d1 & Hk & Hrest).
    apply NoDup_cons in Hnd as [Hfresh Hnd].
    destruct (Hstep _ _ _ Hk) as [HR Hother].
    destruct (IH d1 Hnd Hrest) as [Hin Hout].
    split.
    + intros i Hi. apply elem_of_cons in Hi as [->|Hi].
      * rewrite (Hout k Hfresh). exact HR.
      * assert (i ≠ k) as Hne by (intros ->; contradiction).
        rewrite <- (Hother i Hne). apply Hin. exact Hi.
    + intros j Hj. apply not_elem_of_cons in Hj as [Hne Hj].
      rewrite (Hout j Hj). apply Hother. exact Hne.
Qed.


(** ** Sign classification *)

Lemma Qlt_bool_iff (x y : Q) : Qlt_bool x y = true ↔ x < y.
Proof.
  unfold Qlt_bool. rewrite negb_true_iff. split.
  - intros Hle. apply Qnot_le_lt. intros Hyx.
    apply Qle_bool_iff in Hyx. congruence.
  - intros Hlt. destruct (Qle_bool y x) eqn:Hle; [|reflexivity].
    apply Qle_bool_iff in Hle. exfalso. exact (Qlt_not_le _ _ Hlt Hle).
Qed.

Lemma elem_of_enumerate_from {A} (l : list A) (s i : nat) (x : A) :
  (i, x) ∈ zip (seq s (length l)) l ↔ (s ≤ i)%nat ∧ l !! (i - s)%nat = Some x.
Proof.
  revert s. induction l as [|y l IH]; intros s; simpl.
  - split; [intros Hin; inversion Hin|intros [_ Hl]; discriminate Hl].
  - rewrite elem_of_cons, IH. split.
    + intros [Heq|[Hle Hl]].
      * injection Heq as -> ->. split; [lia|]. replace (s - s)%nat with 0%nat by lia.
        reflexivity.
      * split; [lia|]. replace (i - s)%nat with (S (i - S s)) by lia. exact Hl.
    + intros [Hle Hl]. destruct (decide (i = s)) as [->|Hne].
      * left. replace (s - s)%nat with 0%nat in Hl by lia. simpl in Hl.
        congruence.
      * right. split; [lia|].
        replace (i - s)%nat with (S (i - S s)) in Hl by lia. exact Hl.
Qed.

Lemma elem_of_indices_where {A} (p : A → bool) (l : list A) (i : nat) :
  i ∈ indices_where p l ↔ ∃ x, l !! i = Some x ∧ p x = true.
Proof.
  unfold indices_where, enumerate. rewrite list_elem_of_fmap. split.
  - intros ([j x] & -> & Hin). simpl.
    apply list_elem_of_In, filter_In in Hin as [Hin Hp].
    apply list_elem_of_In, elem_of_enumerate_from in Hin as [_ Hl].
    exists x. rewrite Nat.sub_0_r in Hl. split; [exact Hl|exact Hp].
  - intros (x & Hl & Hp). exists (i, x). split; [reflexivity|].
    apply list_elem_of_In, filter_In. split; [|exact Hp].
    apply list_elem_of_In, elem_of_enumerate_from. split; [lia|].
    rewrite Nat.sub_0_r. exact Hl.
Qed.

Lemma NoDup_fst_zip_seq {A} (l : list A) (s : nat) :
  NoDup (zip (seq s (length l)) l).*1.
Proof.
  revert s. induction l as [|y l IH]; intros s; simpl; [constructor|].
  constructor; [|apply IH].
  rewrite list_elem_of_fmap. intros ([j x] & Hj & Hin). simpl in Hj. subst j.
  apply elem_of_enumerate_from in Hin as [Hle _]. lia.
Qed.

Lemma NoDup_fst_filter {A} (p : nat * A → bool) (l : list (nat * A)) :
  NoDup l.*1 → NoDup (List.filter p l).*1.
Proof.
  induction l as [|[j x] l IH]; simpl; intros Hnd; [constructor|].
  apply NoDup_cons in Hnd as [Hfresh Hnd].
  destruct (p (j, x)); [|apply IH; exact Hnd].
  simpl. constructor; [|apply IH; exact Hnd].
  intros Hin. apply Hfresh.
  apply list_elem_of_fmap in Hin as ([j' x'] & Hj & Hin). simpl in Hj. subst j'.
  apply list_elem_of_fmap. exists (j, x'). split; [reflexivity|].
  apply list_elem_of_In. apply list_elem_of_In, filter_In in Hin as [Hin _].
  exact Hin.
Qed.

Lemma NoDup_indices_where {A} (p : A → bool) (l : list A) :
  NoDup (indices_where p l).
Proof. apply NoDup_fst_filter, NoDup_fst_zip_seq. Qed.

Lemma indices_where_lt {A} (p : A → bool) (l : list A) (i : nat) :
  i ∈ indices_where p l → (i < length l)%nat.
Proof.
  intros Hin. apply elem_of_indices_where in Hin as (x & Hl & _).
  apply lookup_lt_Some in Hl. exact Hl.
Qed.

(** C2, as the specification states it, fails: with the coefficient vector
    [[-1; 0]] the index [0] is both must-certify and definite-negative, and
    the index [1] (a constant zero) is in none of the three groups. *)
Lemma classify_not_three_disjoint_groups :
  let cls := classify 2 (Some [const_expr (-1); const_expr 0]) in
  ¬ three_disjoint_groups 2 (cls_U_I cls) (cls_N_I cls) (cls_P_I cls) ∧
  (0%nat ∈ cls_U_I cls ∧ 0%nat ∈ cls_N_I cls) ∧
  ((1%nat ∉ cls_U_I cls) ∧ (1%nat ∉ cls_N_I cls) ∧ (1%nat ∉ cls_P_I cls)).
Proof.
  assert (Hcls : classify 2 (Some [const_expr (-1); const_expr 0])
                 = {| cls_U_I := [0%nat]; cls_N_I := [0%nat]; cls_P_I := [] |})
    by reflexivity.
  cbv zeta. rewrite Hcls. simpl.
  split; [|split].
  - intros (_ & Hdisj & _). apply (Hdisj 0%nat). split; apply list_elem_of_here.
  - split; apply list_elem_of_here.
  - split; [|split].
    + intros Hin. apply list_elem_of_singleton in Hin. discriminate Hin.
    + intros Hin. apply list_elem_of_singleton in Hin. discriminate Hin.
    + intros Hin. inversion Hin.
Qed.

(** C2, amended: for a supplied coefficient vector [c], an index is
    must-certify iff its entry is non-constant or has a negative offset,
    definite-negative iff its entry is constant and negative,
    definite-positive iff its entry is constant and positive. The
    definite-negative indices are among the must-certify ones, no
    definite-positive index is must-certify, and the indices in neither the
    must-certify nor the definite-positive group are exactly those whose
    entry is the constant zero. *)
Theorem classify_spec (c : Expression) (i : nat) :
  let cls := classify (length c) (Some c) in
  (i ∈ cls_U_I cls ↔
     ∃ c_i, c !! i = Some c_i ∧ (is_constant c_i = false ∨ offset c_i < 0)) ∧
  (i ∈ cls_N_I cls ↔
     ∃ c_i, c !! i = Some c_i ∧ is_constant c_i = true ∧ offset c_i < 0) ∧
  (i ∈ cls_P_I cls ↔
     ∃ c_i, c !! i = Some c_i ∧ is_constant c_i = true ∧ 0 < offset c_i) ∧
  (i ∈ cls_N_I cls → i ∈ cls_U_I cls) ∧
  (i ∈ cls_P_I cls → i ∉ cls_U_I cls) ∧
  (∀ c_i, c !! i = Some c_i →
     ((i ∉ cls_U_I cls) ∧ (i ∉ cls_P_I cls)) ↔
     (is_constant c_i = true ∧ offset c_i == 0)).
Proof.
  simpl.
  assert (HU : i ∈ indices_where must_certify c ↔
     ∃ c_i, c !! i = Some c_i ∧ (is_constant c_i = false ∨ offset c_i < 0)).
  { rewrite elem_of_indices_where. unfold must_certify.
    split; intros (c_i & Hl & Hp); exists c_i; (split; [exact Hl|]).
    - apply orb_true_iff in Hp as [Hp|Hp].
      + left. apply negb_true_iff. exact Hp.
      + right. apply Qlt_bool_iff. exact Hp.
    - apply orb_true_iff. destruct Hp as [Hp|Hp].
      + left. apply negb_true_iff. exact Hp.
      + right. apply Qlt_bool_iff. exact Hp. }
  assert (HN : i ∈ indices_where definite_negative c ↔
     ∃ c_i, c !! i = Some c_i ∧ is_constant c_i = true ∧ offset c_i < 0).
  { rewrite elem_of_indices_where. unfold definite_negative.
    split; intros (c_i & Hl & Hp); exists c_i; (split; [exact Hl|]).
    - apply andb_true_iff in Hp as [Hc Hp]. split; [exact Hc|].
      apply Qlt_bool_iff. exact Hp.
    - destruct Hp as [Hc Hp]. apply andb_true_iff. split; [exact Hc|].
      apply Qlt_bool_iff. exact Hp. }
  assert (HP : i ∈ indices_where definite_positive c ↔
     ∃ c_i, c !! i = Some c_i ∧ is_constant c_i = true ∧ 0 < offset c_i).
  { rewrite elem_of_indices_where. unfold definite_positive.
    split; intros (c_i & Hl & Hp); exists c_i; (split; [exact Hl|]).
    - apply andb_true_iff in Hp as [Hc Hp]. split; [exact Hc|].
      apply Qlt_bool_iff. exact Hp.
    - destruct Hp as [Hc Hp]. apply andb_true_iff. split; [exact Hc|].
      apply Qlt_bool_iff. exact Hp. }
  split; [exact HU|]. split; [exact HN|]. split; [exact HP|].
  split; [|split].
  - rewrite HN, HU. intros (c_i & Hl & _ & Hneg). exists c_i.
    split; [exact Hl|right; exact Hneg].
  - rewrite HP, HU. intros (c_i & Hl & Hc & Hpos) (c_i' & Hl' & Hcase).
    assert (c_i' = c_i) as -> by congruence.
    destruct Hcase as [Hnc|Hneg]; [congruence|].
    exact (Qlt_irrefl _ (Qlt_trans _ _ _ Hpos Hneg)).
  - intros c_i Hl. rewrite HU, HP. split.
    + intros [HnU HnP].
      destruct (is_constant c_i) eqn:Hc.
      * split; [reflexivity|].
        destruct (Q_dec (offset c_i) 0) as [[Hlt|Hgt]|Heq]; [| |exact Heq].
        -- exfalso. apply HnU. exists c_i. split; [exact Hl|right; exact Hlt].
        -- exfalso. apply HnP. exists c_i. split; [exact Hl|].
           split; [exact Hc|exact Hgt].
      * exfalso. apply HnU. exists c_i. split; [exact Hl|left; exact Hc].
    + intros [Hc Hz]. split.
      * intros (c_i' & Hl' & Hcase). assert (c_i' = c_i) as -> by congruence.
        destruct Hcase as [Hnc|Hneg]; [congruence|].
        rewrite Hz in Hneg. exact (Qlt_irrefl _ Hneg).
      * intros (c_i' & Hl' & _ & Hpos). assert (c_i' = c_i) as -> by congruence.
        rewrite Hz in Hpos. exact (Qlt_irrefl _ Hpos).
Qed.

(** ** Arrays: item assignment *)

Lemma setitem_Ok {X} (a a' : list X) (i : nat) (x : X) :
  setitem a i x = Ok a' ↔ (i < length a)%nat ∧ a' = <[i:=x]> a.
Proof.
  unfold setitem. destruct (decide (i < length a)%nat) as [Hlt|Hge]; split.
  - intros Heq. injection Heq as <-. split; [exact Hlt|reflexivity].
  - intros [_ ->]. reflexivity.
  - intros Heq. discriminate Heq.
  - intros [Hlt _]. contradiction.
Qed.

Lemma getitem_Ok {X} (a : list X) (i : nat) (x : X) :
  getitem a i = Ok x ↔ a !! i = Some x.
Proof.
  unfold getitem. destruct (a !! i) as [y|]; split; intros Heq;
    try discriminate Heq; congruence.
Qed.

Lemma dict_get_Ok {V} (d : gmap nat V) (i : nat) (x : V) :
  dict_get d i = Ok x ↔ d !! i = Some x.
Proof.
  unfold dict_get. destruct (d !! i) as [y|]; split; intros Heq;
    try discriminate Heq; congruence.
Qed.

Lemma setitems_Ok {X} (idxs : list nat) (a a' : list X) (x : X) :
  setitems a idxs x = Ok a' →
  length a' = length a ∧
  ∀ j y, a !! j = Some y →
         a' !! j = Some (if bool_decide (j ∈ idxs) then x else y).
Proof.
  unfold setitems. revert a. induction idxs as [|k idxs IH]; intros a Hrun.
  - simpl in Hrun. injection Hrun as <-. split; [reflexivity|].
    intros j y Hj. rewrite bool_decide_eq_false_2; [exact Hj|].
    intros Hin. inversion Hin.
  - simpl in Hrun. apply bind_Ok in Hrun as (a1 & Hk & Hrest).
    apply setitem_Ok in Hk as [Hlt ->].
    destruct (IH _ Hrest) as [Hlen Hget]. rewrite length_insert in Hlen.
    split; [exact Hlen|]. intros j y Hj.
    destruct (decide (j = k)) as [->|Hne].
    + rewrite (Hget k x); [|apply list_lookup_insert_eq; exact Hlt].
      rewrite (bool_decide_eq_true_2 (k ∈ k :: idxs)); [|left].
      destruct (bool_decide (k ∈ idxs)); reflexivity.
    + rewrite (Hget j y); [|rewrite list_lookup_insert_ne; [exact Hj|congruence]].
      f_equal. rewrite (bool_decide_ext (j ∈ k :: idxs) (j ∈ idxs)); [reflexivity|].
      rewrite elem_of_cons. split; [intros [Heq|Hin]; [contradiction|exact Hin]|].
      intros Hin. right. exact Hin.
Qed.


Lemma getmask_Ok {X} (a : list X) (mask : list bool) (r : list X) :
  getmask a mask = Ok r ↔ length mask = length a ∧ r = select a mask.
Proof.
  unfold getmask. destruct (decide (length mask = length a)) as [Hlen|Hlen]; split.
  - intros Heq. injection Heq as <-. split; [exact Hlen|reflexivity].
  - intros [_ ->]. reflexivity.
  - discriminate.
  - intros [Hlen' _]. contradiction.
Qed.

Lemma length_select {X} (a : list X) (mask : list bool) :
  length a = length mask → length (select a mask) = count_nonzero mask.
Proof.
  unfold count_nonzero. revert a. induction mask as [|t mask IH]; intros [|x a] Ha;
    try discriminate Ha; simpl; [reflexivity|].
  injection Ha as Ha. destruct t; simpl; rewrite (IH a Ha); reflexivity.
Qed.

(** ** The default covers before any reduction *)

Lemma initial_cover_Ok (m : nat) (N_I : list nat) (i : nat) (cov : list bool) :
  initial_cover m N_I i = Ok cov →
  length cov = m ∧ (i < m)%nat ∧
  ∀ j, (j < m)%nat →
       cov !! j = Some (negb (bool_decide (j ∈ N_I)) && negb (bool_decide (j = i))).
Proof.
  unfold initial_cover. intros Hrun.
  apply bind_Ok in Hrun as (cov1 & HN & Hi).
  apply setitems_Ok in HN as [Hlen1 Hget1].
  apply setitem_Ok in Hi as [Hlt ->].
  unfold np_ones in *. rewrite length_replicate in Hlen1.
  rewrite length_insert. split; [exact Hlen1|]. split; [lia|].
  intros j Hj.
  assert (Hj1 : cov1 !! j = Some (if bool_decide (j ∈ N_I) then false else true)).
  { apply Hget1. apply lookup_replicate. split; [reflexivity|exact Hj]. }
  destruct (decide (j = i)) as [->|Hne].
  - rewrite list_lookup_insert_eq; [|exact Hlt].
    rewrite (bool_decide_eq_true_2 (i = i)); [|reflexivity].
    rewrite andb_false_r. reflexivity.
  - rewrite list_lookup_insert_ne; [|congruence]. rewrite Hj1.
    rewrite (bool_decide_eq_false_2 (j = i)); [|exact Hne].
    destruct (bool_decide (j ∈ N_I)); reflexivity.
Qed.


Lemma initial_covers_Ok (m : nat) (U_I N_I : list nat) (ec : gmap nat (list bool)) :
  NoDup U_I →
  initial_covers m U_I N_I = Ok ec →
  (∀ i, i ∈ U_I → ∃ cov, ec !! i = Some cov ∧ initial_cover m N_I i = Ok cov) ∧
  (∀ j, j ∉ U_I → ec !! j = None).
Proof.
  intros Hnd Hrun. unfold initial_covers in Hrun.
  apply (for_each_pointwise
           (λ i _ o', ∃ cov, o' = Some cov ∧ initial_cover m N_I i = Ok cov))
    in Hrun; [|clear Hrun|exact Hnd].
  - destruct Hrun as [Hin Hout]. split; [exact Hin|].
    intros j Hj. rewrite (Hout j Hj). apply lookup_empty.
  - intros d0 i d1 Hstep. apply bind_Ok in Hstep as (cov & Hcov & Hins).
    injection Hins as <-. split.
    + exists cov. split; [apply lookup_insert_eq|exact Hcov].
    + intros j Hne. apply lookup_insert_ne. congruence.
Qed.


(** ** Row sums, minima and dot products *)















(** ** The aggressive reduction *)

(** One pass of the loop over [j]: only entry [j] can change, and it stays
    true exactly when it was true and the drop condition fails. *)
Lemma reduce_body_Ok (alpha : matrix) (zero_loc : nat) (row : list Q)
    (cov cov1 : list bool) (j : nat) :
  (cj ← getitem cov j;
   if cj && negb (j =? zero_loc)%nat then
     row_j ← getitem alpha j;
     if Qeq_bool (dot row row_j) 0 then setitem cov j false else Ok cov
   else Ok cov) = Ok cov1 →
  length cov1 = length cov ∧
  (∀ k, k ≠ j → cov1 !! k = cov !! k) ∧
  ∃ cj cj1, cov !! j = Some cj ∧ cov1 !! j = Some cj1 ∧
    (cj1 = true ↔ cj = true ∧ ¬ (j ≠ zero_loc ∧ orthogonal_to alpha row j)).
Proof.
  intros Hrun. apply bind_Ok in Hrun as (cj & Hcj & Hrun).
  apply getitem_Ok in Hcj.
  destruct cj; simpl in Hrun.
  - destruct (j =? zero_loc)%nat eqn:Hz; simpl in Hrun.
    + injection Hrun as <-. apply Nat.eqb_eq in Hz.
      split; [reflexivity|]. split; [reflexivity|].
      exists true, true. split; [exact Hcj|]. split; [exact Hcj|].
      split; [|reflexivity]. intros _. split; [reflexivity|].
      intros [Hne _]. contradiction.
    + apply Nat.eqb_neq in Hz.
      apply bind_Ok in Hrun as (row_j & Hrow & Hrun). apply getitem_Ok in Hrow.
      destruct (Qeq_bool (dot row row_j) 0) eqn:Hdot.
      * apply setitem_Ok in Hrun as [Hlt ->].
        split; [apply length_insert|].
        split; [intros k Hk; apply list_lookup_insert_ne; congruence|].
        exists true, false. split; [exact Hcj|].
        split; [apply list_lookup_insert_eq; exact Hlt|].
        split; [discriminate|]. intros [_ Hno]. exfalso. apply Hno.
        split; [exact Hz|]. exists row_j. split; [exact Hrow|].
        apply Qeq_bool_iff. exact Hdot.
      * injection Hrun as <-.
        split; [reflexivity|]. split; [reflexivity|].
        exists true, true. split; [exact Hcj|]. split; [exact Hcj|].
        split; [|reflexivity]. intros _. split; [reflexivity|].
        intros [_ (row_j' & Hrow' & Hdot')].
        assert (row_j' = row_j) as -> by congruence.
        apply Qeq_bool_neq in Hdot. contradiction.
  - injection Hrun as <-.
    split; [reflexivity|]. split; [reflexivity|].
    exists false, false. split; [exact Hcj|]. split; [exact Hcj|].
    split; [discriminate|]. intros [Hf _]. discriminate Hf.
Qed.

Lemma reduce_loop_Ok (alpha : matrix) (zero_loc : nat) (row : list Q)
    (k s : nat) (cov cov' : list bool) :
  for_each (λ cov j,
      cj ← getitem cov j;
      if cj && negb (j =? zero_loc)%nat then
        row_j ← getitem alpha j;
        if Qeq_bool (dot row row_j) 0 then setitem cov j false else Ok cov
      else Ok cov) (seq s k) cov = Ok cov' →
  length cov' = length cov ∧
  ∀ j cj, cov !! j = Some cj →
    ∃ cj', cov' !! j = Some cj' ∧
      (cj' = true ↔
       cj = true ∧
       ¬ ((s ≤ j < s + k)%nat ∧ j ≠ zero_loc ∧ orthogonal_to alpha row j)).
Proof.
  revert s cov. induction k as [|k IH]; intros s cov Hrun.
  - simpl in Hrun. injection Hrun as <-. split; [reflexivity|].
    intros j cj Hj. exists cj. split; [exact Hj|].
    split; [intros ->; split; [reflexivity|intros [Hr _]; lia]|intros [-> _]; reflexivity].
  - simpl in Hrun. apply bind_Ok in Hrun as (cov1 & Hbody & Hrest).
    apply reduce_body_Ok in Hbody
      as (Hlen1 & Hother & cs & cs1 & Hcs & Hcs1 & Hiff1).
    destruct (IH _ _ Hrest) as [Hlen Hget].
    split; [congruence|]. intros j cj Hj.
    destruct (decide (j = s)) as [->|Hne].
    + assert (cj = cs) as -> by congruence.
      destruct (Hget s cs1 Hcs1) as (cj' & Hcj' & Hiff).
      exists cj'. split; [exact Hcj'|].
      rewrite Hiff, Hiff1. split.
      * intros [[Hc Hno] _]. split; [exact Hc|].
        intros (_ & Hz & Ho). apply Hno. split; assumption.
      * intros [Hc Hno]. split; [split; [exact Hc|]|].
        -- intros [Hz Ho]. apply Hno. split; [lia|]. split; assumption.
        -- intros [Hr _]. lia.
    + rewrite <- (Hother j Hne) in Hj.
      destruct (Hget j cj Hj) as (cj' & Hcj' & Hiff).
      exists cj'. split; [exact Hcj'|].
      rewrite Hiff. split.
      * intros [Hc Hno]. split; [exact Hc|].
        intros (Hr & Hz & Ho). apply Hno. split; [lia|]. split; assumption.
      * intros [Hc Hno]. split; [exact Hc|].
        intros (Hr & Hz & Ho). apply Hno. split; [lia|]. split; assumption.
Qed.

Lemma reduce_cover_Ok (alpha : matrix) (m zero_loc : nat) (row : list Q)
    (cov cov' : list bool) :
  reduce_cover alpha m zero_loc row cov = Ok cov' →
  length cov' = length cov ∧
  ∀ j cj, cov !! j = Some cj →
    ∃ cj', cov' !! j = Some cj' ∧
      (cj' = true ↔
       cj = true ∧ ¬ ((j < m)%nat ∧ j ≠ zero_loc ∧ orthogonal_to alpha row j)).
Proof.
  unfold reduce_cover. intros Hrun. apply reduce_loop_Ok in Hrun as [Hlen Hget].
  split; [exact Hlen|]. intros j cj Hj.
  destruct (Hget j cj Hj) as (cj' & Hcj' & Hiff). exists cj'.
  split; [exact Hcj'|]. rewrite Hiff. split.
  - intros [Hc Hno]. split; [exact Hc|].
    intros (Hr & Hz & Ho). apply Hno. split; [lia|]. split; assumption.
  - intros [Hc Hno]. split; [exact Hc|].
    intros (Hr & Hz & Ho). apply Hno. split; [lia|]. split; assumption.
Qed.


Lemma aggressive_loop_Ok (alpha : matrix) (m zero_loc : nat) (U_I : list nat)
    (ec0 ec1 : gmap nat (list bool)) :
  NoDup U_I →
  for_each (aggressive_step alpha m zero_loc) U_I ec0 = Ok ec1 →
  (∀ i, i ∈ U_I → i ≠ zero_loc →
     ∃ cov row_i cov',
       ec0 !! i = Some cov ∧ alpha !! i = Some row_i ∧
       reduce_cover alpha m zero_loc row_i cov = Ok cov' ∧ ec1 !! i = Some cov') ∧
  (∀ j, j ∉ U_I ∨ j = zero_loc → ec1 !! j = ec0 !! j).
Proof.
  intros Hnd Hrun.
  apply (for_each_pointwise
     (λ i o o', (i = zero_loc ∧ o' = o) ∨
        (i ≠ zero_loc ∧ ∃ cov row_i cov',
           o = Some cov ∧ alpha !! i = Some row_i ∧
           reduce_cover alpha m zero_loc row_i cov = Ok cov' ∧ o' = Some cov')))
    in Hrun; [|clear Hrun|exact Hnd].
  - destruct Hrun as [Hin Hout]. split.
    + intros i Hi Hne. destruct (Hin i Hi) as [[Heq _]|[_ Hspec]];
        [contradiction|exact Hspec].
    + intros j [Hj | ->]; [apply Hout; exact Hj|].
      destruct (decide (zero_loc ∈ U_I)) as [Hz|Hz]; [|apply Hout; exact Hz].
      destruct (Hin zero_loc Hz) as [[_ Heq]|[Hne _]]; [exact Heq|contradiction].
  - intros d0 i d1. unfold aggressive_step.
    destruct (decide (i = zero_loc)) as [Heq|Hne]; intros Hstep.
    + injection Hstep as <-. split; [left; split; [exact Heq|reflexivity]|].
      reflexivity.
    + apply bind_Ok in Hstep as (cov & Hcov & Hstep).
      apply bind_Ok in Hstep as (row_i & Hrow & Hstep).
      apply bind_Ok in Hstep as (cov' & Hred & Hstep).
      injection Hstep as <-.
      apply dict_get_Ok in Hcov. apply getitem_Ok in Hrow. split.
      * right. split; [exact Hne|]. exists cov, row_i, cov'.
        split; [exact Hcov|]. split; [exact Hrow|]. split; [exact Hred|].
        apply lookup_insert_eq.
      * intros j Hj. apply lookup_insert_ne. congruence.
Qed.

Lemma covers_fit_insert (alpha : matrix) (U_I : list nat)
    (ec : gmap nat (list bool)) (i : nat) (cov : list bool) :
  covers_fit alpha U_I ec → length cov = length alpha →
  covers_fit alpha U_I (<[i:=cov]> ec).
Proof.
  intros Hfit Hlen k Hk. destruct (Hfit k Hk) as [Hlt (cov_k & Hcov & Hlen_k)].
  split; [exact Hlt|]. destruct (decide (k = i)) as [->|Hne].
  - exists cov. split; [apply lookup_insert_eq|exact Hlen].
  - exists cov_k. split; [|exact Hlen_k].
    rewrite lookup_insert_ne; [exact Hcov|congruence].
Qed.


(** ** Trivial-cone elimination *)

Lemma trivial_step_Ok `{Collaborators} (alpha A : matrix) (b : list Q)
    (K : list Cone) (d0 d1 : gmap nat (list bool)) (i : nat) :
  trivial_step alpha A b K d0 i = Ok d1 →
  (∃ cov, d0 !! i = Some cov ∧
     ((np_any cov = false ∧ d1 !! i = Some cov) ∨
      (np_any cov = true ∧ ∃ mat, cover_matrix alpha cov i = Ok mat ∧
         d1 !! i = Some (if is_trivial (solve_reduction mat A b K)
                         then replicate (length cov) false else cov)))) ∧
  (∀ j, j ≠ i → d1 !! j = d0 !! j).
Proof.
  unfold trivial_step. intros Hstep.
  apply bind_Ok in Hstep as (cov & Hcov & Hstep). apply dict_get_Ok in Hcov.
  destruct (np_any cov) eqn:Hany.
  - apply bind_Ok in Hstep as (mat & Hmat & Hstep).
    destruct (is_trivial (solve_reduction mat A b K)) eqn:Htriv;
      injection Hstep as <-.
    + split; [|intros j Hj; apply lookup_insert_ne; congruence].
      exists cov. split; [exact Hcov|]. right. split; [exact Hany|].
      exists mat. split; [exact Hmat|]. rewrite Htriv. apply lookup_insert_eq.
    + split; [|reflexivity].
      exists cov. split; [exact Hcov|]. right. split; [exact Hany|].
      exists mat. split; [exact Hmat|]. rewrite Htriv. exact Hcov.
  - injection Hstep as <-. split; [|reflexivity].
    exists cov. split; [exact Hcov|]. left. split; [exact Hany|exact Hcov].
Qed.

Lemma cover_matrix_total (alpha : matrix) (cov : list bool) (i : nat) :
  length cov = length alpha → (i < length alpha)%nat →
  ∃ mat, cover_matrix alpha cov i = Ok mat.
Proof.
  intros Hlen Hlt. unfold cover_matrix, getmask.
  rewrite decide_True; [|exact Hlen]. simpl.
  destruct (lookup_lt_is_Some_2 alpha i Hlt) as [row_i Hrow].
  apply getitem_Ok in Hrow. rewrite Hrow. simpl. eexists. reflexivity.
Qed.

Lemma eliminate_trivial_total `{Collaborators} (alpha A : matrix) (b : list Q)
    (K : list Cone) (U_I : list nat) (ec1 : gmap nat (list bool)) :
  covers_fit alpha U_I ec1 →
  ∃ ec2, eliminate_trivial alpha A b K U_I ec1 = Ok ec2 ∧ covers_fit alpha U_I ec2.
Proof.
  intros Hfit. apply for_each_invariant; [exact Hfit|].
  intros ec i Hi Hec. unfold trivial_step.
  destruct (Hec i Hi) as [Hlt (cov & Hcov & Hlen)].
  apply dict_get_Ok in Hcov. rewrite Hcov. simpl.
  destruct (np_any cov).
  - destruct (cover_matrix_total alpha cov i Hlen Hlt) as (mat & ->). simpl.
    destruct (is_trivial (solve_reduction mat A b K)).
    + eexists. split; [reflexivity|].
      apply covers_fit_insert; [exact Hec|].
      rewrite length_replicate. exact Hlen.
    + exists ec. split; [reflexivity|exact Hec].
  - exists ec. split; [reflexivity|exact Hec].
Qed.

Lemma eliminate_trivial_Ok `{Collaborators} (alpha A : matrix) (b : list Q)
    (K : list Cone) (U_I : list nat) (ec1 ec2 : gmap nat (list bool)) :
  NoDup U_I →
  eliminate_trivial alpha A b K U_I ec1 = Ok ec2 →
  (∀ i, i ∈ U_I →
     ∃ cov, ec1 !! i = Some cov ∧
       ((np_any cov = false ∧ ec2 !! i = Some cov) ∨
        (np_any cov = true ∧ ∃ mat, cover_matrix alpha cov i = Ok mat ∧
           ec2 !! i = Some (if is_trivial (solve_reduction mat A b K)
                            then replicate (length cov) false else cov)))) ∧
  (∀ j, j ∉ U_I → ec2 !! j = ec1 !! j).
Proof.
  intros Hnd Hrun. unfold eliminate_trivial in Hrun.
  apply (for_each_pointwise
     (λ i o o', ∃ cov, o = Some cov ∧
       ((np_any cov = false ∧ o' = Some cov) ∨
        (np_any cov = true ∧ ∃ mat, cover_matrix alpha cov i = Ok mat ∧
           o' = Some (if is_trivial (solve_reduction mat A b K)
                      then replicate (length cov) false else cov)))))
    in Hrun; [exact Hrun| |exact Hnd].
  intros d0 i d1 Hstep. apply trivial_step_Ok in Hstep. exact Hstep.
Qed.

(** Elimination only ever clears entries. *)
Lemma eliminate_trivial_clears `{Collaborators} (alpha A : matrix) (b : list Q)
    (K : list Cone) (U_I : list nat) (ec1 ec2 : gmap nat (list bool))
    (i j : nat) (cov1 cov2 : list bool) :
  NoDup U_I →
  eliminate_trivial alpha A b K U_I ec1 = Ok ec2 →
  ec1 !! i = Some cov1 → ec2 !! i = Some cov2 →
  cov1 !! j = Some false → cov2 !! j = Some false.
Proof.
  intros Hnd Hrun H1 H2 Hj.
  destruct (eliminate_trivial_Ok _ _ _ _ _ _ _ Hnd Hrun) as [Hin Hout].
  destruct (decide (i ∈ U_I)) as [Hi|Hi].
  - destruct (Hin i Hi) as (cov & Hcov & [[_ Hsame]|[_ (mat & _ & Hnew)]]).
    + congruence.
    + assert (cov = cov1) as -> by congruence.
      rewrite H2 in Hnew. injection Hnew as ->.
      destruct (is_trivial _); [|exact Hj].
      apply lookup_replicate. split; [reflexivity|].
      apply lookup_lt_Some in Hj. exact Hj.
  - rewrite (Hout i Hi) in H2. congruence.
Qed.

(** ** The three stages of [_default_exp_covers] together *)


Lemma aggressive_reduction_Ok (alpha : matrix) (m : nat) (U_I : list nat)
    (ec0 ec1 : gmap nat (list bool)) :
  aggressive_reduction alpha m U_I ec0 = Ok ec1 →
  (reduction_applies alpha = Ok false ∧ ec1 = ec0) ∨
  (reduction_applies alpha = Ok true ∧
   ∃ zero_loc, first_zero (row_sums alpha) = Ok zero_loc ∧
               for_each (aggressive_step alpha m zero_loc) U_I ec0 = Ok ec1).
Proof.
  unfold aggressive_reduction. intros Hrun.
  apply bind_Ok in Hrun as ([|] & Happ & Hrun).
  - right. split; [exact Happ|].
    apply bind_Ok in Hrun as (zero_loc & Hz & Hrun).
    exists zero_loc. split; [exact Hz|exact Hrun].
  - left. injection Hrun as <-. split; [exact Happ|reflexivity].
Qed.




(** The stages read back from a successful run. *)
Lemma default_exp_covers_Ok `{Collaborators} (alpha A : matrix) (b : list Q)
    (K : list Cone) (m : nat) (U_I N_I : list nat) (ec2 : gmap nat (list bool)) :
  _default_exp_covers alpha A b K m U_I N_I = Ok ec2 →
  ∃ ec0 ec1,
    initial_covers m U_I N_I = Ok ec0 ∧
    aggressive_reduction alpha m U_I ec0 = Ok ec1 ∧
    eliminate_trivial alpha A b K U_I ec1 = Ok ec2.
Proof.
  unfold _default_exp_covers. intros Hrun.
  apply bind_Ok in Hrun as (ec0 & H0 & Hrun).
  apply bind_Ok in Hrun as (ec1 & H1 & H2).
  exists ec0, ec1. split; [exact H0|]. split; [exact H1|exact H2].
Qed.




Lemma default_covers_domain `{Collaborators} (alpha A : matrix) (b : list Q)
    (K : list Cone) (m : nat) (U_I N_I : list nat) (ec2 : gmap nat (list bool))
    (i : nat) :
  NoDup U_I → _default_exp_covers alpha A b K m U_I N_I = Ok ec2 →
  is_Some (ec2 !! i) → i ∈ U_I.
Proof.
  intros Hnd Hrun [cov Hcov].
  apply default_exp_covers_Ok in Hrun as (ec0 & ec1 & H0 & H1 & H2).
  destruct (decide (i ∈ U_I)) as [Hi|Hi]; [exact Hi|exfalso].
  destruct (eliminate_trivial_Ok _ _ _ _ _ _ _ Hnd H2) as [_ Hout2].
  destruct (initial_covers_Ok _ _ _ _ Hnd H0) as [_ Hout0].
  rewrite (Hout2 i Hi) in Hcov.
  apply aggressive_reduction_Ok in H1 as [[_ ->]|(_ & zl & _ & Hloop)].
  - rewrite (Hout0 i Hi) in Hcov. discriminate Hcov.
  - destruct (aggressive_loop_Ok _ _ _ _ _ _ Hnd Hloop) as [_ Hout1].
    rewrite (Hout1 i (or_introl Hi)), (Hout0 i Hi) in Hcov. discriminate Hcov.
Qed.


(** ** The aggressive reduction on int64 arrays without overflow *)

















Lemma select_indices_from {X} (a : list X) (mask : list bool) (s k j : nat) :
  length a = length mask →
  (List.filter (λ ic : nat * bool, id ic.2) (zip (seq s (length mask)) mask)).*1 !! k
    = Some j →
  (s ≤ j)%nat ∧ select a mask !! k = a !! (j - s)%nat ∧ is_Some (a !! (j - s)%nat).
Proof.
  revert a s k. induction mask as [|t mask IH]; intros [|x a] s k Hlen Hk;
    try discriminate Hlen; try discriminate Hk.
  injection Hlen as Hlen. simpl in Hk. destruct t; simpl in Hk.
  - destruct k as [|k]; simpl in Hk.
    + injection Hk as <-. rewrite Nat.sub_diag. simpl.
      split; [lia|]. split; [reflexivity|eexists; reflexivity].
    + destruct (IH a (S s) k Hlen Hk) as (Hle & Hsel & Hsome).
      replace (j - s)%nat with (S (j - S s)) by lia. simpl.
      split; [lia|]. split; [exact Hsel|exact Hsome].
  - destruct (IH a (S s) k Hlen Hk) as (Hle & Hsel & Hsome).
    replace (j - s)%nat with (S (j - S s)) by lia. simpl.
    split; [lia|]. split; [exact Hsel|exact Hsome].
Qed.

(** The [k]-th entry of [a[mask]] is the entry of [a] at the [k]-th true
    position of the mask. *)
Lemma select_indices {X} (a : list X) (mask : list bool) (k j : nat) :
  length a = length mask → indices_where id mask !! k = Some j →
  ∃ x, a !! j = Some x ∧ select a mask !! k = Some x.
Proof.
  intros Hlen Hk. unfold indices_where, enumerate in Hk.
  destruct (select_indices_from a mask 0 k j Hlen Hk) as (_ & Hsel & [x Hx]).
  rewrite Nat.sub_0_r in Hsel, Hx. exists x. split; [exact Hx|].
  rewrite Hsel. exact Hx.
Qed.

(** The rows of the matrix [cover_matrix] builds. *)
Lemma cover_matrix_rows (alpha : matrix) (cov : list bool) (i : nat) (mat : matrix) :
  cover_matrix alpha cov i = Ok mat →
  ∃ row_i, alpha !! i = Some row_i ∧ length mat = count_nonzero cov ∧
    ∀ k j, indices_where id cov !! k = Some j →
      ∃ row_j, alpha !! j = Some row_j ∧ mat !! k = Some (vec_sub row_j row_i).
Proof.
  unfold cover_matrix. intros Hrun.
  apply bind_Ok in Hrun as (rows & Hrows & Hrun).
  apply bind_Ok in Hrun as (row_i & Hrow_i & Hrun). injection Hrun as <-.
  apply getmask_Ok in Hrows as [Hlen ->]. apply getitem_Ok in Hrow_i.
  exists row_i. split; [exact Hrow_i|]. split.
  - rewrite length_map. apply length_select. symmetry. exact Hlen.
  - intros k j Hk.
    destruct (select_indices alpha cov k j (eq_sym Hlen) Hk) as (row_j & Hj & Hsel).
    exists row_j. split; [exact Hj|].
    change (map (λ r, vec_sub r row_i) (select alpha cov))
      with ((λ r, vec_sub r row_i) <$> select alpha cov).
    rewrite list_lookup_fmap, Hsel. reflexivity.
Qed.

(** The matrix [cover_matrix] builds is the one of the claim. *)
Lemma cover_matrix_Ok (alpha : matrix) (cov : list bool) (i : nat) (mat : matrix) :
  cover_matrix alpha cov i = Ok mat → is_cover_difference alpha cov i mat.
Proof.
  intros Hrun.
  destruct (cover_matrix_rows _ _ _ _ Hrun) as (row_i & Hrow_i & Hlen & Hrows).
  split; [exact Hlen|]. intros k j Hk.
  destruct (Hrows k j Hk) as (row_j & Hrow_j & Hmat).
  exists (vec_sub row_j row_i). split; [exact Hmat|].
  intros t. unfold vec_sub. rewrite lookup_zip_with, Hrow_j, Hrow_i. simpl.
  destruct (row_j !! t) as [x|]; simpl; [|reflexivity].
  destruct (row_i !! t) as [y|]; reflexivity.
Qed.

(** C4. In trivial-cone elimination every must-certify [i] keeps an empty
    cover as it is; for a nonempty cover the auxiliary problem is built from
    the matrix of the differences [alpha[j] - alpha[i]], one row per index
    [j] of the cover, and the cover becomes the all-false mask exactly when
    the solver reports on that problem [solved] with a value strictly below
    [-100]; otherwise the cover is retained unchanged. The step returns. *)
Theorem eliminate_trivial_spec `{Collaborators} (alpha A : matrix)
    (b : list Q) (K : list Cone) (U_I : list nat) (ec1 : gmap nat (list bool)) :
  NoDup U_I → covers_fit alpha U_I ec1 →
  ∃ ec2,
    eliminate_trivial alpha A b K U_I ec1 = Ok ec2 ∧
    ∀ i cov, i ∈ U_I → ec1 !! i = Some cov →
      (np_any cov = false → ec2 !! i = Some cov) ∧
      (np_any cov = true →
         ∃ mat,
           is_cover_difference alpha cov i mat ∧
           let sv := solve_reduction mat A b K in
           let verdict := sv.1 = solved ∧ xltb sv.2 (Fin (-100)) = true in
           (ec2 !! i = Some (replicate (length cov) false) ↔ verdict) ∧
           (¬ verdict → ec2 !! i = Some cov)).
Proof.
  intros Hnd Hfit.
  destruct (eliminate_trivial_total alpha A b K U_I ec1 Hfit) as (ec2 & H2 & _).
  exists ec2. split; [exact H2|].
  destruct (eliminate_trivial_Ok _ _ _ _ _ _ _ Hnd H2) as [Hin _].
  intros i cov Hi Hcov.
  destruct (Hin i Hi) as (cov' & Hcov' & Hcases).
  assert (cov' = cov) as -> by congruence.
  split.
  - intros Hany. destruct Hcases as [[_ Hsame]|[Hany' _]]; [exact Hsame|congruence].
  - intros Hany. destruct Hcases as [[Hany' _]|[_ (mat & Hmat & Hnew)]]; [congruence|].
    exists mat. split; [apply cover_matrix_Ok; exact Hmat|]. cbv zeta.
    assert (Hverdict : is_trivial (solve_reduction mat A b K) = true ↔
              (solve_reduction mat A b K).1 = solved ∧
              xltb (solve_reduction mat A b K).2 (Fin (-100)) = true).
    { unfold is_trivial. rewrite andb_true_iff.
      destruct (solve_reduction mat A b K).1; simpl; split;
        intros [Hs Hv]; try discriminate Hs; split; try reflexivity; exact Hv. }
    rewrite Hnew. destruct (is_trivial (solve_reduction mat A b K)) eqn:Htriv.
    + split; [split; [intros _; apply Hverdict; reflexivity|reflexivity]|].
      intros Hno. exfalso. apply Hno. apply Hverdict. reflexivity.
    + split; [|reflexivity]. split.
      * intros Heq. injection Heq as Heq. exfalso.
        rewrite Heq in Hany. clear -Hany.
        induction (length cov) as [|k IH]; simpl in Hany; [discriminate|].
        apply IH. exact Hany.
      * intros Hv. apply Hverdict in Hv. discriminate Hv.
Qed.

(** ** Verification of a supplied cover map *)

Lemma deref_insert (st : gmap nat (list bool)) (l l' : nat) (a : list bool) :
  deref (<[l:=a]> st) l' = if decide (l = l') then a else deref st l'.
Proof.
  unfold deref. destruct (decide (l = l')) as [->|Hne].
  - rewrite lookup_insert_eq. reflexivity.
  - rewrite lookup_insert_ne; [reflexivity|exact Hne].
Qed.

(** One visit: the key holds a boolean array with an entry [i]; that entry
    of that array is cleared, nothing else changes, and a warning is issued
    when the entry was true. *)
Lemma verify_step_Ok (d : gmap nat pyvalue) (st st1 : gmap nat (list bool))
    (w w1 : list nat) (i : nat) :
  verify_step d (st, w) i = Ok (st1, w1) →
  ∃ (l : nat) (c : bool),
    d !! i = Some (ndarray_bool l) ∧ deref st l !! i = Some c ∧
    w1 = w ++ (if c then [i] else []) ∧
    ∀ l' j : nat, deref st1 l' !! j =
            (λ x, x && negb (bool_decide (j = i ∧ l' = l))) <$> deref st l' !! j.
Proof.
  unfold verify_step. destruct (d !! i) as [[l| | |rows extra]|] eqn:Hd;
    try discriminate; [|destruct (decide (i < rows)%nat); discriminate].
  simpl. intros Hrun. apply bind_Ok in Hrun as (c & Hc & Hrun).
  apply getitem_Ok in Hc. exists l, c. split; [reflexivity|]. split; [exact Hc|].
  destruct c; injection Hrun as <- <-.
  - split; [reflexivity|]. intros l' j. rewrite deref_insert.
    destruct (decide (l = l')) as [<-|Hl].
    + destruct (decide (j = i)) as [->|Hj].
      * rewrite list_lookup_insert_eq; [|apply lookup_lt_Some in Hc; exact Hc].
        rewrite Hc. simpl. rewrite bool_decide_eq_true_2; [reflexivity|].
        split; reflexivity.
      * rewrite list_lookup_insert_ne; [|congruence].
        rewrite bool_decide_eq_false_2; [|intros [Heq _]; contradiction].
        destruct (deref st l !! j) as [x|]; simpl; [|reflexivity].
        rewrite andb_true_r. reflexivity.
    + rewrite bool_decide_eq_false_2; [|intros [_ Heq]; congruence].
      destruct (deref st l' !! j) as [x|]; simpl; [|reflexivity].
      rewrite andb_true_r. reflexivity.
  - split; [rewrite app_nil_r; reflexivity|]. intros l' j.
    destruct (decide (j = i ∧ l' = l)) as [[-> ->]|Hno].
    + rewrite Hc. simpl. reflexivity.
    + rewrite bool_decide_eq_false_2; [|exact Hno].
      destruct (deref st l' !! j) as [x|]; simpl; [|reflexivity].
      rewrite andb_true_r. reflexivity.
Qed.

Lemma verify_step_total (d : gmap nat pyvalue) (st : gmap nat (list bool))
    (w : list nat) (i l : nat) :
  d !! i = Some (ndarray_bool l) → (i < length (deref st l))%nat →
  ∃ acc, verify_step d (st, w) i = Ok acc.
Proof.
  intros Hd Hlt. unfold verify_step. rewrite Hd. simpl.
  destruct (lookup_lt_is_Some_2 _ _ Hlt) as [c Hc].
  apply getitem_Ok in Hc. rewrite Hc. simpl.
  destruct c; eexists; reflexivity.
Qed.


(** The whole loop, read back from a successful run: every key is a boolean
    array with an entry of its own index; the entry [j] of the array at
    location [l] is cleared exactly when [j] is a verified key held at [l];
    one warning per key whose own entry was true. *)
Lemma verify_loop_Ok (d : gmap nat pyvalue) (keys : list nat)
    (st st' : gmap nat (list bool)) (w w' : list nat) :
  NoDup keys →
  for_each (verify_step d) keys (st, w) = Ok (st', w') →
  (∀ i, i ∈ keys → ∃ l c, d !! i = Some (ndarray_bool l) ∧ deref st l !! i = Some c) ∧
  (∀ l j, deref st' l !! j =
          (λ x, x && negb (bool_decide (j ∈ keys ∧ d !! j = Some (ndarray_bool l))))
            <$> deref st l !! j) ∧
  w' = w ++ List.filter (self_covering d st) keys.
Proof.
  revert st w. induction keys as [|k keys IH]; intros st w Hnd Hrun.
  - simpl in Hrun. injection Hrun as <- <-.
    split; [intros i Hi; inversion Hi|]. split; [|rewrite app_nil_r; reflexivity].
    intros l j. rewrite bool_decide_eq_false_2; [|intros [Hin _]; inversion Hin].
    destruct (deref st l !! j) as [x|]; simpl; [|reflexivity].
    rewrite andb_true_r. reflexivity.
  - simpl in Hrun. apply bind_Ok in Hrun as ([st1 w1] & Hk & Hrest).
    apply NoDup_cons in Hnd as [Hfresh Hnd].
    apply verify_step_Ok in Hk as (lk & ck & Hdk & Hck & Hw1 & Hst1).
    destruct (IH st1 w1 Hnd Hrest) as (Hkeys & Hst' & Hw').
    split; [|split].
    + intros i Hi. apply elem_of_cons in Hi as [->|Hi].
      * exists lk, ck. split; [exact Hdk|exact Hck].
      * destruct (Hkeys i Hi) as (l & c & Hd & Hc). rewrite Hst1 in Hc.
        destruct (deref st l !! i) as [c0|] eqn:Hc0; [|discriminate Hc].
        exists l, c0. split; [exact Hd|exact Hc0].
    + intros l j. rewrite Hst', Hst1.
      destruct (deref st l !! j) as [x|]; simpl; [|reflexivity]. f_equal.
      rewrite <- andb_assoc. f_equal. rewrite <- negb_orb. f_equal.
      apply eq_true_iff_eq. rewrite orb_true_iff, !bool_decide_eq_true.
      rewrite elem_of_cons. split.
      * intros [[-> ->]|[Hin Hd]]; [split; [left; reflexivity|exact Hdk]|].
        split; [right; exact Hin|exact Hd].
      * intros [[->|Hin] Hd]; [left|right; split; assumption].
        split; [reflexivity|congruence].
    + rewrite Hw', Hw1, <- app_assoc. f_equal. simpl.
      assert (Hself : self_covering d st k = ck).
      { unfold self_covering. rewrite Hdk, Hck. reflexivity. }
      rewrite Hself.
      assert (Hrest_eq : List.filter (self_covering d st1) keys
                         = List.filter (self_covering d st) keys).
      { apply filter_ext_in. intros i Hi. apply list_elem_of_In in Hi.
        unfold self_covering. destruct (d !! i) as [[l| | |rows extra]|];
          try reflexivity.
        rewrite Hst1. rewrite bool_decide_eq_false_2.
        - destruct (deref st l !! i) as [x|]; simpl; [|reflexivity].
          rewrite andb_true_r. reflexivity.
        - intros [-> _]. contradiction. }
      rewrite Hrest_eq. destruct ck; reflexivity.
Qed.

Lemma length_of_lookups {X Y} (f : nat → X → Y) (a : list X) (a' : list Y) :
  (∀ j, a' !! j = f j <$> a !! j) → length a' = length a.
Proof.
  intros Hget. apply Nat.le_antisymm.
  - apply lookup_ge_None. rewrite Hget.
    rewrite (proj2 (lookup_ge_None a (length a))); [reflexivity|lia].
  - apply lookup_ge_None.
    pose proof (Hget (length a')) as Hj.
    rewrite (proj2 (lookup_ge_None a' (length a'))) in Hj; [|lia].
    destruct (a !! length a'); [discriminate Hj|reflexivity].
Qed.


Lemma NoDup_classify (m : nat) (c : option Expression) :
  NoDup (cls_U_I (classify m c)).
Proof.
  destruct c as [c|]; simpl; [apply NoDup_indices_where|apply NoDup_seq].
Qed.

Lemma aggressive_reduction_clears (alpha : matrix) (m : nat) (U_I : list nat)
    (ec0 ec1 : gmap nat (list bool)) (i : nat) (cov0 : list bool) :
  NoDup U_I →
  aggressive_reduction alpha m U_I ec0 = Ok ec1 →
  ec0 !! i = Some cov0 →
  ∃ cov1, ec1 !! i = Some cov1 ∧
          ∀ j, cov0 !! j = Some false → cov1 !! j = Some false.
Proof.
  intros Hnd Hrun Hcov0.
  apply aggressive_reduction_Ok in Hrun as [[_ ->]|(_ & zl & _ & Hloop)].
  { exists cov0. split; [exact Hcov0|]. intros j Hj. exact Hj. }
  destruct (aggressive_loop_Ok _ _ _ _ _ _ Hnd Hloop) as [Hin Hout].
  destruct (decide (i ∈ U_I ∧ i ≠ zl)) as [[Hi Hne]|Hskip].
  - destruct (Hin i Hi Hne) as (cov & row_i & cov1 & Hcov & _ & Hred & Hcov1).
    assert (cov = cov0) as -> by congruence.
    apply reduce_cover_Ok in Hred as [_ Hget].
    exists cov1. split; [exact Hcov1|]. intros j Hj.
    destruct (Hget j false Hj) as (cj' & Hcj' & Hiff). rewrite Hcj'.
    destruct cj'; [|reflexivity].
    destruct Hiff as [Hiff _]. destruct (Hiff eq_refl) as [Habs _].
    discriminate Habs.
  - exists cov0. split; [|intros j Hj; exact Hj].
    rewrite <- Hcov0. apply Hout.
    destruct (decide (i ∈ U_I)) as [Hi|Hi]; [|left; exact Hi].
    right. destruct (decide (i = zl)) as [Hiz|Hiz]; [exact Hiz|].
    exfalso. apply Hskip. split; assumption.
Qed.

(** No default cover contains its own index. *)
Lemma default_covers_self_false `{Collaborators} (alpha A : matrix) (b : list Q)
    (K : list Cone) (m : nat) (U_I N_I : list nat) (ec2 : gmap nat (list bool))
    (i : nat) :
  NoDup U_I → _default_exp_covers alpha A b K m U_I N_I = Ok ec2 → i ∈ U_I →
  ∃ cov, ec2 !! i = Some cov ∧ length cov = m ∧ cov !! i = Some false.
Proof.
  intros Hnd Hrun Hi.
  apply default_exp_covers_Ok in Hrun as (ec0 & ec1 & H0 & H1 & H2).
  destruct (initial_covers_Ok _ _ _ _ Hnd H0) as [Hin0 _].
  destruct (Hin0 i Hi) as (cov0 & Hcov0 & Hinit).
  apply initial_cover_Ok in Hinit as (Hlen0 & Hlt & Hget0).
  assert (Hself0 : cov0 !! i = Some false).
  { rewrite (Hget0 i Hlt). rewrite (bool_decide_eq_true_2 (i = i)); [|reflexivity].
    rewrite andb_false_r. reflexivity. }
  destruct (aggressive_reduction_clears _ _ _ _ _ _ _ Hnd H1 Hcov0)
    as (cov1 & Hcov1 & Hclr1).
  assert (Hlen1 : length cov1 = m).
  { apply aggressive_reduction_Ok in H1 as [[_ ->]|(_ & zl & _ & Hloop)];
      [congruence|].
    destruct (aggressive_loop_Ok _ _ _ _ _ _ Hnd Hloop) as [Hin Hout].
    destruct (decide (i = zl)) as [Hiz|Hiz].
    - rewrite (Hout i (or_intror Hiz)) in Hcov1. congruence.
    - destruct (Hin i Hi Hiz) as (cov & row_i & cov1' & Hcov & _ & Hred & Hcov1').
      apply reduce_cover_Ok in Hred as [Hlen _]. congruence. }
  destruct (eliminate_trivial_Ok _ _ _ _ _ _ _ Hnd H2) as [Hin2 _].
  destruct (Hin2 i Hi) as (cov & Hcov & Hcases).
  assert (cov = cov1) as -> by congruence.
  assert (∃ cov2, ec2 !! i = Some cov2 ∧ length cov2 = m) as (cov2 & Hcov2 & Hlen2).
  { destruct Hcases as [[_ Hsame]|[_ (mat & _ & Hnew)]].
    - exists cov1. split; [exact Hsame|exact Hlen1].
    - eexists. split; [exact Hnew|].
      destruct (is_trivial _); [rewrite length_replicate|]; exact Hlen1. }
  exists cov2. split; [exact Hcov2|]. split; [exact Hlen2|].
  eapply eliminate_trivial_clears;
    [exact Hnd|exact H2|exact Hcov1|exact Hcov2|apply Hclr1; exact Hself0].
Qed.

Lemma ExpCoverHelper_init_dict `{Collaborators} (alpha : matrix) (c : c_arg)
    (A : matrix) (b : list Q) (K : list Cone) (d : gmap nat pyvalue)
    (st : gmap nat (list bool)) (built : constructed) :
  ExpCoverHelper_init alpha c A b K (expcovers_dict d) st = Ok built →
  U_I (helper built) = cls_U_I (classify (length alpha) (c_opt c)) ∧
  expcovers (helper built) = masks_of d (store_after built) ∧
  _verify_exp_covers (U_I (helper built)) d st
    = Ok (store_after built, warnings built).
Proof.
  unfold ExpCoverHelper_init. destruct c; try discriminate; intros Hrun;
    apply bind_Ok in Hrun as ([st' w'] & Hv & Heq); injection Heq as <-; simpl;
    (split; [reflexivity|]); (split; [reflexivity|exact Hv]).
Qed.

(** A verified cover map leaves every must-certify index out of its own
    cover. *)
Lemma supplied_self_cover `{Collaborators} (alpha : matrix) (c : c_arg)
    (A : matrix) (b : list Q) (K : list Cone) (d : gmap nat pyvalue)
    (st : gmap nat (list bool)) (built : constructed) (i : nat) :
  ExpCoverHelper_init alpha c A b K (expcovers_dict d) st = Ok built →
  i ∈ U_I (helper built) →
  ∃ cov, expcovers (helper built) !! i = Some cov ∧ cov !! i = Some false.
Proof.
  intros Hrun Hi.
  apply ExpCoverHelper_init_dict in Hrun as (HU & Hcov & Hv).
  unfold _verify_exp_covers in Hv.
  apply verify_loop_Ok in Hv as (Hkeys & Hst' & _);
    [|rewrite HU; apply NoDup_classify].
  destruct (Hkeys i Hi) as (l & c0 & Hd & Hc0).
  exists (deref (store_after built) l). split.
  - rewrite Hcov. unfold masks_of. rewrite lookup_omap, Hd. reflexivity.
  - rewrite Hst', Hc0. simpl. rewrite bool_decide_eq_true_2.
    + rewrite andb_false_r. reflexivity.
    + split; [exact Hi|exact Hd].
Qed.

(** C5. After every construction of the cover helper, with default covers
    or with a cover map supplied by the caller, [expcovers[i][i]] is false
    for every must-certify index [i]. *)
Theorem self_cover_false `{Collaborators} (alpha : matrix) (c : c_arg)
    (A : matrix) (b : list Q) (K : list Cone) (arg : expcovers_arg)
    (st : gmap nat (list bool)) (built : constructed) :
  ExpCoverHelper_init alpha c A b K arg st = Ok built →
  ∀ i, i ∈ U_I (helper built) →
       ∃ cov, expcovers (helper built) !! i = Some cov ∧ cov !! i = Some false.
Proof.
  intros Hrun i Hi. destruct arg as [|d|].
  - unfold ExpCoverHelper_init in Hrun.
    assert (∃ ec, _default_exp_covers alpha A b K (length alpha)
                    (cls_U_I (classify (length alpha) (c_opt c)))
                    (cls_N_I (classify (length alpha) (c_opt c))) = Ok ec ∧
                  U_I (helper built) = cls_U_I (classify (length alpha) (c_opt c)) ∧
                  expcovers (helper built) = ec) as (ec & Hec & HU & Hcov).
    { destruct c; try discriminate Hrun;
        apply bind_Ok in Hrun as (ec & Hec & Heq); injection Heq as <-;
        exists ec; simpl; (split; [exact Hec|]); split; reflexivity. }
    rewrite HU in Hi. rewrite Hcov.
    destruct (default_covers_self_false _ _ _ _ _ _ _ _ i
                (NoDup_classify _ _) Hec Hi) as (cov & Hc & _ & Hself).
    exists cov. split; [exact Hc|exact Hself].
  - eapply supplied_self_cover; eassumption.
  - unfold ExpCoverHelper_init in Hrun. destruct c; discriminate Hrun.
Qed.



(** ** The degenerate case of the primal compiler *)

Lemma xleb_Fin (x y : Q) : xleb (Fin x) (Fin y) = Qle_bool x y.
Proof.
  unfold xleb. simpl. apply eq_true_iff_eq.
  rewrite orb_true_iff, Qlt_bool_iff, Qeq_bool_iff, Qle_bool_iff.
  split.
  - intros [Hlt|Heq]; [apply Qlt_le_weak; exact Hlt|rewrite Heq; apply Qle_refl].
  - intros Hle. apply Qle_lteq in Hle. exact Hle.
Qed.

Lemma clip_nonnegative_Fin (v : list Q) :
  clip_nonnegative (Fin <$> v) = Fin <$> negative_part v.
Proof.
  unfold clip_nonnegative, negative_part. rewrite <- !list_fmap_compose.
  apply list_fmap_ext. intros _ x _. simpl. rewrite xleb_Fin.
  destruct (Qle_bool 0 x); reflexivity.
Qed.

(** C7. With at most one term (the branch taken when [m > 1] fails, in
    particular when [m = 1]) [conic_form] emits the single constraint
    [c >= 0], and [violation] is the norm of the negative part of the value
    of [c], whatever the mode: [1] for the coefficient [-1] and [0] for the
    coefficient [2]. The method clips [residual], a view of the array [c],
    and takes the norm of [c]. *)
Theorem degenerate_case `{Collaborators} (self : PrimalCondSageCone)
    (env : Atom → Q) (ord : norm_ord) (rough : bool) :
  m self = 1%nat →
  conic_form self
    = Ok (self, [{| call := constraint_ge_0 (c self);
                    offsets := None; cones := None |}]) ∧
  violation self env ord rough
    = xnorm (Fin <$> negative_part (values_of env (c self))) ord ∧
  (c self = [const_expr (-1)] → violation self env ord rough = Ok (Fin 1)) ∧
  (c self = [const_expr 2] → violation self env ord rough = Ok (Fin 0)).
Proof.
  intros Hm.
  assert (Hviol : violation self env ord rough
                  = xnorm (Fin <$> negative_part (values_of env (c self))) ord).
  { unfold violation. rewrite decide_False; [|lia].
    unfold reshape_view. rewrite insert_singleton_eq, !lookup_total_singleton_eq.
    rewrite clip_nonnegative_Fin. reflexivity. }
  split; [|split; [exact Hviol|split]].
  - unfold conic_form. rewrite decide_False; [reflexivity|lia].
  - intros Hc. rewrite Hviol, Hc. destruct ord; reflexivity.
  - intros Hc. rewrite Hviol, Hc. destruct ord; reflexivity.
Qed.

(** ** Maxima *)




Lemma collect_Forall2 {X Y} (f : X → result Y) (xs : list X) (ys : list Y) :
  collect f xs = Ok ys ↔ Forall2 (λ x y, f x = Ok y) xs ys.
Proof.
  revert ys. induction xs as [|x xs IH]; intros ys; simpl.
  - split; [intros Heq; injection Heq as <-; constructor|].
    intros Hall. inversion Hall. reflexivity.
  - split.
    + intros Hrun. apply bind_Ok in Hrun as (y & Hy & Hrun).
      apply bind_Ok in Hrun as (ys' & Hys' & Heq). injection Heq as <-.
      constructor; [exact Hy|apply IH; exact Hys'].
    + intros Hall. inversion Hall as [|x' y xs' ys' Hy Hrest]; subst.
      rewrite Hy. simpl. apply IH in Hrest. rewrite Hrest. reflexivity.
Qed.

(** ** The primal violation, entry by entry *)

Lemma xnorm_raises_empty (l : list xreal) (ord : norm_ord) (e : exn) :
  xnorm l ord = Raise e → l = [] ∧ e = ValueError.
Proof.
  destruct l as [|x l], ord; try discriminate.
  intros Heq. injection Heq as <-. split; reflexivity.
Qed.

















(** ** The dual violation *)

Lemma xleb_refl (a : xreal) : a ≠ NaN → xleb a a = true.
Proof.
  destruct a as [x| | |]; intros Hn; try reflexivity; [|contradiction].
  rewrite xleb_Fin. apply Qle_bool_iff, Qle_refl.
Qed.

Lemma xleb_of_xltb (a b : xreal) : xltb a b = true → xleb a b = true.
Proof. unfold xleb. intros ->. reflexivity. Qed.

Lemma xleb_of_not_xltb (a b : xreal) :
  a ≠ NaN → b ≠ NaN → xltb a b = false → xleb b a = true.
Proof.
  destruct a as [x| | |], b as [y| | |]; intros Ha Hb Hlt;
    try reflexivity; try contradiction; try discriminate Hlt.
  rewrite xleb_Fin. apply Qle_bool_iff. apply Qnot_lt_le. intros Hxy.
  apply Qlt_bool_iff in Hxy. simpl in Hlt. congruence.
Qed.

Lemma xleb_trans (a b c : xreal) :
  xleb a b = true → xleb b c = true → xleb a c = true.
Proof.
  destruct a as [x| | |], b as [y| | |], c as [z| | |]; intros Hab Hbc;
    try reflexivity; try discriminate Hab; try discriminate Hbc.
  rewrite xleb_Fin in *. apply Qle_bool_iff. apply Qle_bool_iff in Hab, Hbc.
  eapply Qle_trans; eassumption.
Qed.

Lemma py_max2_not_nan (a b : xreal) : a ≠ NaN → b ≠ NaN → py_max2 a b ≠ NaN.
Proof. unfold py_max2. intros Ha Hb. destruct (xltb a b); assumption. Qed.

Lemma foldl_py_max2_spec (l : list xreal) (x : xreal) :
  x ≠ NaN → (∀ a, a ∈ l → a ≠ NaN) →
  (foldl py_max2 x l = x ∨ foldl py_max2 x l ∈ l) ∧
  xleb x (foldl py_max2 x l) = true ∧
  ∀ a, a ∈ l → xleb a (foldl py_max2 x l) = true.
Proof.
  revert x. induction l as [|y l IH]; intros x Hx Hl; simpl.
  - split; [left; reflexivity|]. split; [apply xleb_refl; exact Hx|].
    intros a Ha. inversion Ha.
  - assert (Hy : y ≠ NaN) by (apply Hl; left).
    assert (Hl' : ∀ a, a ∈ l → a ≠ NaN) by (intros a Ha; apply Hl; right; exact Ha).
    destruct (IH (py_max2 x y) (py_max2_not_nan x y Hx Hy) Hl')
      as (Hmem & Hle & Hbound).
    assert (Hxm : xleb x (py_max2 x y) = true).
    { unfold py_max2. destruct (xltb x y) eqn:Hlt;
        [apply xleb_of_xltb; exact Hlt|apply xleb_refl; exact Hx]. }
    assert (Hym : xleb y (py_max2 x y) = true).
    { unfold py_max2. destruct (xltb x y) eqn:Hlt;
        [apply xleb_refl; exact Hy|apply xleb_of_not_xltb; assumption]. }
    split; [|split].
    + destruct Hmem as [Heq|Hmem]; [|right; right; exact Hmem].
      rewrite Heq. unfold py_max2. destruct (xltb x y); [right; left|left; reflexivity].
    + eapply xleb_trans; [exact Hxm|exact Hle].
    + intros a Ha. apply elem_of_cons in Ha as [->|Ha];
        [eapply xleb_trans; [exact Hym|exact Hle]|apply Hbound; exact Ha].
Qed.

Lemma py_max_spec (l : list xreal) :
  l ≠ [] → (∀ a, a ∈ l → a ≠ NaN) →
  ∃ mx, py_max l = Ok mx ∧ mx ∈ l ∧ ∀ a, a ∈ l → xleb a mx = true.
Proof.
  intros Hne Hl. destruct l as [|x l]; [contradiction|].
  destruct (foldl_py_max2_spec l x) as (Hmem & Hle & Hbound).
  - apply Hl. left.
  - intros a Ha. apply Hl. right. exact Ha.
  - exists (foldl py_max2 x l). split; [reflexivity|]. split.
    + destruct Hmem as [->|Hmem]; [left|right; exact Hmem].
    + intros a Ha. apply elem_of_cons in Ha as [->|Ha]; [exact Hle|].
      apply Hbound. exact Ha.
Qed.

(** C9, as the specification states it, fails on a must-certify term whose
    cover is empty: for term [1] of [two_term_dual], with every entry of
    [mu] at [-1], the point [A mu_1 + v_1 b = (-1, -1)] is at distance [2]
    from the cone, the clipped residual is empty, and the method returns
    [0]. *)
Lemma empty_cover_dual_violation :
  let self := two_term_dual in
  let v_val := values_of env_example (v self) in
  1%nat ∈ U_I (dual_ech self) ∧
  expcovers (dual_ech self) !! 1%nat = Some [false; false] ∧
  @_dual_age_cone_violation failing_solver self env_example 1 ord_1 true v_val
    = Ok (Fin 0) ∧
  @claimed_dual_term_violation failing_solver self env_example 1 ord_1 v_val
    = Ok (Fin 2) ∧
  @_dual_age_cone_violation failing_solver self env_example 1 ord_1 true v_val
    ≠ @claimed_dual_term_violation failing_solver self env_example 1 ord_1 v_val.
Proof.
  cbv zeta.
  assert (HU : U_I (dual_ech two_term_dual) = [0%nat; 1%nat])
    by (vm_compute; reflexivity).
  assert (Hcode :
    @_dual_age_cone_violation failing_solver two_term_dual env_example 1 ord_1
      true (values_of env_example (v two_term_dual)) = Ok (Fin 0))
    by (vm_compute; reflexivity).
  assert (Hclaim :
    @claimed_dual_term_violation failing_solver two_term_dual env_example 1
      ord_1 (values_of env_example (v two_term_dual)) = Ok (Fin 2))
    by (vm_compute; reflexivity).
  split; [rewrite HU; right; left|].
  split; [vm_compute; reflexivity|].
  split; [exact Hcode|]. split; [exact Hclaim|].
  rewrite Hcode, Hclaim. discriminate.
Qed.

(** C9, amended: for a must-certify term whose cover is nonempty, on arrays
    of the shapes the constructor gives them, the rough per-term violation
    is the norm of the lower-bound residual clipped to the violating side
    plus the membership violation of the point [A mu_i + v_i b]; for a term
    whose cover is empty it is [0], in either mode. The violation returned
    is Python's maximum of the per-term values over the must-certify terms,
    in their order: when there is at least one term and no value is [nan],
    it is one of the values and bounds them all. *)
Theorem dual_rough_violation `{Collaborators} (self : DualCondSageCone)
    (env : Atom → Q) (ord : norm_ord) :
  let v_val := values_of env (v self) in
  (∀ i selector lifted_mu_i,
     expcovers (dual_ech self) !! i = Some selector →
     lifted_mu_vars self !! i = Some lifted_mu_i →
     (0 < count_nonzero selector)%nat →
     let mu_i := values_of env lifted_mu_i in
     dual_shapes_fit self i selector mu_i v_val →
     ∃ v_i res pt nrm,
       v_val !! i = Some v_i ∧
       is_clipped_residual (dual_lifted_alpha self) selector i mu_i v_val res ∧
       is_AbK_point (dual_A self) (dual_b self) mu_i v_i pt ∧
       xnorm res ord = Ok nrm ∧
       _dual_age_cone_violation self env i ord true v_val
       = Ok (xadd nrm (PrimalProductCone_project pt (dual_K self)))) ∧
  (∀ i selector, expcovers (dual_ech self) !! i = Some selector →
     count_nonzero selector = 0%nat →
     ∀ rough, _dual_age_cone_violation self env i ord rough v_val = Ok (Fin 0)) ∧
  (∀ rough viols,
     Forall2 (λ i x, _dual_age_cone_violation self env i ord rough v_val = Ok x)
             (U_I (dual_ech self)) viols →
     dual_violation self env ord rough = py_max viols ∧
     (viols ≠ [] → (∀ a, a ∈ viols → a ≠ NaN) →
        ∃ mx, dual_violation self env ord rough = Ok mx ∧ mx ∈ viols ∧
              ∀ a, a ∈ viols → xleb a mx = true)).
Proof.
  intros v_val. split; [|split].
  - intros i selector lifted_mu_i Hsel Hmu Hpos mu_i
      (Hlv & Hla & Hi & Hb & _ & _).
    destruct (lookup_lt_is_Some_2 v_val i) as [v_i Hv_i]; [lia|].
    destruct (cover_matrix_total (dual_lifted_alpha self) selector i)
      as (diff & Hdiff); [exact Hla|lia|].
    destruct (cover_matrix_rows _ _ _ _ Hdiff) as (row_i & Hrow_i & Hlen & Hrows).
    set (res := relent_residual (neg_matrix diff) mu_i v_i (select v_val selector)).
    assert (Hres_len : length res = count_nonzero selector).
    { unfold res, relent_residual, clip_nonnegative, mat_vec, neg_matrix.
      repeat first [rewrite length_fmap|rewrite length_zip_with|rewrite length_map].
      rewrite Hlen, length_select by (symmetry; exact Hlv). lia. }
    assert (Hnorm : ∃ nrm, xnorm res ord = Ok nrm).
    { destruct (xnorm res ord) as [nrm|e] eqn:Hn; [exists nrm; reflexivity|].
      apply xnorm_raises_empty in Hn as [Hn _]. rewrite Hn in Hres_len.
      simpl in Hres_len. lia. }
    destruct Hnorm as (nrm & Hnrm).
    exists v_i, res, (AbK_val (dual_A self) (dual_b self) mu_i v_i), nrm.
    split; [exact Hv_i|]. split; [|split; [|split; [exact Hnrm|]]].
    + split; [exact Hres_len|]. intros k j Hk.
      destruct (Hrows k j Hk) as (row_j & Hrow_j & Hdk).
      destruct (select_indices v_val selector k j (eq_sym Hlv) Hk)
        as (v_j & Hv_j & Hsk).
      exists row_i, row_j, v_i, v_j.
      split; [exact Hrow_i|]. split; [exact Hrow_j|].
      split; [exact Hv_i|]. split; [exact Hv_j|]. cbv zeta.
      unfold res, relent_residual, clip_nonnegative, mat_vec.
      change (neg_matrix diff) with (fmap (M:=list) (fmap (M:=list) Qopp) diff).
      rewrite list_lookup_fmap, lookup_zip_with, !list_lookup_fmap, Hdk, Hsk.
      reflexivity.
    + split.
      * unfold AbK_val, vec_add, mat_vec.
        rewrite length_zip_with, !length_fmap. lia.
      * intros r row b_r Hrow Hb_r. unfold AbK_val, vec_add, mat_vec.
        rewrite lookup_zip_with, !list_lookup_fmap, Hrow, Hb_r. reflexivity.
    + unfold _dual_age_cone_violation.
      apply dict_get_Ok in Hsel. rewrite Hsel, ret_bind. cbv beta zeta.
      rewrite decide_True by exact Hpos.
      apply getitem_Ok in Hv_i. rewrite Hv_i, ret_bind. cbv beta.
      rewrite (proj2 (getmask_Ok v_val selector (select v_val selector)))
        by (split; [exact Hlv|reflexivity]).
      rewrite ret_bind. cbv beta. rewrite Hdiff, ret_bind. cbv beta.
      apply dict_get_Ok in Hmu. rewrite Hmu, ret_bind. cbv beta.
      fold mu_i. fold res. rewrite Hnrm, ret_bind. cbv beta.
      rewrite andb_false_r. reflexivity.
  - intros i selector Hsel Hzero rough. apply dict_get_Ok in Hsel.
    unfold _dual_age_cone_violation.
    rewrite Hsel. simpl. rewrite decide_False; [reflexivity|lia].
  - intros rough viols Hviols. apply collect_Forall2 in Hviols.
    assert (Hshape : dual_violation self env ord rough = py_max viols).
    { unfold dual_violation. fold v_val. rewrite Hviols. reflexivity. }
    split; [exact Hshape|]. intros Hne Hnan. rewrite Hshape.
    apply py_max_spec; assumption.
Qed.

(** ** The blocks of the primal compiler *)

Lemma length_scatter {X} (a : list X) (mask : list bool) (src : list X) :
  length (scatter a mask src) = length a.
Proof.
  revert mask src. induction a as [|x a IH]; intros [|t mask] src; simpl;
    try reflexivity.
  destruct t; [destruct src|]; simpl; rewrite IH; reflexivity.
Qed.

Lemma setmask_Ok {X} (a a' : list X) (mask : list bool) (src : list X) :
  setmask a mask src = Ok a' → length a' = length a ∧ length mask = length a.
Proof.
  unfold setmask. destruct (decide (length mask = length a)) as [Hlen|]; [|discriminate].
  destruct (decide (length src = count_nonzero mask)).
  - intros Heq. injection Heq as <-. split; [apply length_scatter|exact Hlen].
  - destruct src as [|y [|z src]]; try discriminate.
    intros Heq. injection Heq as <-. split; [apply length_scatter|exact Hlen].
Qed.















Lemma ExpCoverHelper_init_classes `{Collaborators} (alpha : matrix) (c : c_arg)
    (A : matrix) (b : list Q) (K : list Cone) (arg : expcovers_arg)
    (st : gmap nat (list bool)) (built : constructed) :
  ExpCoverHelper_init alpha c A b K arg st = Ok built →
  U_I (helper built) = cls_U_I (classify (length alpha) (c_opt c)) ∧
  N_I (helper built) = cls_N_I (classify (length alpha) (c_opt c)) ∧
  P_I (helper built) = cls_P_I (classify (length alpha) (c_opt c)).
Proof.
  unfold ExpCoverHelper_init. intros Hrun.
  destruct c; try discriminate Hrun; destruct arg; try discriminate Hrun;
    apply bind_Ok in Hrun as (r & _ & Heq); injection Heq as <-; simpl;
    repeat split.
Qed.

Lemma PrimalCondSageCone_init_Ok `{Collaborators} (c0 : Expression)
    (alpha A0 : matrix) (b0 : list Q) (K0 : list Cone) (arg : expcovers_arg)
    (st : gmap nat (list bool)) (built : primal_constructed) :
  PrimalCondSageCone_init c0 alpha A0 b0 K0 arg st = Ok built →
  age_vectors (primal built) = [] ∧
  c (primal built) = c0 ∧
  m (primal built) = length alpha ∧
  U_I (ech (primal built)) = indices_where must_certify c0 ∧
  N_I (ech (primal built)) = indices_where definite_negative c0.
Proof.
  unfold PrimalCondSageCone_init. intros Hrun.
  apply bind_Ok in Hrun as (K' & _ & Hrun).
  apply bind_Ok in Hrun as (h & Hh & Hrun).
  apply bind_Ok in Hrun as (tv & _ & Hrun). injection Hrun as <-. simpl.
  apply ExpCoverHelper_init_classes in Hh as (HU & HN & _). simpl in HU, HN.
  repeat split; assumption.
Qed.


(** ** [conic_form] returns on a default construction *)









(** * The statements at concrete inputs *)

Ltac by_decide :=
  match goal with
  | |- ?P => apply (@bool_decide_unpack P _); vm_compute; exact I
  end.

Ltac members H :=
  repeat (apply elem_of_cons in H as [-> | H]); [..|inversion H].

(** The default covers of [alpha3]: the reduction removes the two monomials
    from each other's cover. *)
Example default_covers_alpha3 :
  @_default_exp_covers failing_solver alpha3 A2 b2 K2 3 [0; 1; 2]%nat []
  = Ok {[ 0%nat := [false; true; true];
          1%nat := [true; false; false];
          2%nat := [true; false; false] ]}.
Proof. vm_compute. reflexivity. Qed.

(** With two zero rows, only the first survives in the covers of the
    others; the second zero row, orthogonal to every row, keeps the first
    zero row alone in its own cover. *)
Example default_covers_alpha4 :
  @_default_exp_covers failing_solver alpha4 A2 b2 K2 4 [0; 1; 2; 3]%nat []
  = Ok {[ 0%nat := [false; true; true; true];
          1%nat := [true; false; false; false];
          2%nat := [true; false; false; false];
          3%nat := [true; false; false; false] ]}.
Proof. vm_compute. reflexivity. Qed.


Lemma eliminate_trivial_spec_witness :
  ∃ ec2,
    @eliminate_trivial unbounded_solver alpha3 A2 b2 K2 [0; 1; 2]%nat covers3
      = Ok ec2 ∧
    ec2 !! 1%nat = Some [false; false; false].
Proof.
  destruct (@eliminate_trivial_spec unbounded_solver alpha3 A2 b2 K2
              [0; 1; 2]%nat covers3) as (ec2 & Hrun & Hspec).
  - by_decide.
  - intros i Hi. members Hi; (split; [simpl; lia|]); eexists;
      (split; [reflexivity|reflexivity]).
  - exists ec2. split; [exact Hrun|].
    destruct (Hspec 1%nat [true; false; true]) as [_ Hany];
      [right; left|reflexivity|].
    destruct (Hany eq_refl) as (mat & _ & Hiff & _).
    apply Hiff. split; reflexivity.
Defined.

Lemma dual_rough_violation_witness :
  let v_val := values_of env_example (v two_term_dual) in
  let mu_0 := values_of env_example (mk_Variable (mu_var 0) 2) in
  ∃ v_i res pt nrm,
    v_val !! 0%nat = Some v_i ∧
    @is_clipped_residual failing_solver (dual_lifted_alpha two_term_dual)
      [false; true] 0 mu_0 v_val res ∧
    is_AbK_point (dual_A two_term_dual) (dual_b two_term_dual) mu_0 v_i pt ∧
    xnorm res ord_1 = Ok nrm ∧
    @_dual_age_cone_violation failing_solver two_term_dual env_example 0 ord_1
      true v_val
    = Ok (xadd nrm (@PrimalProductCone_project failing_solver pt
                      (dual_K two_term_dual))).
Proof.
  apply (proj1 (@dual_rough_violation failing_solver two_term_dual env_example
                  ord_1) 0%nat [false; true] (mk_Variable (mu_var 0) 2)).
  - vm_compute. reflexivity.
  - vm_compute. reflexivity.
  - vm_compute. lia.
  - split; [reflexivity|]. split; [reflexivity|]. split; [simpl; lia|].
    split; [reflexivity|]. split.
    + intros row Hrow.
      change (dual_lifted_alpha two_term_dual) with [[0; 0]; [1; 0]] in Hrow.
      members Hrow; reflexivity.
    + intros row Hrow. change (dual_A two_term_dual) with A2 in Hrow.
      unfold A2 in Hrow. members Hrow; reflexivity.
Defined.

Lemma self_cover_false_witness :
  warnings aliased_built = [0; 1]%nat ∧
  store_after aliased_built !! 7%nat = Some [false; false] ∧
  ∀ i, i ∈ U_I (helper aliased_built) →
       ∃ cov, expcovers (helper aliased_built) !! i = Some cov ∧
              cov !! i = Some false.
Proof.
  split; [vm_compute; reflexivity|]. split; [vm_compute; reflexivity|].
  apply (@self_cover_false failing_solver [[0; 0]; [1; 0]]
           (c_Expression (free_c 2)) A2 b2 K2 (expcovers_dict aliased_dict)
           aliased_store aliased_built).
  vm_compute. reflexivity.
Defined.

Lemma degenerate_case_witness :
  m single_term_primal = 1%nat ∧
  @violation failing_solver single_term_primal (λ _, 0) ord_inf true = Ok (Fin 1) ∧
  @violation failing_solver single_term_primal (λ _, 0) ord_inf false = Ok (Fin 1).
Proof.
  assert (Hm : m single_term_primal = 1%nat) by (vm_compute; reflexivity).
  split; [exact Hm|]. split.
  - destruct (@degenerate_case failing_solver single_term_primal (λ _, 0)
                ord_inf true Hm) as (_ & _ & Hneg & _).
    apply Hneg. vm_compute. reflexivity.
  - destruct (@degenerate_case failing_solver single_term_primal (λ _, 0)
                ord_inf false Hm) as (_ & _ & Hneg & _).
    apply Hneg. vm_compute. reflexivity.
Defined.




(** * Further properties of the module *)

(** ** Cone validation *)

Lemma check_cones_supported (K : list Cone) :
  all_supported K → check_cones K = Ok K.
Proof.
  intros Hall. unfold check_cones.
  assert (Hno : existsb (λ co, negb (_ALLOWED_CONES_ (type co))) K = false).
  { induction K as [|co K IH]; simpl; [reflexivity|].
    rewrite IH by (intros co' Hco'; apply Hall; right; exact Hco').
    destruct (Hall co) as [Ht|[Ht|[Ht|Ht]]]; [left|..]; rewrite Ht; reflexivity. }
  rewrite Hno. f_equal. clear. induction K as [|[t l] K IH]; simpl; [reflexivity|].
  f_equal. exact IH.
Qed.

Lemma check_cones_unsupported (K : list Cone) :
  ¬ all_supported K → check_cones K = Raise NotImplementedError.
Proof.
  intros Hno. unfold check_cones.
  destruct (existsb (λ co, negb (_ALLOWED_CONES_ (type co))) K) eqn:Hex;
    [reflexivity|].
  exfalso. apply Hno. clear Hno.
  induction K as [|co K IH]; [intros co Hco; inversion Hco|].
  simpl in Hex. apply orb_false_iff in Hex as [Hco Hex].
  intros co' Hco'. apply elem_of_cons in Hco' as [->|Hco']; [|apply IH; assumption].
  destruct (type co) as [| | | |tag]; [tauto..|discriminate Hco].
Qed.

(** X1. [check_cones] returns its argument unchanged when every cone is of
    type ['+'], ['S'], ['e'] or ['0'], and raises [NotImplementedError] as
    soon as one cone has any other type; with such a cone both constructors
    raise that error whatever their other arguments are. *)
Theorem unsupported_cone_rejected `{Collaborators} (K0 : list Cone) :
  (all_supported K0 → check_cones K0 = Ok K0) ∧
  (¬ all_supported K0 →
     check_cones K0 = Raise NotImplementedError ∧
     (∀ c0 alpha A0 b0 arg st,
        PrimalCondSageCone_init c0 alpha A0 b0 K0 arg st
        = Raise NotImplementedError) ∧
     (∀ v0 alpha A0 b0 c0 arg st,
        DualCondSageCone_init v0 alpha A0 b0 K0 c0 arg st
        = Raise NotImplementedError)).
Proof.
  split; [apply check_cones_supported|].
  intros Hno. pose proof (check_cones_unsupported K0 Hno) as Hraise.
  split; [exact Hraise|]. split.
  - intros c0 alpha A0 b0 arg st. unfold PrimalCondSageCone_init.
    rewrite Hraise. reflexivity.
  - intros v0 alpha A0 b0 c0 arg st. unfold DualCondSageCone_init.
    rewrite Hraise. reflexivity.
Qed.

(** ** Order of the sign classes *)

Lemma indices_from_increasing {X} (q : nat * X → bool) (l : list X) (s : nat) :
  increasing (List.filter q (zip (seq s (length l)) l)).*1 ∧
  ∀ i, i ∈ (List.filter q (zip (seq s (length l)) l)).*1 → (s ≤ i)%nat.
Proof.
  revert s. induction l as [|x l IH]; intros s; simpl.
  - split; [intros k1 k2 i j _ Hi; discriminate Hi|intros i Hi; inversion Hi].
  - destruct (IH (S s)) as [Hinc Hge].
    destruct (q (s, x)); simpl.
    + split.
      * intros [|k1] [|k2] i j Hk Hi Hj; simpl in Hi, Hj; try lia.
        -- injection Hi as <-. apply list_elem_of_lookup_2 in Hj.
           apply Hge in Hj. lia.
        -- apply (Hinc k1 k2); [lia|exact Hi|exact Hj].
      * intros i Hi. apply elem_of_cons in Hi as [->|Hi]; [lia|].
        apply Hge in Hi. lia.
    + split; [exact Hinc|]. intros i Hi. apply Hge in Hi. lia.
Qed.

Lemma indices_where_increasing {X} (p : X → bool) (l : list X) :
  increasing (indices_where p l).
Proof. apply (indices_from_increasing (λ ic, p ic.2) l 0). Qed.

Lemma seq_increasing (s k : nat) : increasing (seq s k).
Proof.
  intros k1 k2 i j Hk Hi Hj.
  apply lookup_seq in Hi as [-> _]. apply lookup_seq in Hj as [-> _]. lia.
Qed.

(** X2. The three index lists of the sign classification are strictly
    increasing, hence free of duplicates, and their entries are indices of
    the coefficient vector (of [0..m-1] when no vector is supplied). *)
Theorem classes_increasing (m0 : nat) (c0 : option Expression) :
  let cls := classify m0 c0 in
  let bound := match c0 with Some e => length e | None => m0 end in
  increasing (cls_U_I cls) ∧ increasing (cls_N_I cls) ∧ increasing (cls_P_I cls) ∧
  NoDup (cls_U_I cls) ∧ NoDup (cls_N_I cls) ∧ NoDup (cls_P_I cls) ∧
  ∀ i, i ∈ cls_U_I cls ∨ i ∈ cls_N_I cls ∨ i ∈ cls_P_I cls → (i < bound)%nat.
Proof.
  destruct c0 as [e|]; simpl.
  - repeat split; try apply indices_where_increasing;
      try apply NoDup_indices_where.
    intros i [Hi|[Hi|Hi]]; apply indices_where_lt in Hi; exact Hi.
  - repeat split; try apply seq_increasing; try apply NoDup_seq;
      try apply NoDup_nil_2; try (intros k1 k2 i j _ Hi; discriminate Hi).
    intros i [Hi|[Hi|Hi]]; [|inversion Hi|inversion Hi].
    apply elem_of_seq in Hi. lia.
Qed.

(** ** Shape of the default cover map *)

Lemma ExpCoverHelper_init_default `{Collaborators} (alpha : matrix) (c : c_arg)
    (A : matrix) (b : list Q) (K : list Cone) (st : gmap nat (list bool))
    (built : constructed) :
  ExpCoverHelper_init alpha c A b K expcovers_None st = Ok built →
  _default_exp_covers alpha A b K (length alpha) (U_I (helper built))
    (N_I (helper built)) = Ok (expcovers (helper built)) ∧
  U_I (helper built) = cls_U_I (classify (length alpha) (c_opt c)) ∧
  N_I (helper built) = cls_N_I (classify (length alpha) (c_opt c)) ∧
  store_after built = st ∧ warnings built = [].
Proof.
  unfold ExpCoverHelper_init. intros Hrun.
  destruct c; try discriminate Hrun;
    apply bind_Ok in Hrun as (ec & Hec & Heq); injection Heq as <-; simpl;
    repeat split; exact Hec.
Qed.

(** A true entry of a final default cover was true from the start: it is
    neither the term itself nor a definite-negative index. *)
Lemma default_cover_true `{Collaborators} (alpha A : matrix) (b : list Q)
    (K : list Cone) (m : nat) (U_I N_I : list nat) (ec2 : gmap nat (list bool))
    (i j : nat) (cov : list bool) :
  NoDup U_I → _default_exp_covers alpha A b K m U_I N_I = Ok ec2 →
  ec2 !! i = Some cov → cov !! j = Some true → j ≠ i ∧ j ∉ N_I.
Proof.
  intros Hnd Hrun Hcov Hj.
  assert (Hi : i ∈ U_I).
  { eapply default_covers_domain; [exact Hnd|exact Hrun|]. exists cov. exact Hcov. }
  destruct (default_covers_self_false _ _ _ _ _ _ _ _ i Hnd Hrun Hi)
    as (cov' & Hcov' & Hlen & _).
  assert (cov' = cov) as -> by congruence.
  assert (Hjm : (j < m)%nat) by (apply lookup_lt_Some in Hj; lia).
  apply default_exp_covers_Ok in Hrun as (ec0 & ec1 & H0 & H1 & H2).
  destruct (initial_covers_Ok _ _ _ _ Hnd H0) as [Hin0 _].
  destruct (Hin0 i Hi) as (cov0 & Hcov0 & Hinit).
  apply initial_cover_Ok in Hinit as (_ & _ & Hget0).
  destruct (aggressive_reduction_clears _ _ _ _ _ _ _ Hnd H1 Hcov0)
    as (cov1 & Hcov1 & Hclr1).
  pose proof (Hget0 j Hjm) as Hj0.
  destruct (bool_decide (j ∈ N_I)) eqn:HN; simpl in Hj0.
  { pose proof (eliminate_trivial_clears _ _ _ _ _ _ _ i j cov1 cov Hnd H2
                  Hcov1 Hcov (Hclr1 j Hj0)) as Hfalse. congruence. }
  destruct (bool_decide (j = i)) eqn:Hji; simpl in Hj0.
  { pose proof (eliminate_trivial_clears _ _ _ _ _ _ _ i j cov1 cov Hnd H2
                  Hcov1 Hcov (Hclr1 j Hj0)) as Hfalse. congruence. }
  apply bool_decide_eq_false in HN, Hji. split; assumption.
Qed.

(** X3. A construction with default covers leaves the caller's store alone
    and issues no warning; the cover map has exactly the must-certify
    indices as keys, every mask is as long as the exponent matrix, and a
    term in the cover of [i] is neither [i] nor a definite-negative index. *)
Theorem default_covers_shape `{Collaborators} (alpha : matrix) (c : c_arg)
    (A : matrix) (b : list Q) (K : list Cone) (st : gmap nat (list bool))
    (built : constructed) :
  ExpCoverHelper_init alpha c A b K expcovers_None st = Ok built →
  store_after built = st ∧ warnings built = [] ∧
  (∀ i, is_Some (expcovers (helper built) !! i) ↔ i ∈ U_I (helper built)) ∧
  ∀ i cov, expcovers (helper built) !! i = Some cov →
    length cov = length alpha ∧
    ∀ j, cov !! j = Some true → j ≠ i ∧ j ∉ N_I (helper built).
Proof.
  intros Hrun.
  apply ExpCoverHelper_init_default in Hrun as (Hec & HU & HN & Hst & Hw).
  assert (Hnd : NoDup (U_I (helper built)))
    by (rewrite HU; apply NoDup_classify).
  split; [exact Hst|]. split; [exact Hw|]. split.
  - intros i. split.
    + intros Hsome. eapply default_covers_domain; eassumption.
    + intros Hi.
      destruct (default_covers_self_false _ _ _ _ _ _ _ _ i Hnd Hec Hi)
        as (cov & Hcov & _). exists cov. exact Hcov.
  - intros i cov Hcov.
    assert (Hi : i ∈ U_I (helper built)).
    { eapply default_covers_domain; [exact Hnd|exact Hec|]. exists cov. exact Hcov. }
    destruct (default_covers_self_false _ _ _ _ _ _ _ _ i Hnd Hec Hi)
      as (cov' & Hcov' & Hlen & _).
    split; [congruence|]. intros j Hj.
    exact (default_cover_true _ _ _ _ _ _ _ _ i j cov Hnd Hec Hcov Hj).
Qed.

Lemma default_covers_shape_witness :
  store_after default3_built = ∅ ∧ warnings default3_built = [] ∧
  (∀ i, is_Some (expcovers (helper default3_built) !! i)
        ↔ i ∈ U_I (helper default3_built)) ∧
  ∀ i cov, expcovers (helper default3_built) !! i = Some cov →
    length cov = 3%nat ∧
    ∀ j, cov !! j = Some true → j ≠ i ∧ j ∉ N_I (helper default3_built).
Proof.
  apply (@default_covers_shape failing_solver alpha3 (c_Expression (free_c 3))
           A2 b2 K2 ∅ default3_built).
  vm_compute. reflexivity.
Defined.



Lemma setitem_empty {X} (i : nat) (x : X) : setitem [] i x = Raise IndexError.
Proof. unfold setitem. rewrite decide_False; [reflexivity|simpl; lia]. Qed.

(** X5. With default covers, an exponent matrix without rows makes the
    construction of the cover helper raise: a [ValueError] when no term is
    must-certify ([np.min] of the empty vector of row sums), and an
    [IndexError] otherwise (the first assignment into a cover of length
    zero is out of range). *)
Theorem no_rows_rejected `{Collaborators} (c : option Expression) (A : matrix)
    (b : list Q) (K : list Cone) (st : gmap nat (list bool)) :
  (cls_U_I (classify 0 c) = [] →
   ExpCoverHelper_init [] (c_arg_of c) A b K expcovers_None st = Raise ValueError) ∧
  (cls_U_I (classify 0 c) ≠ [] →
   ExpCoverHelper_init [] (c_arg_of c) A b K expcovers_None st = Raise IndexError).
Proof.
  assert (Hinit : ExpCoverHelper_init [] (c_arg_of c) A b K expcovers_None st
    = (ec ← _default_exp_covers [] A b K 0 (cls_U_I (classify 0 c))
              (cls_N_I (classify 0 c));
       Ok {| helper :=
               {| ech_alpha := []; ech_A := A; ech_b := b; ech_K := K;
                  ech_m := 0%nat; ech_c := c; U_I := cls_U_I (classify 0 c);
                  N_I := cls_N_I (classify 0 c); P_I := cls_P_I (classify 0 c);
                  expcovers := ec |};
             store_after := st; warnings := [] |})).
  { destruct c; reflexivity. }
  assert (Hdef : ∀ U N,
            (U = [] → _default_exp_covers [] A b K 0 U N = Raise ValueError) ∧
            (U ≠ [] → _default_exp_covers [] A b K 0 U N = Raise IndexError)).
  { intros U N. split; [intros ->; reflexivity|]. intros HU.
    destruct U as [|i U]; [contradiction|].
    assert (Hcov : initial_cover 0 N i = Raise IndexError).
    { unfold initial_cover, setitems. change (np_ones 0) with (@nil bool).
      destruct N as [|j N]; cbn [for_each].
      - rewrite ret_bind. apply setitem_empty.
      - rewrite setitem_empty. reflexivity. }
    unfold _default_exp_covers, initial_covers. simpl. rewrite Hcov.
    reflexivity. }
  rewrite Hinit.
  destruct (Hdef (cls_U_I (classify 0 c)) (cls_N_I (classify 0 c)))
    as [Hval Hidx].
  split.
  - intros HU. rewrite (Hval HU). reflexivity.
  - intros HU. rewrite (Hidx HU). reflexivity.
Qed.

(** ** The reductions are idempotent *)

Lemma reduce_loop_bound (alpha : matrix) (zero_loc : nat) (row : list Q)
    (k s : nat) (cov cov' : list bool) :
  for_each (λ cov j,
      cj ← getitem cov j;
      if cj && negb (j =? zero_loc)%nat then
        row_j ← getitem alpha j;
        if Qeq_bool (dot row row_j) 0 then setitem cov j false else Ok cov
      else Ok cov) (seq s k) cov = Ok cov' →
  (k = 0 ∨ s + k ≤ length cov)%nat.
Proof.
  revert s cov. induction k as [|k IH]; intros s cov Hrun; [left; reflexivity|].
  right. simpl in Hrun. apply bind_Ok in Hrun as (cov1 & Hbody & Hrest).
  apply reduce_body_Ok in Hbody as (Hlen1 & _ & cs & _ & Hcs & _).
  apply lookup_lt_Some in Hcs.
  destruct (IH _ _ Hrest) as [->|Hle]; lia.
Qed.

Lemma reduce_loop_fixed (alpha : matrix) (zero_loc : nat) (row : list Q)
    (k s : nat) (cov : list bool) :
  (∀ j, (s ≤ j < s + k)%nat →
     ∃ cj, cov !! j = Some cj ∧
       (cj = true → j ≠ zero_loc →
        ∃ row_j, alpha !! j = Some row_j ∧ Qeq_bool (dot row row_j) 0 = false)) →
  for_each (λ cov j,
      cj ← getitem cov j;
      if cj && negb (j =? zero_loc)%nat then
        row_j ← getitem alpha j;
        if Qeq_bool (dot row row_j) 0 then setitem cov j false else Ok cov
      else Ok cov) (seq s k) cov = Ok cov.
Proof.
  revert s. induction k as [|k IH]; intros s Hfix; [reflexivity|].
  simpl. destruct (Hfix s) as (cs & Hcs & Hkeep); [lia|].
  apply getitem_Ok in Hcs. rewrite Hcs, ret_bind. cbv beta.
  assert (Hstep : (if cs && negb (s =? zero_loc)%nat
                   then row_j ← getitem alpha s;
                        if Qeq_bool (dot row row_j) 0
                        then setitem cov s false else Ok cov
                   else Ok cov) = Ok cov).
  { destruct cs; simpl; [|reflexivity].
    destruct (s =? zero_loc)%nat eqn:Hz; simpl; [reflexivity|].
    apply Nat.eqb_neq in Hz.
    destruct (Hkeep eq_refl Hz) as (row_s & Hrow & Hdot).
    apply getitem_Ok in Hrow. rewrite Hrow, ret_bind. cbv beta.
    rewrite Hdot. reflexivity. }
  rewrite Hstep, ret_bind. cbv beta. apply IH.
  intros j Hj. apply Hfix. lia.
Qed.

Lemma reduce_cover_idempotent (alpha : matrix) (zero_loc : nat) (row : list Q)
    (cov0 cov1 : list bool) :
  reduce_cover alpha (length alpha) zero_loc row cov0 = Ok cov1 →
  reduce_cover alpha (length alpha) zero_loc row cov1 = Ok cov1.
Proof.
  intros Hrun. unfold reduce_cover.
  pose proof Hrun as Hbound. unfold reduce_cover in Hbound.
  apply reduce_loop_bound in Hbound.
  apply reduce_cover_Ok in Hrun as [Hlen Hget].
  apply reduce_loop_fixed. intros j [_ Hj]. simpl in Hj.
  destruct (lookup_lt_is_Some_2 cov0 j) as [cj Hcj]; [lia|].
  destruct (Hget j cj Hcj) as (cj' & Hcj' & Hiff).
  exists cj'. split; [exact Hcj'|]. intros -> Hne.
  destruct (lookup_lt_is_Some_2 alpha j Hj) as [row_j Hrow].
  exists row_j. split; [exact Hrow|].
  destruct (Qeq_bool (dot row row_j) 0) eqn:Hdot; [exfalso|reflexivity].
  destruct Hiff as [Hiff _]. destruct (Hiff eq_refl) as [_ Hno]. apply Hno.
  split; [exact Hj|]. split; [exact Hne|].
  exists row_j. split; [exact Hrow|]. apply Qeq_bool_iff. exact Hdot.
Qed.

(** X6. The aggressive reduction is idempotent: run on its own result, it
    returns that result unchanged. *)
Theorem aggressive_reduction_idempotent (alpha : matrix) (U_I : list nat)
    (ec0 ec1 : gmap nat (list bool)) :
  NoDup U_I →
  aggressive_reduction alpha (length alpha) U_I ec0 = Ok ec1 →
  aggressive_reduction alpha (length alpha) U_I ec1 = Ok ec1.
Proof.
  intros Hnd Hrun.
  pose proof (aggressive_reduction_Ok _ _ _ _ _ Hrun) as Hcases.
  destruct Hcases as [[_ ->]|(Happ & zero_loc & Hz & Hloop)]; [exact Hrun|].
  unfold aggressive_reduction. rewrite Happ, ret_bind. cbv beta iota.
  rewrite Hz, ret_bind. cbv beta.
  destruct (aggressive_loop_Ok _ _ _ _ _ _ Hnd Hloop) as [Hin _].
  destruct (for_each_invariant (λ s, s = ec1)
              (aggressive_step alpha (length alpha) zero_loc) U_I ec1)
    as (s' & Hrun' & ->); [reflexivity| |exact Hrun'].
  intros s i Hi ->. exists ec1. split; [|reflexivity].
  unfold aggressive_step. destruct (decide (i = zero_loc)) as [|Hne]; [reflexivity|].
  destruct (Hin i Hi Hne) as (cov & row_i & cov1 & _ & Hrow & Hred & Hcov1).
  apply reduce_cover_idempotent in Hred.
  pose proof Hcov1 as Hget. apply dict_get_Ok in Hget. apply getitem_Ok in Hrow.
  rewrite Hget, ret_bind. cbv beta. rewrite Hrow, ret_bind. cbv beta.
  rewrite Hred, ret_bind. cbv beta. rewrite insert_id by exact Hcov1.
  reflexivity.
Qed.

Lemma np_any_replicate_false (k : nat) : np_any (replicate k false) = false.
Proof. unfold np_any. induction k as [|k IH]; simpl; [reflexivity|exact IH]. Qed.

(** X7. Trivial-cone elimination is idempotent: an emptied cover is skipped
    by a second pass, and a retained cover meets the same verdict again. *)
Theorem eliminate_trivial_idempotent `{Collaborators} (alpha A : matrix)
    (b : list Q) (K : list Cone) (U_I : list nat)
    (ec1 ec2 : gmap nat (list bool)) :
  NoDup U_I →
  eliminate_trivial alpha A b K U_I ec1 = Ok ec2 →
  eliminate_trivial alpha A b K U_I ec2 = Ok ec2.
Proof.
  intros Hnd Hrun.
  destruct (eliminate_trivial_Ok _ _ _ _ _ _ _ Hnd Hrun) as [Hin _].
  unfold eliminate_trivial.
  destruct (for_each_invariant (λ s, s = ec2) (trivial_step alpha A b K) U_I ec2)
    as (s' & Hrun' & ->); [reflexivity| |exact Hrun'].
  intros s i Hi ->. exists ec2. split; [|reflexivity].
  unfold trivial_step.
  destruct (Hin i Hi) as (cov & _ & [[Hany Hsame]|[Hany (mat & Hmat & Hnew)]]).
  - apply dict_get_Ok in Hsame. rewrite Hsame, ret_bind. cbv beta.
    rewrite Hany. reflexivity.
  - destruct (is_trivial (solve_reduction mat A b K)) eqn:Htriv.
    + apply dict_get_Ok in Hnew. rewrite Hnew, ret_bind. cbv beta.
      rewrite np_any_replicate_false. reflexivity.
    + apply dict_get_Ok in Hnew. rewrite Hnew, ret_bind. cbv beta.
      rewrite Hany, Hmat, ret_bind. cbv beta. rewrite Htriv. reflexivity.
Qed.

Lemma aggressive_reduction_idempotent_witness :
  aggressive_reduction alpha3 (length alpha3) [0; 1; 2]%nat reduced3 = Ok reduced3.
Proof.
  apply (aggressive_reduction_idempotent alpha3 [0; 1; 2]%nat covers3 reduced3).
  - by_decide.
  - vm_compute. reflexivity.
Defined.

Lemma eliminate_trivial_idempotent_witness :
  @eliminate_trivial unbounded_solver alpha3 A2 b2 K2 [0; 1; 2]%nat emptied3
  = Ok emptied3.
Proof.
  apply (@eliminate_trivial_idempotent unbounded_solver alpha3 A2 b2 K2
           [0; 1; 2]%nat reduced3 emptied3).
  - by_decide.
  - vm_compute. reflexivity.
Defined.

(** ** Zero padding does not disturb the aggressive reduction *)














(** ** What verification does to the caller's arrays *)

(** A verification that finds every self-covering entry already false
    changes nothing and warns of nothing. *)
Lemma verify_loop_fixed (d : gmap nat pyvalue) (keys : list nat)
    (st : gmap nat (list bool)) (w : list nat) :
  (∀ i, i ∈ keys →
        ∃ l, d !! i = Some (ndarray_bool l) ∧ deref st l !! i = Some false) →
  for_each (verify_step d) keys (st, w) = Ok (st, w).
Proof.
  induction keys as [|k keys IH]; intros Hkeys; [reflexivity|].
  destruct (Hkeys k) as (l & Hd & Hc); [left|].
  assert (Hk : verify_step d (st, w) k = Ok (st, w)).
  { unfold verify_step. rewrite Hd. simpl.
    apply getitem_Ok in Hc. rewrite Hc. reflexivity. }
  simpl. rewrite Hk. simpl.
  apply IH. intros i Hi. apply Hkeys. right. exact Hi.
Qed.

(** X9. A construction with a supplied cover map changes the caller's
    arrays only by clearing entries: every array keeps its length, entry
    [j] of the array at location [l] is cleared exactly when [j] is a
    must-certify index whose cover is that array, and no other entry
    changes; the helper holds, under every key of the dictionary that is a
    boolean array, that array as it stands afterwards. *)
Theorem supplied_covers_effect `{Collaborators} (alpha : matrix) (c : c_arg)
    (A : matrix) (b : list Q) (K : list Cone) (d : gmap nat pyvalue)
    (st : gmap nat (list bool)) (built : constructed) :
  ExpCoverHelper_init alpha c A b K (expcovers_dict d) st = Ok built →
  (∀ l, length (deref (store_after built) l) = length (deref st l)) ∧
  (∀ l j x, deref st l !! j = Some x →
     deref (store_after built) l !! j
     = Some (if bool_decide (j ∈ U_I (helper built) ∧ d !! j = Some (ndarray_bool l))
             then false else x)) ∧
  (∀ i l, d !! i = Some (ndarray_bool l) →
     expcovers (helper built) !! i = Some (deref (store_after built) l)).
Proof.
  intros Hrun.
  apply ExpCoverHelper_init_dict in Hrun as (HU & Hcov & Hv).
  unfold _verify_exp_covers in Hv.
  apply verify_loop_Ok in Hv as (_ & Hst' & _);
    [|rewrite HU; apply NoDup_classify].
  split; [|split].
  - intros l. eapply length_of_lookups. intros j. apply (Hst' l j).
  - intros l j x Hx. rewrite Hst', Hx. simpl. f_equal.
    destruct (bool_decide _); simpl;
      [apply andb_false_r|apply andb_true_r].
  - intros i l Hd. rewrite Hcov. unfold masks_of. rewrite lookup_omap, Hd.
    reflexivity.
Qed.

Lemma supplied_covers_effect_witness :
  length (deref (store_after aliased_built) 7) = length (deref aliased_store 7) ∧
  expcovers (helper aliased_built) !! 1%nat
  = Some (deref (store_after aliased_built) 7).
Proof.
  assert (Hinit :
    @ExpCoverHelper_init failing_solver [[0; 0]; [1; 0]]
      (c_Expression (free_c 2)) A2 b2 K2 (expcovers_dict aliased_dict)
      aliased_store = Ok aliased_built) by (vm_compute; reflexivity).
  destruct (@supplied_covers_effect failing_solver _ _ _ _ _ _ _ _ Hinit)
    as (Hlen & _ & Hheld).
  split; [apply Hlen|]. apply Hheld. vm_compute. reflexivity.
Defined.

(** X10. Verification is repeatable: constructing the helper again from the
    same dictionary, over the arrays as the first construction left them,
    succeeds, gives the same helper, leaves the arrays alone and warns of
    nothing. *)
Theorem supplied_covers_repeatable `{Collaborators} (alpha : matrix) (c : c_arg)
    (A : matrix) (b : list Q) (K : list Cone) (d : gmap nat pyvalue)
    (st : gmap nat (list bool)) (built : constructed) :
  ExpCoverHelper_init alpha c A b K (expcovers_dict d) st = Ok built →
  ExpCoverHelper_init alpha c A b K (expcovers_dict d) (store_after built)
  = Ok {| helper := helper built; store_after := store_after built;
          warnings := [] |}.
Proof.
  intros Hrun.
  assert (Hfix : _verify_exp_covers
                   (cls_U_I (classify (length alpha) (c_opt c))) d
                   (store_after built)
                 = Ok (store_after built, [])).
  { pose proof (ExpCoverHelper_init_dict _ _ _ _ _ _ _ _ Hrun) as (HU & _ & Hv).
    rewrite HU in Hv. unfold _verify_exp_covers in *.
    apply verify_loop_Ok in Hv as (Hkeys & Hst' & _); [|apply NoDup_classify].
    apply verify_loop_fixed. intros i Hi.
    destruct (Hkeys i Hi) as (l & c0 & Hd & Hc0). exists l.
    split; [exact Hd|]. rewrite Hst', Hc0. simpl.
    rewrite bool_decide_eq_true_2; [|split; [exact Hi|exact Hd]].
    rewrite andb_false_r. reflexivity. }
  unfold ExpCoverHelper_init in *.
  destruct c; try discriminate Hrun;
    apply bind_Ok in Hrun as ([st' w'] & Hv & Heq); injection Heq as <-;
    simpl in *; rewrite Hfix; reflexivity.
Qed.

Lemma supplied_covers_repeatable_witness :
  @ExpCoverHelper_init failing_solver [[0; 0]; [1; 0]] (c_Expression (free_c 2))
    A2 b2 K2 (expcovers_dict aliased_dict) (store_after aliased_built)
  = Ok {| helper := helper aliased_built;
          store_after := store_after aliased_built; warnings := [] |}.
Proof.
  apply (@supplied_covers_repeatable failing_solver [[0; 0]; [1; 0]]
           (c_Expression (free_c 2)) A2 b2 K2 aliased_dict aliased_store
           aliased_built).
  vm_compute. reflexivity.
Defined.

(** ** The primal violation at its edges *)

(** X11. The rough violation of a primal cone with more than one term
    cannot be computed before [conic_form] has built the AGE vectors: on a
    freshly constructed object it raises a [KeyError] at the first
    must-certify index when there is one, and a [ValueError] (a norm or a
    maximum of an empty array) when there is none. *)
Theorem rough_violation_before_conic_form `{Collaborators} (c0 : Expression)
    (alpha A0 : matrix) (b0 : list Q) (K0 : list Cone) (arg : expcovers_arg)
    (st : gmap nat (list bool)) (built : primal_constructed)
    (env : Atom → Q) (ord : norm_ord) :
  PrimalCondSageCone_init c0 alpha A0 b0 K0 arg st = Ok built →
  (1 < length alpha)%nat →
  (U_I (ech (primal built)) ≠ [] →
   violation (primal built) env ord true = Raise KeyError) ∧
  (U_I (ech (primal built)) = [] →
   violation (primal built) env ord true = Raise ValueError).
Proof.
  intros Hrun Hlen.
  apply PrimalCondSageCone_init_Ok in Hrun as (Hav & Hc & Hm & HU & _).
  unfold violation. rewrite decide_True; [|lia]. simpl negb. cbv iota.
  rewrite Hav, Hc. simpl fmap at 1. unfold odict_values. simpl c_minus_sum.
  destruct (xnorm _ ord) as [s|e] eqn:Hn.
  - rewrite ret_bind. cbv beta.
    destruct (U_I (ech (primal built))) as [|i U].
    + split; [intros Hne; contradiction|intros _; reflexivity].
    + split; [intros _; reflexivity|intros Hnil; discriminate Hnil].
  - apply xnorm_raises_empty in Hn as [Hn ->]. apply fmap_nil_inv in Hn.
    unfold clip_negative in Hn. apply fmap_nil_inv in Hn.
    unfold values_of in Hn. apply fmap_nil_inv in Hn.
    split; [|intros _; reflexivity].
    intros Hne. exfalso. apply Hne. rewrite HU, Hn. reflexivity.
Qed.

Lemma rough_violation_before_conic_form_witness :
  @violation failing_solver (primal three_term_built) (λ _, 0) ord_inf true
  = Raise KeyError.
Proof.
  apply (@rough_violation_before_conic_form failing_solver (free_c 3) alpha3
           A2 b2 K2 expcovers_None ∅ three_term_built (λ _, 0) ord_inf).
  - vm_compute. reflexivity.
  - vm_compute. lia.
  - vm_compute. discriminate.
Defined.

Lemma forallb_nonneg (l : list Q) :
  (∀ x, x ∈ l → 0 <= x) → forallb (Qle_bool 0) l = true.
Proof.
  induction l as [|x l IH]; intros Hl; [reflexivity|]. simpl.
  rewrite (proj2 (Qle_bool_iff 0 x)); [|apply Hl; left]. simpl.
  apply IH. intros y Hy. apply Hl. right. exact Hy.
Qed.

Lemma negative_part_nonneg (l : list Q) :
  (∀ x, x ∈ l → 0 <= x) → negative_part l = replicate (length l) 0.
Proof.
  induction l as [|x l IH]; intros Hl; [reflexivity|].
  unfold negative_part in *. simpl.
  rewrite (proj2 (Qle_bool_iff 0 x)); [|apply Hl; left].
  f_equal. apply IH. intros y Hy. apply Hl. right. exact Hy.
Qed.

Lemma xnorm_zeros (k : nat) (ord : norm_ord) :
  xnorm (Fin <$> replicate (S k) 0) ord = Ok (Fin 0).
Proof.
  unfold xnorm. rewrite !fmap_replicate.
  change (xabs (Fin 0)) with (Fin 0). destruct ord.
  - unfold np_max.
    assert (Hnan : ∀ j, existsb is_nan (replicate j (Fin 0)) = false)
      by (intros j; induction j as [|j IH]; [reflexivity|exact IH]).
    assert (Hmax : ∀ j, foldl py_max2 (Fin 0) (replicate j (Fin 0)) = Fin 0)
      by (intros j; induction j as [|j IH]; [reflexivity|exact IH]).
    change (replicate (S k) (Fin 0)) with (Fin 0 :: replicate k (Fin 0)).
    cbv iota. change (Fin 0 :: replicate k (Fin 0)) with (replicate (S k) (Fin 0)).
    rewrite Hnan, Hmax. reflexivity.
  - f_equal. unfold np_sum.
    assert (Hsum : ∀ j, foldl xadd (Fin 0) (replicate j (Fin 0)) = Fin 0)
      by (intros j; induction j as [|j IH]; [reflexivity|exact IH]).
    apply Hsum.
Qed.

(** X12. When every coefficient of a nonempty [c] has a nonnegative value,
    the violation is [0] without any solve: in exact mode whatever the
    number of terms ([project] returns before it builds a problem), and in
    either mode when there is at most one term. *)
Theorem violation_of_nonnegative `{Collaborators} (self : PrimalCondSageCone)
    (env : Atom → Q) (ord : norm_ord) (rough : bool) :
  c self ≠ [] →
  (∀ x, x ∈ values_of env (c self) → 0 <= x) →
  rough = false ∨ (m self ≤ 1)%nat →
  violation self env ord rough = Ok (Fin 0).
Proof.
  intros Hne Hpos Hmode. unfold violation.
  destruct (decide (1 < m self)%nat) as [Hm|Hm].
  - destruct Hmode as [->|Hle]; [|lia]. simpl.
    unfold PrimalCondSageCone_project. rewrite (forallb_nonneg _ Hpos).
    reflexivity.
  - unfold reshape_view. rewrite insert_singleton_eq, !lookup_total_singleton_eq.
    rewrite clip_nonnegative_Fin, (negative_part_nonneg _ Hpos).
    destruct (values_of env (c self)) as [|x l] eqn:Hv.
    + unfold values_of in Hv. apply fmap_nil_inv in Hv. contradiction.
    + apply xnorm_zeros.
Qed.

Lemma violation_of_nonnegative_witness :
  @violation failing_solver (primal three_term_built) (λ _, 1) ord_inf false
  = Ok (Fin 0).
Proof.
  apply (@violation_of_nonnegative failing_solver (primal three_term_built)
           (λ _, 1) ord_inf false).
  - vm_compute. discriminate.
  - intros x Hx. vm_compute in Hx. members Hx; discriminate.
  - left. reflexivity.
Defined.

(** ** [conic_form] can be called again *)

Lemma odict_get_set_eq {V} (d : list (nat * V)) (k : nat) (x : V) :
  odict_get (odict_set d k x) k = Ok x.
Proof.
  induction d as [|[k' x'] d IH]; simpl.
  - rewrite decide_True; reflexivity.
  - destruct (decide (k' = k)) as [->|Hne]; simpl.
    + rewrite decide_True; reflexivity.
    + rewrite decide_False; [exact IH|exact Hne].
Qed.

Lemma odict_get_set_ne {V} (d : list (nat * V)) (k j : nat) (x : V) :
  j ≠ k → odict_get (odict_set d k x) j = odict_get d j.
Proof.
  intros Hjk. induction d as [|[k' x'] d IH]; simpl.
  - rewrite decide_False; [reflexivity|congruence].
  - destruct (decide (k' = k)) as [->|Hne]; simpl.
    + rewrite !decide_False; [reflexivity|congruence|congruence].
    + destruct (decide (k' = j)); [reflexivity|exact IH].
Qed.

Lemma odict_set_same {V} (d : list (nat * V)) (k : nat) (x : V) :
  odict_get d k = Ok x → odict_set d k x = d.
Proof.
  induction d as [|[k' x'] d IH]; simpl; [discriminate|].
  destruct (decide (k' = k)) as [->|Hne].
  - intros Heq. injection Heq as ->. reflexivity.
  - intros Hget. rewrite (IH Hget). reflexivity.
Qed.

(** After the loop of [_build_aligned_age_vectors], every visited key holds
    the aligned vector of its term. *)
Lemma build_loop_holds (self : PrimalCondSageCone) (keys : list nat)
    (av0 av : list (nat * Expression)) :
  let holds av i := ∃ x, aligned_age_vector self i = Ok x ∧ odict_get av i = Ok x in
  for_each (λ av i, ci_expr ← aligned_age_vector self i; Ok (odict_set av i ci_expr))
           keys av0 = Ok av →
  (∀ i, i ∈ keys → holds av i) ∧ (∀ i, holds av0 i → holds av i).
Proof.
  intros holds. revert av0. induction keys as [|k keys IH]; intros av0 Hrun.
  - simpl in Hrun. injection Hrun as <-.
    split; [intros i Hi; inversion Hi|intros i Hi; exact Hi].
  - simpl in Hrun. apply bind_Ok in Hrun as (av1 & Hk & Hrest).
    apply bind_Ok in Hk as (x & Hx & Hav1). injection Hav1 as <-.
    destruct (IH _ Hrest) as [Hkeys Hkeep].
    assert (Hstep : ∀ i, holds av0 i → holds (odict_set av0 k x) i).
    { intros i (y & Hy & Hget). exists y. split; [exact Hy|].
      destruct (decide (i = k)) as [->|Hik].
      - rewrite odict_get_set_eq. congruence.
      - rewrite odict_get_set_ne; [exact Hget|exact Hik]. }
    split.
    + intros i Hi. apply elem_of_cons in Hi as [->|Hi]; [|apply Hkeys; exact Hi].
      apply Hkeep. exists x. split; [exact Hx|apply odict_get_set_eq].
    + intros i Hi. apply Hkeep, Hstep, Hi.
Qed.

Lemma build_loop_fixed (self : PrimalCondSageCone) (keys : list nat)
    (av : list (nat * Expression)) :
  (∀ i, i ∈ keys →
        ∃ x, aligned_age_vector self i = Ok x ∧ odict_get av i = Ok x) →
  for_each (λ av i, ci_expr ← aligned_age_vector self i; Ok (odict_set av i ci_expr))
           keys av = Ok av.
Proof.
  induction keys as [|k keys IH]; intros Hkeys; [reflexivity|].
  destruct (Hkeys k) as (x & Hx & Hget); [left|].
  simpl. rewrite Hx. simpl. rewrite (odict_set_same _ _ _ Hget).
  apply IH. intros i Hi. apply Hkeys. right. exact Hi.
Qed.

(** X13. [conic_form] is repeatable: a second call on the object as the
    first call left it succeeds, rebuilds the same AGE vectors under the
    same keys in the same order, and returns the same blocks. *)
Theorem conic_form_repeatable `{Collaborators} (self self' : PrimalCondSageCone)
    (blocks : list cone_data) :
  conic_form self = Ok (self', blocks) →
  conic_form self' = Ok (self', blocks).
Proof.
  unfold conic_form at 1. destruct (decide (1 < m self)%nat) as [Hm|Hm].
  - intros Hrun. apply bind_Ok in Hrun as (s1 & Hbuild & Hrest).
    assert (Hself' : self' = s1).
    { apply bind_Ok in Hrest as (cd & _ & Hrest).
      apply bind_Ok in Hrest as (d & _ & Hrest). congruence. }
    subst s1.
    unfold _build_aligned_age_vectors in Hbuild.
    apply bind_Ok in Hbuild as (av & Hloop & Hset). injection Hset as Hset.
    assert (Hagain : _build_aligned_age_vectors self' = Ok self').
    { unfold _build_aligned_age_vectors. rewrite <- Hset. simpl.
      change ((for_each
                 (λ av1 i, ci_expr ← aligned_age_vector self i;
                           Ok (odict_set av1 i ci_expr))
                 (U_I (ech self)) av
               ≫= λ av1, Ok (set_age_vectors self av1))
              = Ok (set_age_vectors self av)).
      rewrite (build_loop_fixed self (U_I (ech self)) av); [reflexivity|].
      apply (build_loop_holds self _ _ _ Hloop). }
    unfold conic_form. rewrite decide_True; [|rewrite <- Hset; exact Hm].
    rewrite Hagain, ret_bind. cbv beta. exact Hrest.
  - intros Hrun. injection Hrun as <- <-.
    unfold conic_form. rewrite decide_False; [reflexivity|exact Hm].
Qed.

Lemma conic_form_repeatable_witness :
  @conic_form failing_solver three_term_primal
  = Ok (three_term_primal, three_term_blocks).
Proof.
  apply (@conic_form_repeatable failing_solver (primal three_term_built)).
  vm_compute. reflexivity.
Defined.

(** ** The dual compiler: construction and violation *)

Lemma DualCondSageCone_init_Ok `{Collaborators} (v0 : Expression)
    (alpha A0 : matrix) (b0 : list Q) (K0 : list Cone) (c0 : option Expression)
    (arg : expcovers_arg) (st : gmap nat (list bool)) (built : dual_constructed) :
  DualCondSageCone_init v0 alpha A0 b0 K0 c0 arg st = Ok built →
  ∃ K' alpha' hb dv,
    ExpCoverHelper_init alpha' (c_arg_of c0) A0 b0 K' arg st = Ok hb ∧
    length alpha' = length alpha ∧
    dual_initialize_variables (length alpha) (helper hb) (width alpha) (width A0)
      = Ok dv ∧
    dual_ech (dual built) = helper hb ∧
    lifted_mu_vars (dual built) = dv_lifted_mu dv ∧
    mu_vars (dual built) = dv_mu dv ∧
    dual_relent_epi_vars (dual built) = dv_epi dv.
Proof.
  unfold DualCondSageCone_init. intros Hrun.
  apply bind_Ok in Hrun as (K' & _ & Hrun). cbv zeta in Hrun.
  apply bind_Ok in Hrun as (hb & Hhb & Hrun).
  apply bind_Ok in Hrun as (dv & Hdv & Hrun). injection Hrun as <-.
  eexists K', _, hb, dv. split; [exact Hhb|]. split.
  { destruct (decide (width alpha < width A0)%nat); [|reflexivity].
    unfold pad_columns. apply length_map. }
  split; [exact Hdv|]. simpl. repeat split.
Qed.

Lemma indices_where_none {X} (p : X → bool) (l : list X) :
  (∀ x, x ∈ l → p x = false) → indices_where p l = [].
Proof.
  intros Hl. destruct (indices_where p l) as [|i rest] eqn:Hidx; [reflexivity|].
  exfalso. assert (Hi : i ∈ indices_where p l) by (rewrite Hidx; left).
  apply elem_of_indices_where in Hi as (x & Hx & Hp).
  rewrite (Hl x) in Hp; [discriminate Hp|].
  eapply list_elem_of_lookup_2. exact Hx.
Qed.

(** X14. A dual cone whose companion coefficients are all constants of
    value at least zero has no must-certify term, and its violation, the
    builtin [max] of an empty list, is a [ValueError] in either mode. *)
Theorem dual_violation_without_terms `{Collaborators} (v0 : Expression)
    (alpha A0 : matrix) (b0 : list Q) (K0 : list Cone) (c0 : Expression)
    (arg : expcovers_arg) (st : gmap nat (list bool)) (built : dual_constructed)
    (env : Atom → Q) (ord : norm_ord) (rough : bool) :
  DualCondSageCone_init v0 alpha A0 b0 K0 (Some c0) arg st = Ok built →
  (∀ c_i, c_i ∈ c0 → is_constant c_i = true ∧ 0 <= offset c_i) →
  U_I (dual_ech (dual built)) = [] ∧
  dual_violation (dual built) env ord rough = Raise ValueError.
Proof.
  intros Hrun Hconst.
  apply DualCondSageCone_init_Ok in Hrun
    as (K' & alpha' & hb & dv & Hhb & _ & _ & Hech & _).
  apply ExpCoverHelper_init_classes in Hhb as (HU & _).
  assert (Hnone : U_I (dual_ech (dual built)) = []).
  { rewrite Hech, HU. simpl. apply indices_where_none. intros c_i Hc_i.
    destruct (Hconst c_i Hc_i) as [Hcst Hoff]. unfold must_certify.
    rewrite Hcst. simpl. apply not_true_iff_false. intros Hlt.
    apply Qlt_bool_iff in Hlt. apply Qle_not_lt in Hoff. contradiction. }
  split; [exact Hnone|]. unfold dual_violation. rewrite Hnone. reflexivity.
Qed.

Lemma dual_violation_without_terms_witness :
  U_I (dual_ech (dual positive_dual_built)) = [] ∧
  @dual_violation failing_solver (dual positive_dual_built) (λ _, 0) ord_inf true
  = Raise ValueError.
Proof.
  apply (@dual_violation_without_terms failing_solver (free_c 2)
           [[0; 0]; [1; 0]] A2 b2 K2 [const_expr 1; const_expr 2]
           expcovers_None ∅ positive_dual_built (λ _, 0) ord_inf true).
  - vm_compute. reflexivity.
  - intros c_i Hc_i. members Hc_i; (split; [reflexivity|discriminate]).
Defined.

Ltac raise_both :=
  split; [intros e; reflexivity
         |intros y Hy; simpl in Hy; discriminate Hy].

(** X15. The exact mode of the per-term dual violation differs from the
    rough one only by replacing a positive rough value by [0] (when the
    feasibility problem is solved with a value below [1e-7] in absolute
    value): it raises exactly when the rough mode does, and a rough value
    that is not positive is returned unchanged. *)
Theorem exact_dual_term `{Collaborators} (self : DualCondSageCone)
    (env : Atom → Q) (i : nat) (ord : norm_ord) (v0 : list Q) :
  (∀ e, _dual_age_cone_violation self env i ord true v0 = Raise e ↔
        _dual_age_cone_violation self env i ord false v0 = Raise e) ∧
  (∀ y, _dual_age_cone_violation self env i ord true v0 = Ok y →
        ∃ x, _dual_age_cone_violation self env i ord false v0 = Ok x ∧
             (x = y ∨ x = Fin 0) ∧
             (xltb (Fin 0) y = false → x = y)).
Proof.
  unfold _dual_age_cone_violation.
  destruct (dict_get (expcovers (dual_ech self)) i) as [selector|e0];
    [rewrite !ret_bind; cbv beta zeta|raise_both].
  destruct (decide (0 < count_nonzero selector)%nat) as [Hpos|Hzero];
    [|split; [intros e; reflexivity|]; intros y Hy; injection Hy as <-;
      exists (Fin 0); split; [reflexivity|]; split; [left; reflexivity|];
      intros _; reflexivity].
  destruct (getitem v0 i) as [v_i|e0];
    [rewrite !ret_bind; cbv beta zeta|raise_both].
  destruct (getmask v0 selector) as [v_sel|e0];
    [rewrite !ret_bind; cbv beta zeta|raise_both].
  destruct (cover_matrix (dual_lifted_alpha self) selector i) as [diff|e0];
    [rewrite !ret_bind; cbv beta zeta|raise_both].
  destruct (dict_get (lifted_mu_vars self) i) as [lifted_mu_i|e0];
    [rewrite !ret_bind; cbv beta zeta|raise_both].
  destruct (xnorm _ ord) as [relent_viol|e0];
    [rewrite !ret_bind; cbv beta zeta|raise_both].
  change (negb true) with false. change (negb false) with true.
  rewrite andb_false_r, andb_true_r.
  set (curr_viol := xadd relent_viol _).
  destruct (xltb (Fin 0) curr_viol) eqn:Hlt.
  - destruct (status_eqb _ _ && _); (split; [intros e; split; intros Hd; discriminate Hd|]);
      intros y Hy; injection Hy as <-.
    + exists (Fin 0). split; [reflexivity|]. split; [right; reflexivity|].
      intros Hno. congruence.
    + exists curr_viol. split; [reflexivity|]. split; [left; reflexivity|].
      intros _. reflexivity.
  - split; [intros e; reflexivity|]. intros y Hy. injection Hy as <-.
    exists curr_viol. split; [reflexivity|]. split; [left; reflexivity|].
    intros _. reflexivity.
Qed.

(** ** The variables the constructors declare *)

Lemma dual_declare_loop (h : ExpCoverHelper) (n0 ln : nat) (keys : list nat)
    (dv0 dv : dual_vars) :
  NoDup keys →
  for_each (dual_declare_term h n0 ln) keys dv0 = Ok dv →
  (∀ i, i ∈ keys →
     ∃ cov, expcovers h !! i = Some cov ∧
       dv_lifted_mu dv !! i = Some (mk_Variable (mu_var i) ln) ∧
       dv_mu dv !! i = Some (take n0 (mk_Variable (mu_var i) ln)) ∧
       dv_epi dv !! i
       = if decide (0 < count_nonzero cov)%nat
         then Some (mk_Variable (relent_epi_var i) (count_nonzero cov))
         else dv_epi dv0 !! i) ∧
  (∀ j, j ∉ keys →
     dv_lifted_mu dv !! j = dv_lifted_mu dv0 !! j ∧
     dv_mu dv !! j = dv_mu dv0 !! j ∧
     dv_epi dv !! j = dv_epi dv0 !! j).
Proof.
  revert dv0. induction keys as [|k keys IH]; intros dv0 Hnd Hrun.
  - simpl in Hrun. injection Hrun as <-.
    split; [intros i Hi; inversion Hi|intros j _; repeat split].
  - simpl in Hrun. apply bind_Ok in Hrun as (dv1 & Hk & Hrest).
    unfold dual_declare_term in Hk.
    apply bind_Ok in Hk as (cov & Hcov & Hdv1). injection Hdv1 as <-.
    apply dict_get_Ok in Hcov. apply NoDup_cons in Hnd as [Hfresh Hnd].
    destruct (IH _ Hnd Hrest) as [Hin Hout]. simpl in Hin, Hout. split.
    + intros i Hi. apply elem_of_cons in Hi as [->|Hi].
      * exists cov. split; [exact Hcov|].
        destruct (Hout k Hfresh) as (H1 & H2 & H3). rewrite H1, H2, H3.
        rewrite !lookup_insert_eq. repeat split.
        destruct (decide (0 < count_nonzero cov)%nat);
          [apply lookup_insert_eq|reflexivity].
      * assert (Hik : k ≠ i) by (intros ->; contradiction).
        destruct (Hin i Hi) as (cov' & Hcov' & H1 & H2 & H3).
        exists cov'. split; [exact Hcov'|]. split; [exact H1|].
        split; [exact H2|]. rewrite H3.
        destruct (decide (0 < count_nonzero cov')%nat); [reflexivity|].
        destruct (decide (0 < count_nonzero cov)%nat); [|reflexivity].
        apply lookup_insert_ne. exact Hik.
    + intros j Hj. apply not_elem_of_cons in Hj as [Hjk Hj].
      destruct (Hout j Hj) as (H1 & H2 & H3). rewrite H1, H2, H3.
      rewrite !lookup_insert_ne by congruence. repeat split.
      destruct (decide (0 < count_nonzero cov)%nat); [|reflexivity].
      apply lookup_insert_ne. congruence.
Qed.

(** X16. The variables of a dual cone. With at most one term none is
    declared. Otherwise, for a matrix [A] that has a row, every
    must-certify index [i] gets a vector [mu] of as many entries as [A] has
    columns, [mu_vars[i]] is its first [alpha.shape[1]] entries, an
    epigraph vector of the size of the cover exists exactly when the cover
    is not empty, and no other index gets a variable. *)
Theorem dual_variables_declared `{Collaborators} (v0 : Expression)
    (alpha A0 : matrix) (b0 : list Q) (K0 : list Cone) (c0 : option Expression)
    (arg : expcovers_arg) (st : gmap nat (list bool)) (built : dual_constructed) :
  DualCondSageCone_init v0 alpha A0 b0 K0 c0 arg st = Ok built →
  ((length alpha ≤ 1)%nat →
     lifted_mu_vars (dual built) = ∅ ∧ mu_vars (dual built) = ∅ ∧
     dual_relent_epi_vars (dual built) = ∅) ∧
  ((1 < length alpha)%nat → A0 ≠ [] →
     ∀ i,
       (i ∈ U_I (dual_ech (dual built)) →
          ∃ cov, expcovers (dual_ech (dual built)) !! i = Some cov ∧
            lifted_mu_vars (dual built) !! i
            = Some (mk_Variable (mu_var i) (width A0)) ∧
            mu_vars (dual built) !! i
            = Some (take (width alpha) (mk_Variable (mu_var i) (width A0))) ∧
            dual_relent_epi_vars (dual built) !! i
            = if decide (0 < count_nonzero cov)%nat
              then Some (mk_Variable (relent_epi_var i) (count_nonzero cov))
              else None) ∧
       (i ∉ U_I (dual_ech (dual built)) →
          lifted_mu_vars (dual built) !! i = None ∧
          mu_vars (dual built) !! i = None ∧
          dual_relent_epi_vars (dual built) !! i = None)).
Proof.
  intros Hrun.
  apply DualCondSageCone_init_Ok in Hrun
    as (K' & alpha' & hb & dv & Hhb & _ & Hdv & Hech & Hlm & Hmu & Hepi).
  rewrite Hech, Hlm, Hmu, Hepi. unfold dual_initialize_variables in Hdv.
  split.
  - intros Hle. rewrite decide_False in Hdv by lia. injection Hdv as <-.
    repeat split.
  - intros Hlt _. rewrite decide_True in Hdv by exact Hlt.
    assert (Hnd : NoDup (U_I (helper hb))).
    { apply ExpCoverHelper_init_classes in Hhb as (-> & _).
      apply NoDup_classify. }
    destruct (dual_declare_loop _ _ _ _ _ _ Hnd Hdv) as [Hin Hout].
    intros i. split.
    + intros Hi. destruct (Hin i Hi) as (cov & Hcov & H1 & H2 & H3).
      exists cov. split; [exact Hcov|]. split; [exact H1|]. split; [exact H2|].
      rewrite H3. destruct (decide (0 < count_nonzero cov)%nat); reflexivity.
    + intros Hi. destruct (Hout i Hi) as (H1 & H2 & H3).
      rewrite H1, H2, H3. repeat split.
Qed.

Lemma dual_variables_declared_witness :
  lifted_mu_vars (dual two_term_dual_built) !! 1%nat
    = Some (mk_Variable (mu_var 1) 2) ∧
  dual_relent_epi_vars (dual two_term_dual_built) !! 1%nat = None.
Proof.
  assert (Hinit :
    @DualCondSageCone_init failing_solver (free_c 2) [[0; 0]; [1; 0]] A2 b2 K2
      (Some [const_expr (-1); atom_expr (user_var 1 0)]) expcovers_None ∅
    = Ok two_term_dual_built) by (vm_compute; reflexivity).
  destruct (@dual_variables_declared failing_solver _ _ _ _ _ _ _ _ _ Hinit)
    as [_ Hdecl].
  assert (Hlen : (1 < length [[0; 0]; [1; 0]])%nat) by (simpl; lia).
  assert (HA : A2 ≠ []) by discriminate.
  destruct (Hdecl Hlen HA 1%nat) as [Hin _].
  assert (HU : 1%nat ∈ U_I (dual_ech (dual two_term_dual_built)))
    by (vm_compute; right; left).
  destruct (Hin HU) as (cov & Hcov & Hlm & _ & Hepi).
  split; [exact Hlm|].
  assert (Hcov' : expcovers (dual_ech (dual two_term_dual_built)) !! 1%nat
                  = Some [false; false]) by (vm_compute; reflexivity).
  rewrite Hcov' in Hcov. injection Hcov as <-. exact Hepi.
Defined.

Lemma declare_loop_exact (h : ExpCoverHelper) (d : nat) (keys : list nat)
    (tv0 tv : term_vars) :
  NoDup keys →
  for_each (declare_term h d) keys tv0 = Ok tv →
  (∀ i, i ∈ keys →
     ∃ cov, expcovers h !! i = Some cov ∧
       tv_nu tv !! i
       = (if decide (0 < count_nonzero cov)%nat
          then Some (mk_Variable (nu_var i) (count_nonzero cov))
          else tv_nu tv0 !! i) ∧
       tv_epi tv !! i
       = (if decide (0 < count_nonzero cov)%nat
          then Some (mk_Variable (relent_epi_var i) (count_nonzero cov))
          else tv_epi tv0 !! i) ∧
       tv_c tv !! i
       = Some (mk_Variable (c_var i)
                 (if decide (i ∈ N_I h) then count_nonzero cov
                  else (count_nonzero cov + 1)%nat)) ∧
       tv_lambda tv !! i = Some (mk_Variable (lambda_var i) d)) ∧
  (∀ j, j ∉ keys →
     tv_nu tv !! j = tv_nu tv0 !! j ∧ tv_epi tv !! j = tv_epi tv0 !! j ∧
     tv_c tv !! j = tv_c tv0 !! j ∧ tv_lambda tv !! j = tv_lambda tv0 !! j).
Proof.
  revert tv0. induction keys as [|k keys IH]; intros tv0 Hnd Hrun.
  - simpl in Hrun. injection Hrun as <-.
    split; [intros i Hi; inversion Hi|intros j _; repeat split].
  - simpl in Hrun. apply bind_Ok in Hrun as (tv1 & Hk & Hrest).
    unfold declare_term in Hk.
    apply bind_Ok in Hk as (cov & Hcov & Htv1). cbv zeta in Htv1.
    injection Htv1 as <-.
    apply dict_get_Ok in Hcov. apply NoDup_cons in Hnd as [Hfresh Hnd].
    destruct (IH _ Hnd Hrest) as [Hin Hout]. simpl in Hin, Hout. split.
    + intros i Hi. apply elem_of_cons in Hi as [->|Hi].
      * exists cov. split; [exact Hcov|].
        destruct (Hout k Hfresh) as (H1 & H2 & H3 & H4).
        rewrite H1, H2, H3, H4. rewrite !lookup_insert_eq.
        destruct (decide (0 < count_nonzero cov)%nat);
          rewrite ?lookup_insert_eq; repeat split.
      * assert (Hik : k ≠ i) by (intros ->; contradiction).
        destruct (Hin i Hi) as (cov' & Hcov' & H1 & H2 & H3 & H4).
        exists cov'. split; [exact Hcov'|]. rewrite H1, H2.
        split; [|split; [|split; [exact H3|exact H4]]];
          (destruct (decide (0 < count_nonzero cov')%nat); [reflexivity|]);
          (destruct (decide (0 < count_nonzero cov)%nat); [|reflexivity]);
          apply lookup_insert_ne; exact Hik.
    + intros j Hj. apply not_elem_of_cons in Hj as [Hjk Hj].
      destruct (Hout j Hj) as (H1 & H2 & H3 & H4). rewrite H1, H2, H3, H4.
      rewrite !lookup_insert_ne by congruence.
      destruct (decide (0 < count_nonzero cov)%nat);
        rewrite ?lookup_insert_ne by congruence; repeat split.
Qed.

(** X17. The variables of a primal cone. With at most one term none is
    declared. Otherwise every must-certify index [i] gets [lambda] of as
    many entries as [A] has rows and [c] of the size of its cover, plus one
    unless [i] is definite-negative; [nu] and the epigraph vector, both of
    the size of the cover, exist exactly when the cover is not empty; no
    other index gets a variable. *)
Theorem primal_variables_declared `{Collaborators} (c0 : Expression)
    (alpha A0 : matrix) (b0 : list Q) (K0 : list Cone) (arg : expcovers_arg)
    (st : gmap nat (list bool)) (built : primal_constructed) :
  PrimalCondSageCone_init c0 alpha A0 b0 K0 arg st = Ok built →
  ((length alpha ≤ 1)%nat →
     nu_vars (primal built) = ∅ ∧ c_vars (primal built) = ∅ ∧
     relent_epi_vars (primal built) = ∅ ∧ lambda_vars (primal built) = ∅) ∧
  ((1 < length alpha)%nat →
     ∀ i,
       (i ∈ U_I (ech (primal built)) →
          ∃ cov, expcovers (ech (primal built)) !! i = Some cov ∧
            nu_vars (primal built) !! i
            = (if decide (0 < count_nonzero cov)%nat
               then Some (mk_Variable (nu_var i) (count_nonzero cov))
               else None) ∧
            relent_epi_vars (primal built) !! i
            = (if decide (0 < count_nonzero cov)%nat
               then Some (mk_Variable (relent_epi_var i) (count_nonzero cov))
               else None) ∧
            c_vars (primal built) !! i
            = Some (mk_Variable (c_var i)
                      (if decide (i ∈ N_I (ech (primal built)))
                       then count_nonzero cov
                       else (count_nonzero cov + 1)%nat)) ∧
            lambda_vars (primal built) !! i
            = Some (mk_Variable (lambda_var i) (length A0))) ∧
       (i ∉ U_I (ech (primal built)) →
          nu_vars (primal built) !! i = None ∧
          relent_epi_vars (primal built) !! i = None ∧
          c_vars (primal built) !! i = None ∧
          lambda_vars (primal built) !! i = None)).
Proof.
  unfold PrimalCondSageCone_init. intros Hrun. cbv zeta in Hrun.
  apply bind_Ok in Hrun as (K' & _ & Hrun).
  apply bind_Ok in Hrun as (hb & Hhb & Hrun).
  apply bind_Ok in Hrun as (tv & Htv & Hrun). injection Hrun as <-. simpl.
  unfold _initialize_variables in Htv. cbv zeta in Htv. split.
  - intros Hle. rewrite decide_False in Htv by lia. injection Htv as <-.
    repeat split.
  - intros Hlt. rewrite decide_True in Htv by exact Hlt.
    assert (Hnd : NoDup (U_I (helper hb))).
    { apply ExpCoverHelper_init_classes in Hhb as (-> & _).
      apply NoDup_classify. }
    destruct (declare_loop_exact _ _ _ _ _ Hnd Htv) as [Hin Hout].
    intros i. split.
    + intros Hi. destruct (Hin i Hi) as (cov & Hcov & H1 & H2 & H3 & H4).
      exists cov. split; [exact Hcov|]. rewrite H1, H2.
      split; [|split; [|split; [exact H3|exact H4]]];
        destruct (decide (0 < count_nonzero cov)%nat); reflexivity.
    + intros Hi. destruct (Hout i Hi) as (H1 & H2 & H3 & H4).
      rewrite H1, H2, H3, H4. repeat split.
Qed.

Lemma primal_variables_declared_witness :
  lambda_vars (primal three_term_built) !! 1%nat
    = Some (mk_Variable (lambda_var 1) 2) ∧
  c_vars (primal three_term_built) !! 5%nat = None.
Proof.
  assert (Hinit :
    @PrimalCondSageCone_init failing_solver (free_c 3) alpha3 A2 b2 K2
      expcovers_None ∅ = Ok three_term_built) by (vm_compute; reflexivity).
  destruct (@primal_variables_declared failing_solver _ _ _ _ _ _ _ _ Hinit)
    as [_ Hdecl].
  assert (Hlen : (1 < length alpha3)%nat) by (simpl; lia).
  split.
  - destruct (Hdecl Hlen 1%nat) as [Hin _].
    assert (HU : 1%nat ∈ U_I (ech (primal three_term_built)))
      by (vm_compute; right; left).
    destruct (Hin HU) as (cov & _ & _ & _ & _ & Hlam). exact Hlam.
  - destruct (Hdecl Hlen 5%nat) as [_ Hout].
    assert (HU : 5%nat ∉ U_I (ech (primal three_term_built))) by by_decide.
    destruct (Hout HU) as (_ & _ & Hc & _). exact Hc.
Defined.

(** ** Layout of an aligned AGE vector *)

Lemma scatter_lookup_false {X} (a : list X) (mask : list bool) (src : list X)
    (j : nat) :
  mask !! j = Some false → scatter a mask src !! j = a !! j.
Proof.
  revert mask src j. induction a as [|x a IH]; intros [|t mask] src j Hj;
    try reflexivity.
  destruct j as [|j]; simpl in Hj.
  - injection Hj as ->. reflexivity.
  - destruct t; [destruct src|]; simpl; apply IH; exact Hj.
Qed.

Lemma select_scatter {X} (a : list X) (mask : list bool) (src : list X) :
  length mask = length a → length src = count_nonzero mask →
  select (scatter a mask src) mask = src.
Proof.
  unfold count_nonzero.
  revert mask src. induction a as [|x a IH]; intros [|t mask] src Hm Hs;
    try discriminate Hm.
  - destruct src; [reflexivity|discriminate Hs].
  - injection Hm as Hm. destruct t; simpl in Hs.
    + destruct src as [|y src]; [discriminate Hs|]. injection Hs as Hs.
      simpl. f_equal. apply IH; assumption.
    + simpl. apply IH; assumption.
Qed.

Lemma select_insert_false {X} (a : list X) (mask : list bool) (i : nat) (x : X) :
  mask !! i = Some false → select (<[i:=x]> a) mask = select a mask.
Proof.
  revert mask i. induction a as [|y a IH]; intros [|t mask] i Hi;
    try reflexivity; try discriminate Hi.
  destruct i as [|i]; simpl in Hi.
  - injection Hi as ->. reflexivity.
  - simpl. rewrite (IH mask i Hi). reflexivity.
Qed.

Lemma aligned_age_vector_entries (self : PrimalCondSageCone) (i : nat)
    (cov : list bool) (c_var_i v0 : Expression) :
  expcovers (ech self) !! i = Some cov → cov !! i = Some false →
  c_vars self !! i = Some c_var_i →
  length c_var_i = (if decide (i ∈ N_I (ech self)) then count_nonzero cov
                    else (count_nonzero cov + 1)%nat) →
  aligned_age_vector self i = Ok v0 →
  (∀ j, j ≠ i → cov !! j = Some false → v0 !! j = Some (const_expr 0)) ∧
  select v0 cov = take (count_nonzero cov) c_var_i ∧
  v0 !! i = (if decide (i ∈ N_I (ech self)) then c self !! i
             else c_var_i !! count_nonzero cov).
Proof.
  intros Hcov Hself Hcv Hlen Hrun. unfold aligned_age_vector in Hrun.
  apply dict_get_Ok in Hcov. apply dict_get_Ok in Hcv.
  rewrite Hcov, ret_bind in Hrun. cbv beta in Hrun.
  rewrite Hcv, ret_bind in Hrun. cbv beta in Hrun.
  assert (Hlayout : ∀ src v1 x,
            length src = count_nonzero cov →
            setmask (zeros_expr (m self)) cov src = Ok v1 →
            setitem v1 i x = Ok v0 →
            (∀ j, j ≠ i → cov !! j = Some false → v0 !! j = Some (const_expr 0)) ∧
            select v0 cov = src ∧ v0 !! i = Some x).
  { intros src v1 x Hsrc Hv1 Hv0.
    apply setitem_Ok in Hv0 as [Hlt ->].
    pose proof (setmask_Ok _ _ _ _ Hv1) as [Hlen1 Hmask].
    unfold setmask in Hv1. rewrite !decide_True in Hv1 by assumption.
    injection Hv1 as <-. split; [|split].
    - intros j Hji Hj. rewrite list_lookup_insert_ne by congruence.
      rewrite (scatter_lookup_false _ _ _ _ Hj). unfold zeros_expr.
      apply lookup_replicate_2. apply lookup_lt_Some in Hj.
      unfold zeros_expr in Hmask. rewrite length_replicate in Hmask. lia.
    - rewrite (select_insert_false _ _ _ _ Hself).
      apply select_scatter; assumption.
    - apply list_lookup_insert_eq. exact Hlt. }
  destruct (decide (i ∈ N_I (ech self))) as [HN|HN].
  - apply bind_Ok in Hrun as (v1 & Hv1 & Hrun).
    apply bind_Ok in Hrun as (c_i & Hc_i & Hrun). apply getitem_Ok in Hc_i.
    destruct (Hlayout c_var_i v1 c_i Hlen Hv1 Hrun) as (Hzero & Hsel & Hi).
    split; [exact Hzero|]. split; [|rewrite Hi, Hc_i; reflexivity].
    rewrite Hsel, take_ge; [reflexivity|lia].
  - apply bind_Ok in Hrun as (v1 & Hv1 & Hrun).
    apply bind_Ok in Hrun as (last_c & Hlast & Hrun).
    assert (Hsrc : length (all_but_last c_var_i) = count_nonzero cov)
      by (unfold all_but_last; rewrite length_take; lia).
    destruct (Hlayout _ v1 last_c Hsrc Hv1 Hrun) as (Hzero & Hsel & Hi).
    split; [exact Hzero|]. split.
    + rewrite Hsel. unfold all_but_last. f_equal. lia.
    + rewrite Hi. unfold last_item in Hlast.
      destruct (last c_var_i) as [y|] eqn:Hy; [|discriminate Hlast].
      injection Hlast as ->. rewrite last_lookup in Hy. rewrite <- Hy.
      f_equal. lia.
Qed.

(** X18. Layout of the AGE vector of term [i], for a cover that leaves [i]
    out and a [c] variable of the declared size: the vector is zero outside
    the cover and position [i]; read through the cover it gives back the
    first entries of the [c] variable, in order; and at position [i] it
    holds the last entry of the [c] variable unless [i] is
    definite-negative, in which case it holds [c[i]]. *)
Theorem age_vector_layout (self : PrimalCondSageCone) (i : nat)
    (cov : list bool) (c_var_i v0 : Expression) :
  expcovers (ech self) !! i = Some cov → cov !! i = Some false →
  c_vars self !! i = Some c_var_i →
  length c_var_i = (if decide (i ∈ N_I (ech self)) then count_nonzero cov
                    else (count_nonzero cov + 1)%nat) →
  aligned_age_vector self i = Ok v0 →
  (∀ j, j ≠ i → cov !! j = Some false → v0 !! j = Some (const_expr 0)) ∧
  select v0 cov = take (count_nonzero cov) c_var_i ∧
  v0 !! i = (if decide (i ∈ N_I (ech self)) then c self !! i
             else c_var_i !! count_nonzero cov).
Proof.
  intros Hcov Hself Hcv Hlen Hrun.
  destruct (aligned_age_vector_entries self i cov c_var_i v0
              Hcov Hself Hcv Hlen Hrun) as (Hzero & Hsel & Hi).
  split; [exact Hzero|]. split; [exact Hsel|exact Hi].
Qed.

Lemma age_vector_layout_witness :
  select [atom_expr (c_var 1 0); atom_expr (c_var 1 1); const_expr 0]
         [true; false; false]
  = take 1 (mk_Variable (c_var 1) 2).
Proof.
  apply (age_vector_layout (primal three_term_built) 1 [true; false; false]
           (mk_Variable (c_var 1) 2)
           [atom_expr (c_var 1 0); atom_expr (c_var 1 1); const_expr 0]).
  - vm_compute. reflexivity.
  - reflexivity.
  - vm_compute. reflexivity.
  - vm_compute. reflexivity.
  - vm_compute. reflexivity.
Defined.

(** * The global equality block of the primal compiler *)











